(** * UP documents: parser and template engine

    A shallow embedding of the Go implementation of the UP (Unified
    Properties) language: the line-oriented parser of [parser.go] and the
    template engine of [template.go], together with the properties of the
    two that the specification states.

    Layout: the Go library functions the code calls ([strings], [strconv],
    [fmt.Sprint]); the data model of [types.go]; the parser; the template
    engine over values; the template engine's patch step over a store of
    shared maps and slices; the vocabulary of the statements; then the
    lemmas and theorems, and last the repository's tests run on the model. *)

From Stdlib Require Import String Ascii List ZArith NArith Lia Bool.
From stdpp Require Import gmap strings list.

Set Warnings "-register-all".
Local Open Scope string_scope.
Local Open Scope list_scope.

(* [simpl] computes an append again. *)
#[local] Arguments String.append !_ _ / : simpl nomatch.

(* ===================================================================== *)
(** * Go strings

    A Go [string] is a sequence of bytes; [len] counts bytes and slicing
    is by byte offsets.  [string] with [ascii] as the byte type models it. *)
(* ===================================================================== *)

Definition len (s : string) : nat := String.length s.

(** The one-byte strings the sources write as literals that cannot be
    spelled inside a literal here. *)
Definition dquote : string := String (ascii_of_nat 34) EmptyString.
Definition newline : string := String (ascii_of_nat 10) EmptyString.
Definition tab : string := String (ascii_of_nat 9) EmptyString.

(** [s[n:]] and [s[:n]] for [n <= len s]. *)
Fixpoint drop_str (n : nat) (s : string) : string :=
  match n, s with
  | S k, String _ r => drop_str k r
  | _, _ => s
  end.

Fixpoint take_str (n : nat) (s : string) : string :=
  match n, s with
  | S k, String c r => String c (take_str k r)
  | _, _ => EmptyString
  end.

Fixpoint rev_onto (s acc : string) : string :=
  match s with
  | EmptyString => acc
  | String c r => rev_onto r (String c acc)
  end.

Definition rev_str (s : string) : string := rev_onto s EmptyString.

(** [strings.HasPrefix]. *)
Fixpoint HasPrefix (s p : string) {struct p} : bool :=
  match p with
  | EmptyString => true
  | String c p' =>
      match s with
      | String d s' => Ascii.eqb d c && HasPrefix s' p'
      | EmptyString => false
      end
  end.

(** [strings.HasSuffix]:
    [len(s) >= len(suffix) && s[len(s)-len(suffix):] == suffix]. *)
Definition HasSuffix (s suf : string) : bool :=
  (len suf <=? len s)%nat && String.eqb (drop_str (len s - len suf) s) suf.

(** [strings.TrimPrefix] and [strings.TrimSuffix]. *)
Definition TrimPrefix (s p : string) : string :=
  if HasPrefix s p then drop_str (len p) s else s.

Definition TrimSuffix (s suf : string) : string :=
  if HasSuffix s suf then take_str (len s - len suf) s else s.

(** [strings.Index]: byte offset of the first occurrence, [None] for -1. *)
Fixpoint Index (s sub : string) : option nat :=
  if HasPrefix s sub then Some 0%nat
  else match s with
       | EmptyString => None
       | String _ r => option_map S (Index r sub)
       end.

Definition Contains (s sub : string) : bool :=
  match Index s sub with Some _ => true | None => false end.

(** [strings.IndexAny(s, chars)] for a [chars] of ASCII bytes, given as the
    predicate of membership in [chars]. *)
Fixpoint IndexFunc (f : ascii -> bool) (s : string) : option nat :=
  match s with
  | EmptyString => None
  | String c r => if f c then Some 0%nat else option_map S (IndexFunc f r)
  end.

Definition isSpaceOrTab (c : ascii) : bool :=
  Ascii.eqb c " "%char || Ascii.eqb c (ascii_of_nat 9).

(** [strings.Split(s, sep)] for a one-byte separator: always at least one
    piece; the empty string splits into one empty piece. *)
Fixpoint Split (s : string) (sep : ascii) : list string :=
  match s with
  | EmptyString => [EmptyString]
  | String c r =>
      if Ascii.eqb c sep then EmptyString :: Split r sep
      else match Split r sep with
           | h :: t => String c h :: t
           | [] => [String c EmptyString]
           end
  end.

(** [strings.SplitN(s, sep, 2)] for a one-byte separator. *)
Fixpoint SplitN2 (s : string) (sep : ascii) : list string :=
  match s with
  | EmptyString => [EmptyString]
  | String c r =>
      if Ascii.eqb c sep then [EmptyString; r]
      else match SplitN2 r sep with
           | h :: t => String c h :: t
           | [] => [String c EmptyString]
           end
  end.

(** [strings.Join]. *)
Definition Join (l : list string) (sep : string) : string := String.concat sep l.

(** [strings.Replace(s, old, new, 1)] for a non-empty [old]. *)
Definition Replace1 (s old new : string) : string :=
  match Index s old with
  | Some i => take_str i s +:+ new +:+ drop_str (i + len old) s
  | None => s
  end.

(** [strings.ReplaceAll] for a non-empty [old]: the non-overlapping
    occurrences, left to right.  [skip] counts the bytes of a match still
    to be passed over. *)
Fixpoint replaceAllFrom (old new s : string) (skip : nat) : string :=
  match s with
  | EmptyString => EmptyString
  | String c r =>
      match skip with
      | S k => replaceAllFrom old new r k
      | O =>
          if HasPrefix s old then new +:+ replaceAllFrom old new r (len old - 1)
          else String c (replaceAllFrom old new r 0)
      end
  end.

Definition ReplaceAll (s old new : string) : string := replaceAllFrom old new s 0.

(** ** [strings.TrimSpace]

    Leading and trailing white space as Unicode defines it, on the UTF-8
    bytes: the six ASCII spaces, U+0085 and U+00A0 (two bytes), U+1680,
    U+2000..U+200A, U+2028, U+2029, U+202F, U+205F and U+3000 (three
    bytes).  Each of these has one valid encoding, so a rune at the front
    (or at the back) is a space exactly when those bytes are there. *)

Definition byteN (c : ascii) : N := N_of_ascii c.

Definition isAsciiSpace (c : ascii) : bool :=
  let n := byteN c in
  ((9 <=? n) && (n <=? 13) || (n =? 32))%N.

Definition isSpace2 (c1 c2 : ascii) : bool :=
  ((byteN c1 =? 194) && ((byteN c2 =? 133) || (byteN c2 =? 160)))%N.

Definition isSpace3 (c1 c2 c3 : ascii) : bool :=
  let a := byteN c1 in let b := byteN c2 in let c := byteN c3 in
  ((a =? 225) && (b =? 154) && (c =? 128)
   || (a =? 226) && (b =? 128)
        && ((128 <=? c) && (c <=? 138) || (c =? 168) || (c =? 169) || (c =? 175))
   || (a =? 226) && (b =? 129) && (c =? 159)
   || (a =? 227) && (b =? 128) && (c =? 128))%N.

Fixpoint TrimLeftSpace (s : string) : string :=
  match s with
  | EmptyString => EmptyString
  | String c1 r1 =>
      if isAsciiSpace c1 then TrimLeftSpace r1
      else match r1 with
           | String c2 r2 =>
               if isSpace2 c1 c2 then TrimLeftSpace r2
               else match r2 with
                    | String c3 r3 =>
                        if isSpace3 c1 c2 c3 then TrimLeftSpace r3 else s
                    | EmptyString => s
                    end
           | EmptyString => s
           end
  end.

(** The same on the reversed string: the bytes of a rune come last first. *)
Fixpoint trimLeftSpaceRev (s : string) : string :=
  match s with
  | EmptyString => EmptyString
  | String c1 r1 =>
      if isAsciiSpace c1 then trimLeftSpaceRev r1
      else match r1 with
           | String c2 r2 =>
               if isSpace2 c2 c1 then trimLeftSpaceRev r2
               else match r2 with
                    | String c3 r3 =>
                        if isSpace3 c3 c2 c1 then trimLeftSpaceRev r3 else s
                    | EmptyString => s
                    end
           | EmptyString => s
           end
  end.

Definition TrimRightSpace (s : string) : string :=
  rev_str (trimLeftSpaceRev (rev_str s)).

Definition TrimSpace (s : string) : string := TrimRightSpace (TrimLeftSpace s).

(** ** [strconv.Atoi]

    An optional sign and one or more decimal digits, nothing else; a value
    outside the range of a 64-bit [int] is an error. *)

Definition isDigit (c : ascii) : bool :=
  ((48 <=? byteN c) && (byteN c <=? 57))%N.

Fixpoint parseDigits (s : string) (acc : Z) : option Z :=
  match s with
  | EmptyString => Some acc
  | String c r =>
      if isDigit c then parseDigits r (10 * acc + (Z.of_N (byteN c) - 48))%Z
      else None
  end.

Definition parseUnsigned (s : string) : option Z :=
  match s with
  | EmptyString => None
  | _ => parseDigits s 0%Z
  end.

Definition Atoi (s : string) : option Z :=
  let signed :=
    match s with
    | String c r =>
        if Ascii.eqb c "-"%char then option_map Z.opp (parseUnsigned r)
        else if Ascii.eqb c "+"%char then parseUnsigned r
        else parseUnsigned s
    | EmptyString => None
    end in
  match signed with
  | Some z => if ((- 2 ^ 63 <=? z) && (z <=? 2 ^ 63 - 1))%Z then Some z else None
  | None => None
  end.

(** ** [fmt.Errorf] and the ways a call ends

    One constructor per error the sources build; the wrapping ones keep the
    error they wrap, as [%w] does. *)

Inductive Error : Type :=
| EReader (msg : string)                 (* an error of the underlying reader or of the OS *)
| EUseRequiresList                       (* "!use directive requires a list: ..." *)
| ELintRequiresBlock                     (* "!lint directive requires a block: ..." *)
| EInvalidUse (e : Error)                (* "invalid !use directive: %w" *)
| EInvalidLint (e : Error)               (* "invalid !lint block: %w" *)
| EAtLine (n : nat) (e : Error)          (* "line %d: %w" *)
| EInvalidPath (e : Error)               (* "invalid path: %w" *)
| ECircularFile (filename : string)      (* "circular dependency detected: %s" *)
| EOpenFile (e : Error)                  (* "failed to open file: %w" *)
| EParse (e : Error)                     (* "parse error: %w" *)
| ELoadBase (file : string) (e : Error)  (* "failed to load base %s: %w" *)
| EInclude (file : string) (e : Error)   (* "failed to include %s: %w" *)
| ECircularVars (n : nat).               (* "circular dependency detected: exceeded %d iterations resolving variables" *)

(** A call returns a value, returns an error, panics (a run-time error such
    as a slice bound out of range), or is cut off because the model's fuel
    ran out. *)
Inductive Outcome (A : Type) : Type :=
| Ok (a : A)
| Fail (e : Error)
| Panic (msg : string)
| OutOfFuel.

Arguments Ok {A} a.
Arguments Fail {A} e.
Arguments Panic {A} msg.
Arguments OutOfFuel {A}.

Definition bind {A B : Type} (m : Outcome A) (k : A -> Outcome B) : Outcome B :=
  match m with
  | Ok a => k a
  | Fail e => Fail e
  | Panic msg => Panic msg
  | OutOfFuel => OutOfFuel
  end.

(** [if err != nil { return ..., fmt.Errorf(..., err) }]. *)
Definition wrapErr {A : Type} (w : Error -> Error) (m : Outcome A) : Outcome A :=
  match m with
  | Fail e => Fail (w e)
  | other => other
  end.

#[global] Instance Outcome_bind : MBind Outcome := fun A B k m => bind m k.
#[global] Instance Outcome_ret : MRet Outcome := fun A a => Ok a.

(* ===================================================================== *)
(** * Data model ([types.go]) *)
(* ===================================================================== *)

(** [Value] is [any]; the dynamic types the parser and the engine store in
    it are the constructors.  [List] and [[]any] are different Go types (a
    type assertion to one fails on the other), and so are [Block] and
    [map[string]any].  A Go map is kept as an association list without
    repeated keys, in the order of first insertion; Go leaves the order of
    [range] over a map open. *)
Inductive Value : Type :=
| VString (s : string)
| VBlock (b : list (string * Value))     (* Block *)
| VList (l : list Value)                 (* List *)
| VSlice (l : list Value)                (* []any *)
| VTable (m : list (string * Value))     (* map[string]any *)
| VUse (namespaces : list string).       (* UseDirective *)

Definition Block : Type := list (string * Value).

Record Node : Type := mkNode { Key : string; Typ : string; Val : Value }.

Record Document : Type := mkDocument { Nodes : list Node }.

(** [m[k]], [m[k] = v] and [delete(m, k)]. *)
Fixpoint mapGet {A : Type} (m : list (string * A)) (k : string) : option A :=
  match m with
  | [] => None
  | (k', v) :: m' => if String.eqb k k' then Some v else mapGet m' k
  end.

Fixpoint mapSet {A : Type} (k : string) (v : A) (m : list (string * A)) : list (string * A) :=
  match m with
  | [] => [(k, v)]
  | (k', v') :: m' =>
      if String.eqb k k' then (k, v) :: m' else (k', v') :: mapSet k v m'
  end.

Fixpoint mapDelete {A : Type} (k : string) (m : list (string * A)) : list (string * A) :=
  match m with
  | [] => []
  | (k', v') :: m' =>
      if String.eqb k k' then mapDelete k m' else (k', v') :: mapDelete k m'
  end.

(* ===================================================================== *)
(** * The parser ([parser.go]) *)
(* ===================================================================== *)

(** What [bufio.Scanner] makes of an [io.Reader]: the lines it yields, one
    per successful [Scan], and the error [Err] reports once [Scan] has
    returned false ([None] at a clean end of input). *)
Record Reader : Type := mkReader { rdLines : list string; rdErr : option Error }.

(** [bufio.ScanLines] on a text: split at line feeds, one trailing
    carriage return dropped from each line, no token for an empty rest.
    The scanner's limit on the length of a line (64 KiB, beyond which
    [Scan] stops and [Err] reports that the token is too long) is not
    modelled: [ScanLines] is exact on texts whose lines are shorter. *)
Definition dropCR (s : string) : string :=
  if HasSuffix s (String (ascii_of_nat 13) EmptyString) then take_str (len s - 1) s else s.

Definition ScanLines (text : string) : list string :=
  let pieces := Split text (ascii_of_nat 10) in
  let pieces := match List.rev pieces with
                | EmptyString :: front => List.rev front
                | _ => pieces
                end in
  List.map dropCR pieces.

(** [strings.NewReader(text)]. *)
Definition stringReader (text : string) : Reader := mkReader (ScanLines text) None.

Record Scanner : Type := mkScanner {
  pending : list string;      (* the lines [Scan] has not yielded yet *)
  lineNum : nat;
  readErr : option Error      (* [scanner.Err()] at the end of input *)
}.

Definition NewScanner (r : Reader) : Scanner := mkScanner (rdLines r) 0 (rdErr r).

Definition NextLine (s : Scanner) : nat * string * bool * Scanner :=
  match pending s with
  | [] => (lineNum s, EmptyString, false, s)
  | text :: rest =>
      let n := S (lineNum s) in
      (n, text, true, mkScanner rest n (readErr s))
  end.

(** [func(string, int) string] may panic: [None]. *)
Record Parser : Type := mkParser {
  dedentFunc : string -> Z -> option string;
  skipEmptyLine : string -> bool;
  skipComment : string -> bool
}.

(** [line[n:]] panics for a negative [n]. *)
Definition dedentLine (n : Z) (line : string) : option string :=
  if (n <=? Z.of_nat (len line))%Z then
    if (n <? 0)%Z then None else Some (drop_str (Z.to_nat n) line)
  else Some line.

Definition dedentLines (s : string) (n : Z) : option string :=
  option_map (fun lines => Join lines newline)
             (mapM (dedentLine n) (Split s (ascii_of_nat 10))).

Definition NewParser : Parser :=
  mkParser dedentLines
           (fun line => String.eqb (TrimSpace line) EmptyString)
           (fun line => HasPrefix (TrimSpace line) "#").

Definition stripSurroundingQuotes (s : string) : string :=
  if (2 <=? len s)%nat && HasPrefix s dquote && HasSuffix s dquote
  then take_str (len s - 2) (drop_str 1 s)
  else s.

(** [keyEnd]: where the key token ends in the trimmed line. *)
Definition keyEndOf (line : string) : nat :=
  match IndexFunc isSpaceOrTab line with
  | Some i => i
  | None => len line
  end.

Definition splitKeyValue (line : string) : string * string * bool :=
  let line := TrimSpace line in
  let keyEnd := keyEndOf line in
  let keyPart := take_str keyEnd line in
  if HasSuffix keyPart ":" && negb (Contains keyPart "://") then
    let key := TrimSuffix keyPart ":" in
    let value :=
      if (keyEnd <? len line)%nat then
        let value := TrimSpace (drop_str keyEnd line) in
        let value := match Index value "#" with
                     | Some commentIdx => TrimSpace (take_str commentIdx value)
                     | None => value
                     end in
        stripSurroundingQuotes value
      else EmptyString in
    (key, value, true)
  else if (keyEnd <? len line)%nat then
    (keyPart, stripSurroundingQuotes (TrimSpace (drop_str keyEnd line)), false)
  else (keyPart, EmptyString, false).

Definition parseKeyAndType (keyPart : string) : string * string :=
  match Index keyPart "!" with
  | Some idx => (take_str idx keyPart, drop_str (idx + 1) keyPart)
  | None => (keyPart, EmptyString)
  end.

(** The error result is nil on every path. *)
Definition parseInlineList (line : string) : Outcome (list Value) :=
  let line := TrimSpace line in
  let line := TrimPrefix line "[" in
  let line := TrimSuffix line "]" in
  if String.eqb line EmptyString then Ok []
  else Ok (List.map (fun item => VString (TrimSpace item)) (Split line ","%char)).

Definition parseInlineBlock (s : string) : Outcome Block :=
  let s := TrimSpace s in
  let s := TrimPrefix s "{" in
  let s := TrimSuffix s "}" in
  let s := TrimSpace s in
  if String.eqb s EmptyString then Ok []
  else
    Ok (fold_left
          (fun block part =>
             let part := TrimSpace part in
             if String.eqb part EmptyString then block
             else
               let '(keyPart, valPart, _) := splitKeyValue part in
               let '(key, _) := parseKeyAndType keyPart in
               mapSet key (VString valPart) block)
          (Split s ","%char) []).

(** A [for] loop over [scanner.NextLine()] is a function of the scanner
    and of what the loop has built so far; [fuel] bounds the number of
    lines read and of calls nested in one another, and every call that
    reads a line runs on one unit less.  [ParseDocument] starts with more
    fuel than the input has lines. *)

Fixpoint parseMultilineLoop (fuel : nat) (scanner : Scanner) (content : list string)
  : Outcome (list string * Scanner) :=
  match fuel with
  | O => OutOfFuel
  | S fuel =>
      let '(_, line, ok, scanner) := NextLine scanner in
      if negb ok then Ok (content, scanner)
      else if String.eqb (TrimSpace line) "```" then Ok (content, scanner)
      else parseMultilineLoop fuel scanner (content ++ [line])
  end.

Definition parseMultiline (p : Parser) (fuel : nat) (scanner : Scanner)
    (node : Node) (line : string) : Outcome (string * Scanner) :=
  '(content, scanner) ← parseMultilineLoop fuel scanner [];
  let text := Join content newline in
  if negb (String.eqb (Typ node) EmptyString) then
    match Atoi (Typ node) with
    | Some dedent =>
        match dedentFunc p text dedent with
        | Some text => Ok (text, scanner)
        | None => Panic "runtime error: slice bounds out of range"
        end
    | None => Ok (text, scanner)
    end
  else Ok (text, scanner).

Fixpoint parseBlockOfLists (p : Parser) (fuel : nat) (scanner : Scanner) (rows : list Value)
  : Outcome (list Value * Scanner) :=
  match fuel with
  | O => OutOfFuel
  | S fuel =>
      let '(_, line, ok, scanner) := NextLine scanner in
      if negb ok then Ok (rows, scanner)
      else
        let line := TrimSpace line in
        if String.eqb line "}" then Ok (rows, scanner)
        else if skipEmptyLine p line || skipComment p line
        then parseBlockOfLists p fuel scanner rows
        else if HasPrefix line "[" then
          lst ← parseInlineList line;
          parseBlockOfLists p fuel scanner (rows ++ [VSlice lst])
        else parseBlockOfLists p fuel scanner rows
  end.

Fixpoint parseTable (p : Parser) (fuel : nat) (scanner : Scanner)
    (table : list (string * Value)) : Outcome (list (string * Value) * Scanner) :=
  match fuel with
  | O => OutOfFuel
  | S fuel =>
      let '(_, line, ok, scanner) := NextLine scanner in
      if negb ok then Ok (table, scanner)
      else
        let line := TrimSpace line in
        if String.eqb line "}" then Ok (table, scanner)
        else if skipEmptyLine p line || skipComment p line
        then parseTable p fuel scanner table
        else if HasPrefix line "columns" then
          colList ← parseInlineList (drop_str (len "columns") line);
          parseTable p fuel scanner (mapSet "columns" (VSlice colList) table)
        else if HasPrefix line "rows" then
          '(rowsBlock, scanner) ← parseBlockOfLists p fuel scanner [];
          parseTable p fuel scanner (mapSet "rows" (VSlice rowsBlock) table)
        else parseTable p fuel scanner table
  end.

(** [parseValue], [parseLine] and [parseListItem] do not loop themselves;
    they are written over the two loops they call back into. *)
Section Dispatch.
Variable p : Parser.
Variable fuel : nat.
Variable parseBlock : Scanner -> Outcome (Block * Scanner).
Variable parseList : Scanner -> Outcome (list Value * Scanner).

Definition parseValue (scanner : Scanner) (node : Node) (valPart : string)
    (lineOriented : bool) : Outcome (Value * Scanner) :=
  if HasPrefix valPart "```" then
    '(text, scanner) ← parseMultiline p fuel scanner node valPart;
    Ok (VString text, scanner)
  else if String.eqb valPart "{" then
    '(block, scanner) ← parseBlock scanner;
    Ok (VBlock block, scanner)
  else if String.eqb valPart "[" then
    '(lst, scanner) ← parseList scanner;
    Ok (VList lst, scanner)
  else if HasPrefix valPart "[" && HasSuffix valPart "]" then
    lst ← parseInlineList valPart;
    Ok (VSlice lst, scanner)
  else if HasPrefix valPart "{" && Contains valPart "}" then
    block ← parseInlineBlock valPart;
    Ok (VBlock block, scanner)
  else if String.eqb (Typ node) "table" && HasPrefix valPart "{" then
    '(table, scanner) ← parseTable p fuel scanner [];
    Ok (VTable table, scanner)
  else Ok (VString valPart, scanner).

Definition parseLine (scanner : Scanner) (line : string) : Outcome (Node * Scanner) :=
  let '(keyPart, valPart, lineOriented) := splitKeyValue line in
  let '(key, typeAnnotation) := parseKeyAndType keyPart in
  let node := mkNode key typeAnnotation (VString EmptyString) in
  if String.eqb typeAnnotation "quoted" then
    let valPart :=
      if negb (HasPrefix valPart dquote) || negb (HasSuffix valPart dquote)
      then dquote +:+ valPart +:+ dquote
      else valPart in
    Ok (mkNode key "string" (VString valPart), scanner)
  else
    '(value, scanner) ← parseValue scanner node valPart lineOriented;
    Ok (mkNode key typeAnnotation value, scanner).

Definition parseListItem (scanner : Scanner) (line : string) : Outcome (Value * Scanner) :=
  if HasPrefix line "{" then
    '(block, scanner) ← parseBlock scanner;
    Ok (VBlock block, scanner)
  else if HasPrefix line "[" then
    lst ← parseInlineList line;
    Ok (VSlice lst, scanner)
  else Ok (VString line, scanner).
End Dispatch.

Fixpoint parseBlockLoop (p : Parser) (fuel : nat) (scanner : Scanner) (block : Block)
    {struct fuel} : Outcome (Block * Scanner) :=
  match fuel with
  | O => OutOfFuel
  | S fuel =>
      let '(_, line, ok, scanner) := NextLine scanner in
      if negb ok then Ok (block, scanner)
      else
        let line := TrimSpace line in
        if String.eqb line "}" then Ok (block, scanner)
        else if skipEmptyLine p line || skipComment p line
        then parseBlockLoop p fuel scanner block
        else
          '(node, scanner) ← parseLine p fuel
                               (fun sc => parseBlockLoop p fuel sc [])
                               (fun sc => parseListLoop p fuel sc [])
                               scanner line;
          parseBlockLoop p fuel scanner (mapSet (Key node) (Val node) block)
  end
with parseListLoop (p : Parser) (fuel : nat) (scanner : Scanner) (lst : list Value)
    {struct fuel} : Outcome (list Value * Scanner) :=
  match fuel with
  | O => OutOfFuel
  | S fuel =>
      let '(_, line, ok, scanner) := NextLine scanner in
      if negb ok then Ok (lst, scanner)
      else
        let line := TrimSpace line in
        if String.eqb line "]" then Ok (lst, scanner)
        else if skipEmptyLine p line || skipComment p line
        then parseListLoop p fuel scanner lst
        else
          '(item, scanner) ← parseListItem (fun sc => parseBlockLoop p fuel sc [])
                               scanner line;
          parseListLoop p fuel scanner (lst ++ [item])
  end.

Definition parseBlock (p : Parser) (fuel : nat) (scanner : Scanner)
  : Outcome (Block * Scanner) := parseBlockLoop p fuel scanner [].

Definition parseList (p : Parser) (fuel : nat) (scanner : Scanner)
  : Outcome (list Value * Scanner) := parseListLoop p fuel scanner [].

Definition parseUseDirective (p : Parser) (scanner : Scanner) (line : string)
  : Outcome (Node * Scanner) :=
  let line := TrimSpace line in
  let line := TrimPrefix line "!use" in
  let line := TrimSpace line in
  if HasPrefix line "[" then
    namespaces ← wrapErr EInvalidUse (parseInlineList line);
    let nsList := List.map (fun ns => match ns with
                                      | VString s => s
                                      | _ => EmptyString
                                      end) namespaces in
    Ok (mkNode "_use" "directive" (VUse nsList), scanner)
  else Fail EUseRequiresList.

Definition parseLintDirective (p : Parser) (fuel : nat) (scanner : Scanner) (line : string)
  : Outcome (Node * Scanner) :=
  let line := TrimSpace line in
  let line := TrimPrefix line "!lint" in
  let line := TrimSpace line in
  if String.eqb line "{" then
    '(block, scanner) ← wrapErr EInvalidLint (parseBlock p fuel scanner);
    Ok (mkNode "_lint" "directive" (VBlock block), scanner)
  else Fail ELintRequiresBlock.

Fixpoint parseNodesLoop (p : Parser) (fuel : nat) (scanner : Scanner) (nodes : list Node)
  : Outcome (list Node * Scanner) :=
  match fuel with
  | O => OutOfFuel
  | S fuel =>
      let '(lineNum, line, ok, scanner) := NextLine scanner in
      if negb ok then Ok (nodes, scanner)
      else if skipEmptyLine p line || skipComment p line
      then parseNodesLoop p fuel scanner nodes
      else
        let trimmedLine := TrimSpace line in
        if HasPrefix trimmedLine "!use" then
          '(useNode, scanner) ← wrapErr (EAtLine lineNum)
                                  (parseUseDirective p scanner trimmedLine);
          parseNodesLoop p fuel scanner (nodes ++ [useNode])
        else if HasPrefix trimmedLine "!lint" then
          '(lintNode, scanner) ← wrapErr (EAtLine lineNum)
                                   (parseLintDirective p fuel scanner trimmedLine);
          parseNodesLoop p fuel scanner (nodes ++ [lintNode])
        else
          '(node, scanner) ← wrapErr (EAtLine lineNum)
                               (parseLine p fuel (parseBlock p fuel) (parseList p fuel)
                                          scanner line);
          parseNodesLoop p fuel scanner (nodes ++ [node])
  end.

Definition parseNodes (p : Parser) (fuel : nat) (scanner : Scanner)
  : Outcome (list Node * Scanner) := parseNodesLoop p fuel scanner [].

(** The two results, a pointer to the Document and an error: [nil] with
    the parse error, or the document with what the scanner reports. *)
Definition ParseDocument (p : Parser) (r : Reader)
  : Outcome (option Document * option Error) :=
  let scanner := NewScanner r in
  match parseNodes p (S (List.length (rdLines r))) scanner with
  | Ok (nodes, scanner) => Ok (Some (mkDocument nodes), readErr scanner)
  | Fail err => Ok (None, Some err)
  | Panic msg => Panic msg
  | OutOfFuel => OutOfFuel
  end.

Definition parse (text : string) : Outcome (option Document * option Error) :=
  ParseDocument NewParser (stringReader text).

(* ===================================================================== *)
(** * [fmt.Sprint] of a value

    A string prints as itself, a slice as its items between brackets, a
    map as [map[k:v ...]] with the keys sorted, a struct as its fields
    between braces. *)
(* ===================================================================== *)

Fixpoint insertByKey (kv : string * string) (l : list (string * string))
  : list (string * string) :=
  match l with
  | [] => [kv]
  | kv' :: l' =>
      if String.leb (fst kv) (fst kv') then kv :: l else kv' :: insertByKey kv l'
  end.

Definition sortByKey (l : list (string * string)) : list (string * string) :=
  fold_right insertByKey [] l.

Definition sprintSlice (items : list string) : string :=
  "[" +:+ Join items " " +:+ "]".

Definition sprintMap (entries : list (string * string)) : string :=
  "map[" +:+ Join (List.map (fun kv => fst kv +:+ ":" +:+ snd kv) (sortByKey entries)) " "
         +:+ "]".

Fixpoint Sprint (v : Value) : string :=
  let items := fix items (l : list Value) : list string :=
                 match l with
                 | [] => []
                 | x :: l' => Sprint x :: items l'
                 end in
  let entries := fix entries (m : list (string * Value)) : list (string * string) :=
                   match m with
                   | [] => []
                   | (k, x) :: m' => (k, Sprint x) :: entries m'
                   end in
  match v with
  | VString s => s
  | VBlock b => sprintMap (entries b)
  | VList l => sprintSlice (items l)
  | VSlice l => sprintSlice (items l)
  | VTable m => sprintMap (entries m)
  | VUse ns => "{" +:+ sprintSlice ns +:+ "}"
  end.

(* ===================================================================== *)
(** * The template engine ([template.go]), on values

    Here a [Block] or [List] is its contents.  What the engine's writes into
    a map or slice it shares with another document do is the subject of
    the store model further down. *)
(* ===================================================================== *)

Record TemplateOptions : Type := mkOptions {
  MergeStrategy : string;
  ListStrategy : string;
  BaseDir : string
}.

(** [visited] only ever holds [true]: the set of its keys. *)
Record TemplateEngine : Type := mkEngine {
  options : TemplateOptions;
  vars : gmap string Value;
  visited : gset string
}.

Definition NewTemplateEngine : TemplateEngine :=
  mkEngine (mkOptions "deep" "append" ".") ∅ ∅.

Definition setOptions (o : TemplateOptions) (e : TemplateEngine) : TemplateEngine :=
  mkEngine o (vars e) (visited e).
Definition setVars (v : gmap string Value) (e : TemplateEngine) : TemplateEngine :=
  mkEngine (options e) v (visited e).
Definition setVisited (s : gset string) (e : TemplateEngine) : TemplateEngine :=
  mkEngine (options e) (vars e) s.
Definition setBaseDir (dir : string) (e : TemplateEngine) : TemplateEngine :=
  setOptions (mkOptions (MergeStrategy (options e)) (ListStrategy (options e)) dir) e.
Definition setMergeStrategy (s : string) (e : TemplateEngine) : TemplateEngine :=
  setOptions (mkOptions s (ListStrategy (options e)) (BaseDir (options e))) e.
Definition setListStrategy (s : string) (e : TemplateEngine) : TemplateEngine :=
  setOptions (mkOptions (MergeStrategy (options e)) s (BaseDir (options e))) e.

(** What the engine asks of the operating system: [filepath.Abs],
    [filepath.Join], [filepath.Dir] and [os.Open]. *)
Record World : Type := mkWorld {
  Abs : string -> Error + string;
  PathJoin : string -> string -> string;
  Dir : string -> string;
  Open : string -> Error + Reader
}.

(** A method of the engine returns with the engine in some state, whether
    it returns a value or an error: deferred calls run on both ways out. *)
Inductive Run (A : Type) : Type :=
| Done (e : TemplateEngine) (a : A)
| Failed (e : TemplateEngine) (err : Error)
| Crashed (msg : string)
| Starved.

Arguments Done {A} e a.
Arguments Failed {A} e err.
Arguments Crashed {A} msg.
Arguments Starved {A}.

Definition runBind {A B : Type} (m : Run A) (k : TemplateEngine -> A -> Run B) : Run B :=
  match m with
  | Done e a => k e a
  | Failed e err => Failed e err
  | Crashed msg => Crashed msg
  | Starved => Starved
  end.

(** [defer f()]. *)
Definition deferred {A : Type} (f : TemplateEngine -> TemplateEngine) (m : Run A) : Run A :=
  match m with
  | Done e a => Done (f e) a
  | Failed e err => Failed (f e) err
  | other => other
  end.

Definition wrapRun {A : Type} (w : Error -> Error) (m : Run A) : Run A :=
  match m with
  | Failed e err => Failed e (w err)
  | other => other
  end.

(** ** Variables *)

(** [extractVars]: the leaves of a block under their dotted paths. *)
Fixpoint extractVarsValue (prefix k : string) (v : Value) (vs : gmap string Value)
  : gmap string Value :=
  let path := if negb (String.eqb prefix EmptyString) then prefix +:+ "." +:+ k else k in
  match v with
  | VBlock nestedBlock =>
      (fix entries (b : list (string * Value)) (vs : gmap string Value) :=
         match b with
         | [] => vs
         | (k', v') :: b' => entries b' (extractVarsValue path k' v' vs)
         end) nestedBlock vs
  | _ => <[path := v]> vs
  end.

Definition extractVars (block : Block) (prefix : string) (vs : gmap string Value)
  : gmap string Value :=
  fold_left (fun vs kv => extractVarsValue prefix (fst kv) (snd kv) vs) block vs.

Fixpoint valuesEqual (a b : Value) {struct a} : bool :=
  match a with
  | VString va =>
      match b with
      | VString vb => String.eqb va vb
      | _ => false
      end
  | VBlock va =>
      match b with
      | VBlock vb =>
          (List.length va =? List.length vb)%nat
          && (fix entries (m : list (string * Value)) : bool :=
                match m with
                | [] => true
                | (k, v) :: m' =>
                    match mapGet vb k with
                    | Some w => valuesEqual v w
                    | None => false
                    end && entries m'
                end) va
      | _ => false
      end
  | VList va =>
      match b with
      | VList vb =>
          (List.length va =? List.length vb)%nat
          && (fix items (l r : list Value) : bool :=
                match l, r with
                | x :: l', y :: r' => valuesEqual x y && items l' r'
                | _, _ => true
                end) va vb
      | _ => false
      end
  | _ => false
  end.

Definition isVarChar (c : ascii) : bool :=
  let n := byteN c in
  ((97 <=? n) && (n <=? 122) || (65 <=? n) && (n <=? 90)
   || (48 <=? n) && (n <=? 57) || (n =? 95))%N.

(** [for end < len(result) && (isVarChar(result[end]) || result[end] == '.') { end++ }]
    on the text from [end] on: how far [end] moves. *)
Fixpoint varPathLen (s : string) : nat :=
  match s with
  | String c r => if isVarChar c || Ascii.eqb c "."%char then S (varPathLen r) else 0
  | EmptyString => 0
  end.

Fixpoint mapOutcome {A B : Type} (f : A -> Outcome B) (l : list A) : Outcome (list B) :=
  match l with
  | [] => Ok []
  | x :: l' => y ← f x; ys ← mapOutcome f l'; Ok (y :: ys)
  end.

(** The two [ReplaceAll] calls that end the string case. *)
Definition restoreMarkers (result : string) : string :=
  ReplaceAll (ReplaceAll result "<<<$vars." "$vars.") ">>>" EmptyString.

(** [resolveValue], and the [for strings.Contains(result, "$vars.")] loop
    of its string case.  A unit of fuel goes into every call and every
    turn of the loop. *)
Fixpoint resolveValue (vs : gmap string Value) (fuel : nat) (value : Value) {struct fuel}
  : Outcome Value :=
  match fuel with
  | O => OutOfFuel
  | S fuel =>
      match value with
      | VString v =>
          if negb (Contains v "$vars.") then Ok (VString v)
          else resolveRefs vs fuel v
      | VBlock b =>
          result ← mapOutcome (fun kv => val ← resolveValue vs fuel (snd kv);
                                         Ok (fst kv, val)) b;
          Ok (VBlock result)
      | VList l =>
          result ← mapOutcome (resolveValue vs fuel) l;
          Ok (VList result)
      | v => Ok v
      end
  end
with resolveRefs (vs : gmap string Value) (fuel : nat) (result : string) {struct fuel}
  : Outcome Value :=
  match fuel with
  | O => OutOfFuel
  | S fuel =>
      if negb (Contains result "$vars.") then Ok (VString (restoreMarkers result))
      else
        let oldResult := result in
        match Index result "$vars." with
        | None => Ok (VString (restoreMarkers result))
        | Some start =>
            let end_ := (start + 6 + varPathLen (drop_str (start + 6) result))%nat in
            let fullRef := take_str (end_ - start) (drop_str start result) in
            let varPath := TrimPrefix fullRef "$vars." in
            match vs !! varPath with
            | Some resolved =>
                let resolvedStr := Sprint resolved in
                if String.eqb result fullRef then resolveValue vs fuel resolved
                else
                  let result := Replace1 result fullRef resolvedStr in
                  if String.eqb result oldResult then Ok (VString (restoreMarkers result))
                  else resolveRefs vs fuel result
            | None =>
                let result := Replace1 result fullRef ("<<<" +:+ fullRef +:+ ">>>") in
                if String.eqb result oldResult then Ok (VString (restoreMarkers result))
                else resolveRefs vs fuel result
            end
        end
  end.

Definition maxIterations : nat := 100.

(** One pass over [e.vars]: every entry resolved against the map as it was
    when the pass began. *)
Fixpoint resolveVarsPass (vs : gmap string Value) (fuel : nat)
    (entries : list (string * Value)) (newVars : gmap string Value) (hasChanges : bool)
  : Outcome (gmap string Value * bool) :=
  match entries with
  | [] => Ok (newVars, hasChanges)
  | (path, value) :: rest =>
      resolved ← resolveValue vs fuel value;
      resolveVarsPass vs fuel rest (<[path := resolved]> newVars)
                      (hasChanges || negb (valuesEqual value resolved))
  end.

(** The [for iteration := 0; iteration < maxIterations; iteration++] loop,
    by the iterations left. *)
Fixpoint resolveVarsLoop (fuel : nat) (remaining : nat) (e : TemplateEngine) : Run unit :=
  match remaining with
  | O => Done e tt
  | S remaining =>
      match resolveVarsPass (vars e) fuel (map_to_list (vars e)) ∅ false with
      | Ok (newVars, hasChanges) =>
          let e := setVars newVars e in
          if negb hasChanges then Done e tt
          else if (remaining =? 0)%nat then Failed e (ECircularVars maxIterations)
          else resolveVarsLoop fuel remaining e
      | Fail err => Failed e err
      | Panic msg => Crashed msg
      | OutOfFuel => Starved
      end
  end.

Definition resolveVariablesIteratively (fuel : nat) (doc : Document) (e : TemplateEngine)
  : Run Document :=
  runBind (resolveVarsLoop fuel maxIterations e) (fun e _ =>
    match mapOutcome (fun node => val ← resolveValue (vars e) fuel (Val node);
                                  Ok (mkNode (Key node) (Typ node) val)) (Nodes doc) with
    | Ok nodes => Done e (mkDocument nodes)
    | Fail err => Failed e err
    | Panic msg => Crashed msg
    | OutOfFuel => Starved
    end).

(** ** Merging *)

Definition uniqueStep (acc : gset string * list Value) (item : Value)
  : gset string * list Value :=
  let '(seen, result) := acc in
  match item with
  | VString str =>
      if bool_decide (str ∈ seen) then (seen, result)
      else ({[str]} ∪ seen, (result ++ [item])%list)
  | _ => (seen, (result ++ [item])%list)
  end.

Definition uniqueList (lst : list Value) : list Value :=
  snd (fold_left uniqueStep lst (∅, [])).

(** No [Value] of a parsed document is the nil interface, so the
    [overlay == nil] test never holds and is left out. *)
Fixpoint mergeValues (o : TemplateOptions) (base overlay : Value) {struct overlay} : Value :=
  if String.eqb (MergeStrategy o) "shallow" || String.eqb (MergeStrategy o) "replace"
  then overlay
  else
    match base, overlay with
    | VBlock baseBlock, VBlock overlayBlock =>
        if String.eqb (MergeStrategy o) "deep" then
          VBlock ((fix entries (m : list (string * Value)) (result : Block) : Block :=
                     match m with
                     | [] => result
                     | (k, v) :: m' =>
                         match mapGet result k with
                         | Some existing => entries m' (mapSet k (mergeValues o existing v) result)
                         | None => entries m' (mapSet k v result)
                         end
                     end) overlayBlock baseBlock)
        else overlay
    | VList baseList, VList overlayList =>
        if String.eqb (ListStrategy o) "append" then VList (baseList ++ overlayList)
        else if String.eqb (ListStrategy o) "unique"
        then VList (uniqueList (baseList ++ overlayList))
        else VList overlayList
    | _, _ => overlay
    end.

Definition mergeOverlayNode (o : TemplateOptions)
    (acc : list Node * gmap string Node) (overlayNode : Node) : list Node * gmap string Node :=
  let '(nodes, baseMap) := acc in
  match baseMap !! Key overlayNode with
  | Some baseNode =>
      (nodes ++ [mkNode (Key overlayNode) (Typ overlayNode)
                        (mergeValues o (Val baseNode) (Val overlayNode))],
       delete (Key overlayNode) baseMap)
  | None => (nodes ++ [overlayNode], baseMap)
  end.

Definition mergeDocuments (o : TemplateOptions) (base overlay : Document) : Document :=
  let baseMap : gmap string Node :=
    fold_left (fun m node => <[Key node := node]> m) (Nodes base) ∅ in
  let '(nodes, baseMap) := fold_left (mergeOverlayNode o) (Nodes overlay) ([], baseMap) in
  mkDocument (nodes ++ List.filter (fun node => bool_decide (is_Some (baseMap !! Key node)))
                                   (Nodes base)).

(** Step 4 of [processDocument] for one overlay node: merged into the first
    node of the same key, or added at the end. *)
Fixpoint mergeIntoTarget (o : TemplateOptions) (overlayNode : Node) (nodes : list Node)
  : list Node * bool :=
  match nodes with
  | [] => ([], false)
  | targetNode :: rest =>
      if String.eqb (Key targetNode) (Key overlayNode)
      then (mkNode (Key targetNode) (Typ targetNode)
                   (mergeValues o (Val targetNode) (Val overlayNode)) :: rest, true)
      else let '(rest, merged) := mergeIntoTarget o overlayNode rest in
           (targetNode :: rest, merged)
  end.

Definition applyOverlay (o : TemplateOptions) (finalDoc : Document) (overlayNode : Node)
  : Document :=
  let '(nodes, merged) := mergeIntoTarget o overlayNode (Nodes finalDoc) in
  if merged then mkDocument nodes
  else mkDocument (Nodes finalDoc
                   ++ [mkNode (Key overlayNode) EmptyString (Val overlayNode)]).

(** ** Patches *)

Fixpoint applyPatchToBlock (block : Block) (path : list string) (value : Value)
    {struct path} : Block :=
  match path with
  | [] => block
  | key :: rest =>
      if Contains key "[" then
        let parts := SplitN2 key "["%char in
        let baseKey := nth 0 parts EmptyString in
        let selector := TrimSuffix (nth 1 parts EmptyString) "]" in
        match mapGet block baseKey with
        | Some (VList lst) =>
            if String.eqb selector "*" then
              mapSet baseKey
                (VList (List.map
                          (fun item =>
                             match rest with
                             | [] => value
                             | _ =>
                                 match item with
                                 | VBlock itemBlock =>
                                     VBlock (applyPatchToBlock itemBlock rest value)
                                 | _ => item
                                 end
                             end) lst))
                block
            else block
        | _ => block
        end
      else
        match rest with
        | [] => mapSet key value block
        | _ =>
            match mapGet block key with
            | Some (VBlock nestedBlock) =>
                mapSet key (VBlock (applyPatchToBlock nestedBlock rest value)) block
            | _ => block
            end
        end
  end.

(** The loop of [applyPatchPath] over the nodes, for a path [key :: rest]. *)
Fixpoint applyPatchNodes (nodes : list Node) (key : string) (rest : list string)
    (value : Value) : list Node :=
  match nodes with
  | [] => []
  | node :: nodes' =>
      if String.eqb (Key node) key then
        match rest with
        | [] => mkNode (Key node) (Typ node) value :: nodes'
        | _ =>
            match Val node with
            | VBlock block =>
                mkNode (Key node) (Typ node) (VBlock (applyPatchToBlock block rest value))
                :: nodes'
            | _ => node :: nodes'
            end
        end
      else node :: applyPatchNodes nodes' key rest value
  end.

Definition applyPatchPath (doc : Document) (path : list string) (value : Value) : Document :=
  match path with
  | [] => doc
  | key :: rest => mkDocument (applyPatchNodes (Nodes doc) key rest value)
  end.

Definition applyPatches (doc : Document) (patches : list Node) : Document :=
  fold_left (fun result patch =>
               applyPatchPath result (Split (Key patch) "."%char) (Val patch))
            patches (mkDocument (Nodes doc)).

(** ** Loading and processing *)

(** The local variables of [processDocument] that its first loop fills. *)
Record Directives : Type := mkDirectives {
  result : list Node;
  baseDoc : option Document;
  overlayNodes : list Node;
  patchNodes : list Node;
  includeFiles : list string;
  allDocs : list Document
}.

Definition noDirectives : Directives := mkDirectives [] None [] [] [] [].

Definition stringItems (lst : list Value) : list string :=
  flat_map (fun item => match item with VString file => [file] | _ => [] end) lst.

(** The [vars] blocks of a document, harvested into the engine's map. *)
Definition harvestVars (d : Document) (vs : gmap string Value) : gmap string Value :=
  fold_left (fun vs node =>
               if String.eqb (Key node) "vars" then
                 match Val node with
                 | VBlock block => extractVars block EmptyString vs
                 | _ => vs
                 end
               else vs)
            (Nodes d) vs.

Section Loading.
Variable w : World.
Variable processDocument : Document -> TemplateEngine -> Run Document.

(** The body that [ProcessTemplate] and [loadDocumentRaw] share. *)
Definition loadDocumentRaw (filename : string) (e : TemplateEngine) : Run Document :=
  match Abs w filename with
  | inl err => Failed e (EInvalidPath err)
  | inr absPath =>
      if bool_decide (absPath ∈ visited e) then Failed e (ECircularFile filename)
      else
        let e := setVisited ({[absPath]} ∪ visited e) e in
        deferred (fun e => setVisited (visited e ∖ {[absPath]}) e)
          match Open w absPath with
          | inl err => Failed e (EOpenFile err)
          | inr file =>
              match ParseDocument NewParser file with
              | Ok (_, Some err) => Failed e (EParse err)
              | Ok (Some doc, None) =>
                  let oldBaseDir := BaseDir (options e) in
                  let e := setBaseDir (Dir w absPath) e in
                  deferred (setBaseDir oldBaseDir) (processDocument doc e)
              | Ok (None, None) => Crashed "runtime error: nil pointer dereference"
              | Fail err => Failed e (EParse err)
              | Panic msg => Crashed msg
              | OutOfFuel => Starved
              end
          end
  end.

(** One turn of the first loop of [processDocument].  Go ranges over the
    map of a [patch] Block in an order it leaves open; here the entries
    are taken in the order of their insertion. *)
Definition extractDirective (d : Directives) (node : Node) (e : TemplateEngine)
  : Run Directives :=
  if String.eqb (Typ node) "base" then
    match Val node with
    | VString baseFile =>
        let basePath := PathJoin w (BaseDir (options e)) baseFile in
        runBind (wrapRun (ELoadBase baseFile) (loadDocumentRaw basePath e)) (fun e loaded =>
          Done e (mkDirectives (result d) (Some loaded) (overlayNodes d) (patchNodes d)
                               (includeFiles d) (allDocs d ++ [loaded])))
    | _ => Done e d
    end
  else if String.eqb (Typ node) "overlay" then
    match Val node with
    | VBlock block =>
        Done e (mkDirectives (result d) (baseDoc d)
                             (overlayNodes d ++ [mkNode (Key node) (Typ node) (VBlock block)])
                             (patchNodes d) (includeFiles d) (allDocs d))
    | _ => Done e d
    end
  else if String.eqb (Typ node) "include" then
    match Val node with
    | VList lst =>
        Done e (mkDirectives (result d) (baseDoc d) (overlayNodes d) (patchNodes d)
                             (includeFiles d ++ stringItems lst) (allDocs d))
    | _ => Done e d
    end
  else if String.eqb (Typ node) "patch" then
    match Val node with
    | VBlock block =>
        Done e (mkDirectives (result d) (baseDoc d) (overlayNodes d)
                             (patchNodes d
                              ++ List.map (fun kv => mkNode (fst kv) EmptyString (snd kv)) block)
                             (includeFiles d) (allDocs d))
    | _ => Done e d
    end
  else if String.eqb (Typ node) "merge" then
    match Val node with
    | VBlock block =>
        let e := match mapGet block "strategy" with
                 | Some (VString strategy) => setMergeStrategy strategy e
                 | _ => e
                 end in
        let e := match mapGet block "list_strategy" with
                 | Some (VString listStrategy) => setListStrategy listStrategy e
                 | _ => e
                 end in
        Done e d
    | _ => Done e d
    end
  else
    Done e (mkDirectives (result d ++ [node]) (baseDoc d) (overlayNodes d) (patchNodes d)
                         (includeFiles d) (allDocs d)).

Fixpoint extractDirectives (nodes : list Node) (d : Directives) (e : TemplateEngine)
  : Run Directives :=
  match nodes with
  | [] => Done e d
  | node :: nodes' =>
      runBind (extractDirective d node e) (fun e d => extractDirectives nodes' d e)
  end.

(** The loop "Load all included files". *)
Fixpoint loadIncludes (files : list string) (allDocs : list Document) (e : TemplateEngine)
  : Run (list Document) :=
  match files with
  | [] => Done e allDocs
  | includeFile :: files' =>
      let includePath := PathJoin w (BaseDir (options e)) includeFile in
      runBind (wrapRun (EInclude includeFile) (loadDocumentRaw includePath e))
              (fun e includeDoc => loadIncludes files' (allDocs ++ [includeDoc]) e)
  end.
End Loading.

(** [processDocument] after its loads: harvest, merge, overlay, patch,
    resolve.  The documents merged in step 2 are the included ones, the
    slice of [allDocs] before its last element; none of them is [result]
    itself, so the pointer test there always passes. *)
Definition finishDocument (fuel : nat) (d : Directives) (allDocs : list Document)
    (e : TemplateEngine) : Run Document :=
  let resultDoc := mkDocument (result d) in
  let allDocs := allDocs ++ [resultDoc] in
  let e := setVars (fold_left (fun vs doc => harvestVars doc vs) allDocs (vars e)) e in
  let finalDoc := match baseDoc d with
                  | Some baseDoc => baseDoc
                  | None => mkDocument []
                  end in
  let included :=
    take (List.length (includeFiles d))
         (drop (List.length allDocs - List.length (includeFiles d) - 1) allDocs) in
  let finalDoc := fold_left (mergeDocuments (options e)) included finalDoc in
  let finalDoc := if (0 <? List.length (result d))%nat
                  then mergeDocuments (options e) finalDoc resultDoc
                  else finalDoc in
  let finalDoc := fold_left (applyOverlay (options e)) (overlayNodes d) finalDoc in
  let finalDoc := if (0 <? List.length (patchNodes d))%nat
                  then applyPatches finalDoc (patchNodes d)
                  else finalDoc in
  resolveVariablesIteratively fuel finalDoc e.

(** A unit of fuel goes into every document processed, whatever its depth
    in the tree of bases and includes, and the rest bounds the resolution
    of its variables. *)
Fixpoint processDocument (w : World) (fuel : nat) (doc : Document) (e : TemplateEngine)
    {struct fuel} : Run Document :=
  match fuel with
  | O => Starved
  | S fuel =>
      runBind (extractDirectives w (processDocument w fuel) (Nodes doc) noDirectives e)
        (fun e d =>
           runBind (loadIncludes w (processDocument w fuel) (includeFiles d) (allDocs d) e)
             (fun e allDocs => finishDocument fuel d allDocs e))
  end.

Definition ProcessTemplate (w : World) (fuel : nat) (filename : string) (e : TemplateEngine)
  : Run Document :=
  loadDocumentRaw w (processDocument w fuel) filename e.

Definition ProcessTemplateFromReader (w : World) (fuel : nat) (r : Reader)
    (e : TemplateEngine) : Run Document :=
  match ParseDocument NewParser r with
  | Ok (_, Some err) => Failed e err
  | Ok (Some doc, None) => processDocument w fuel doc e
  | Ok (None, None) => Crashed "runtime error: nil pointer dereference"
  | Fail err => Failed e err
  | Panic msg => Crashed msg
  | OutOfFuel => Starved
  end.

(* ===================================================================== *)
(** * The patch step over shared maps and slices

    A Go [Block] is a reference to a map and a [List] a reference to the
    array of a slice; copying a [Node] copies the reference.  The patch
    functions write through these references, so here they run on a store
    of maps and arrays.  A Document is the contents of its [Nodes] slice:
    [applyPatches] copies that slice and [applyPatchPath] writes only into
    the copy. *)
(* ===================================================================== *)

Module Shared.

Definition loc : Type := nat.

Inductive SValue : Type :=
| SString (s : string)
| SBlock (m : loc)          (* Block: the map at [m] *)
| SList (a : loc)           (* List: the array at [a] *)
| SOther (v : Value).       (* any other dynamic type; the patch step does not look inside *)

Record SNode : Type := mkSNode { SKey : string; STyp : string; SVal : SValue }.

Definition SDocument : Type := list SNode.

Record Store : Type := mkStore {
  maps : gmap loc (list (string * SValue));
  arrays : gmap loc (list SValue);
  next : loc
}.

Definition emptyStore : Store := mkStore ∅ ∅ 0.

Definition setMap (st : Store) (m : loc) (entries : list (string * SValue)) : Store :=
  mkStore (<[m := entries]> (maps st)) (arrays st) (next st).

Definition setArray (st : Store) (a : loc) (items : list SValue) : Store :=
  mkStore (maps st) (<[a := items]> (arrays st)) (next st).

(** [list[i]] read from, and [list[i] = value] written to, the array at [a]. *)
Definition arrayGet (st : Store) (a : loc) (i : nat) : option SValue :=
  match arrays st !! a with
  | Some items => items !! i
  | None => None
  end.

Definition arraySet (st : Store) (a : loc) (i : nat) (value : SValue) : Store :=
  match arrays st !! a with
  | Some items => setArray st a (<[i := value]> items)
  | None => st
  end.

Fixpoint applyPatchToBlock (st : Store) (block : loc) (path : list string) (value : SValue)
    {struct path} : Store :=
  match path with
  | [] => st
  | key :: rest =>
      match maps st !! block with
      | None => st
      | Some entries =>
          if Contains key "[" then
            let parts := SplitN2 key "["%char in
            let baseKey := nth 0 parts EmptyString in
            let selector := TrimSuffix (nth 1 parts EmptyString) "]" in
            match mapGet entries baseKey with
            | Some (SList a) =>
                if String.eqb selector "*" then
                  match arrays st !! a with
                  | Some items =>
                      fold_left
                        (fun st i =>
                           match rest with
                           | [] => arraySet st a i value
                           | _ =>
                               match arrayGet st a i with
                               | Some (SBlock itemBlock) =>
                                   applyPatchToBlock st itemBlock rest value
                               | _ => st
                               end
                           end)
                        (seq 0 (List.length items)) st
                  | None => st
                  end
                else st
            | _ => st
            end
          else
            match rest with
            | [] => setMap st block (mapSet key value entries)
            | _ =>
                match mapGet entries key with
                | Some (SBlock nestedBlock) => applyPatchToBlock st nestedBlock rest value
                | _ => st
                end
            end
      end
  end.

(** The loop of [applyPatchPath] over the nodes of [doc], for a path
    [key :: rest]: the store and the nodes after it. *)
Fixpoint applyPatchNodes (st : Store) (nodes : list SNode) (key : string)
    (rest : list string) (value : SValue) : Store * list SNode :=
  match nodes with
  | [] => (st, [])
  | node :: nodes' =>
      if String.eqb (SKey node) key then
        match rest with
        | [] => (st, mkSNode (SKey node) (STyp node) value :: nodes')
        | _ =>
            match SVal node with
            | SBlock block => (applyPatchToBlock st block rest value, node :: nodes')
            | _ => (st, node :: nodes')
            end
        end
      else
        let '(st, nodes') := applyPatchNodes st nodes' key rest value in
        (st, node :: nodes')
  end.

Definition applyPatchPath (st : Store) (doc : SDocument) (path : list string)
    (value : SValue) : Store * SDocument :=
  match path with
  | [] => (st, doc)
  | key :: rest => applyPatchNodes st doc key rest value
  end.

(** [result] starts as a copy of [doc.Nodes]: the same node values. *)
Definition applyPatches (st : Store) (doc : SDocument) (patches : list SNode)
  : Store * SDocument :=
  fold_left (fun '(st, result) patch =>
               applyPatchPath st result (Split (SKey patch) "."%char) (SVal patch))
            patches (st, doc).

(** A parsed value put into the store: a new map for every Block, a new
    array for every List. *)
Fixpoint alloc (v : Value) (st : Store) : SValue * Store :=
  match v with
  | VString s => (SString s, st)
  | VBlock b =>
      let '(entries, st) :=
        (fix entries (b : list (string * Value)) (st : Store)
           : list (string * SValue) * Store :=
           match b with
           | [] => ([], st)
           | (k, x) :: b' =>
               let '(sx, st) := alloc x st in
               let '(r, st) := entries b' st in
               ((k, sx) :: r, st)
           end) b st in
      (SBlock (next st),
       mkStore (<[next st := entries]> (maps st)) (arrays st) (S (next st)))
  | VList l =>
      let '(items, st) :=
        (fix items (l : list Value) (st : Store) : list SValue * Store :=
           match l with
           | [] => ([], st)
           | x :: l' =>
               let '(sx, st) := alloc x st in
               let '(r, st) := items l' st in
               (sx :: r, st)
           end) l st in
      (SList (next st),
       mkStore (maps st) (<[next st := items]> (arrays st)) (S (next st)))
  | other => (SOther other, st)
  end.

Definition allocNode (node : Node) (st : Store) : SNode * Store :=
  let '(v, st) := alloc (Val node) st in (mkSNode (Key node) (Typ node) v, st).

Fixpoint allocNodes (nodes : list Node) (st : Store) : SDocument * Store :=
  match nodes with
  | [] => ([], st)
  | node :: nodes' =>
      let '(n, st) := allocNode node st in
      let '(r, st) := allocNodes nodes' st in
      (n :: r, st)
  end.

(** What a value holds in a store, down to [depth] references. *)
Fixpoint contents (depth : nat) (st : Store) (v : SValue) : option Value :=
  match depth with
  | O => None
  | S depth =>
      match v with
      | SString s => Some (VString s)
      | SBlock m =>
          entries ← maps st !! m;
          b ← mapM (fun kv => x ← contents depth st (snd kv); Some (fst kv, x)) entries;
          Some (VBlock b)
      | SList a =>
          items ← arrays st !! a;
          l ← mapM (contents depth st) items;
          Some (VList l)
      | SOther other => Some other
      end
  end.

Definition documentContents (depth : nat) (st : Store) (doc : SDocument)
  : option Document :=
  nodes ← mapM (fun node => x ← contents depth st (SVal node);
                            Some (mkNode (SKey node) (STyp node) x)) doc;
  Some (mkDocument nodes).

End Shared.

(** A template that patches its own block, the document it parses to, the
    node that [processDocument] keeps of it and the patch it extracts. *)
Definition patchedTemplate : string :=
  Join ["server {"; "host localhost"; "}"; "fix!patch {"; "server.host example.com"; "}"]
       newline.

Definition patchedOwnNodes : list Node :=
  [mkNode "server" EmptyString (VBlock [("host", VString "localhost")])].

Definition patchedDocument : Document :=
  mkDocument (patchedOwnNodes
              ++ [mkNode "fix" "patch" (VBlock [("server.host", VString "example.com")])]).

(* ===================================================================== *)
(** * Vocabulary of the statements *)
(* ===================================================================== *)

(** The byte [c] occurs in [s]. *)
Fixpoint byteIn (c : ascii) (s : string) : bool :=
  match s with
  | EmptyString => false
  | String d r => Ascii.eqb d c || byteIn c r
  end.

Fixpoint repeatByte (c : ascii) (n : nat) : string :=
  match n with
  | O => EmptyString
  | S k => String c (repeatByte c k)
  end.

(** [out] is [line] without its first [n] bytes when it has that many, and
    [line] itself when it is shorter. *)
Definition dedented (n : nat) (line out : string) : Prop :=
  (n <= len line /\ exists pre, len pre = n /\ line = pre +:+ out)
  \/ (len line < n /\ out = line).


Definition rawValue (line : string) : string :=
  let line := TrimSpace line in
  if (keyEndOf line <? len line)%nat then TrimSpace (drop_str (keyEndOf line) line)
  else EmptyString.

(** After the specification's words: the offset of the first ['#'] that is
    not between double quotes, and the value that cutting there, trimming
    and unquoting gives. *)
Fixpoint firstUnquotedHash (s : string) (inQuotes : bool) : option nat :=
  match s with
  | EmptyString => None
  | String c r =>
      if Ascii.eqb c (ascii_of_nat 34)
      then option_map S (firstUnquotedHash r (negb inQuotes))
      else if Ascii.eqb c "#"%char && negb inQuotes then Some 0
      else option_map S (firstUnquotedHash r inQuotes)
  end.

Definition specLineOrientedValue (raw : string) : string :=
  stripSurroundingQuotes
    (match firstUnquotedHash raw false with
     | Some i => TrimSpace (take_str i raw)
     | None => raw
     end).

(** The line opens a multiline text whose annotation is a negative
    integer: the case in which [dedentLines] panics. *)
Definition negativeDedent (line : string) : bool :=
  let '(keyPart, valPart, _) := splitKeyValue line in
  let '(_, typeAnnotation) := parseKeyAndType keyPart in
  HasPrefix valPart "```"
  && match Atoi typeAnnotation with
     | Some dedent => (dedent <? 0)%Z
     | None => false
     end.

(** The line is one that [parseNodes] hands to a directive parser. *)
Definition isDirectiveLine (line : string) : bool :=
  HasPrefix (TrimSpace line) "!use" || HasPrefix (TrimSpace line) "!lint".

(** The scanner [s'] is [s] after some more lines were read. *)
Definition advanced (s s' : Scanner) : Prop :=
  (exists read, pending s = read ++ pending s'
                /\ lineNum s' = lineNum s + List.length read)
  /\ readErr s' = readErr s.

(** The namespaces of the inline list that follows [!use]. *)
Definition inlineItems (arg : string) : list string :=
  let interior := TrimSuffix (TrimPrefix (TrimSpace arg) "[") "]" in
  if String.eqb interior EmptyString then []
  else List.map TrimSpace (Split interior ","%char).

(** The files a document names in its [include] lists, in order. *)
Definition includeFilesOf (doc : Document) : list string :=
  flat_map (fun node =>
              if String.eqb (Typ node) "include" then
                match Val node with
                | VList lst => stringItems lst
                | _ => []
                end
              else [])
           (Nodes doc).

(** One line dedented, for a count that is not negative. *)
Definition dedentOne (n : Z) (line : string) : string :=
  if (n <=? Z.of_nat (len line))%Z then drop_str (Z.to_nat n) line else line.

(** The string begins with a white-space rune. *)
Definition startsWithSpace (s : string) : bool :=
  match s with
  | EmptyString => false
  | String c1 r1 =>
      isAsciiSpace c1
      || match r1 with
         | String c2 r2 =>
             isSpace2 c1 c2
             || match r2 with
                | String c3 _ => isSpace3 c1 c2 c3
                | EmptyString => false
                end
         | EmptyString => false
         end
  end.

Definition startsWithSpaceRev (s : string) : bool :=
  match s with
  | EmptyString => false
  | String c1 r1 =>
      isAsciiSpace c1
      || match r1 with
         | String c2 r2 =>
             isSpace2 c2 c1
             || match r2 with
                | String c3 _ => isSpace3 c3 c2 c1
                | EmptyString => false
                end
         | EmptyString => false
         end
  end.

(** Key, type annotation and value part of a line, as [parseLine] takes
    them from [splitKeyValue] and [parseKeyAndType]. *)
Definition lineValPart (line : string) : string := snd (fst (splitKeyValue line)).
Definition lineKey (line : string) : string :=
  fst (parseKeyAndType (fst (fst (splitKeyValue line)))).
Definition lineType (line : string) : string :=
  snd (parseKeyAndType (fst (fst (splitKeyValue line)))).

(** A line that [NewParser] skips: blank or comment. *)
Definition skipped (line : string) : bool :=
  skipEmptyLine NewParser line || skipComment NewParser line.

(** The annotation does not ask for a negative dedent. *)
Definition dedentIsSafe (typeAnnotation : string) : bool :=
  match Atoi typeAnnotation with
  | Some dedent => negb (dedent <? 0)%Z
  | None => true
  end.

(** The result a loop is proved to give: a value and a scanner further on. *)
Definition returnsAdvanced {A : Type} (sc : Scanner) (m : Outcome (A * Scanner)) : Prop :=
  exists a sc', m = Ok (a, sc') /\ advanced sc sc'.

(** Computes the control flow of a loop body and nothing of the strings. *)
Ltac run := cbn [negb mbind Outcome_bind bind wrapErr fst snd].

(** A template whose two variables refer to each other. *)
Definition cyclicVarsTemplate : string :=
  Join ["vars {"; "a $vars.b"; "b $vars.a"; "}"] newline.

Definition cyclicVarsDocument : Document :=
  mkDocument [mkNode "vars" EmptyString
                     (VBlock [("a", VString "$vars.b"); ("b", VString "$vars.a")])].

(** A call of the model that is cut off or returns a value, but builds no
    error and does not panic. *)
Definition okOrOutOfFuel {A : Type} (m : Outcome A) : Prop :=
  (exists a, m = Ok a) \/ m = OutOfFuel.

(** The variables of [cyclicVarsTemplate], as [extractVars] harvests them. *)
Definition cyclicVars : gmap string Value :=
  <["b" := VString "$vars.a"]> (<["a" := VString "$vars.b"]> ∅).

(** A world with the given files in one directory: every path is already
    absolute, a relative name is the path itself. *)
Definition flatWorld (files : list (string * list string)) : World :=
  mkWorld (fun path => inr path)
          (fun _ file => file)
          (fun _ => ".")
          (fun path => match mapGet files path with
                       | Some text => inr (mkReader text None)
                       | None => inl (EReader "no such file or directory")
                       end).

(** Two files that include each other, and four that form a diamond. *)
Definition includeFiles_ab : list (string * list string) :=
  [("a.up", ["deps!include ["; "b.up"; "]"; "name a"]);
   ("b.up", ["deps!include ["; "a.up"; "]"; "name b"])].

Definition includeFiles_diamond : list (string * list string) :=
  [("top.up", ["deps!include ["; "left.up"; "right.up"; "]"; "name top"]);
   ("left.up", ["deps!include ["; "shared.up"; "]"; "left 1"]);
   ("right.up", ["deps!include ["; "shared.up"; "]"; "right 1"]);
   ("shared.up", ["shared 1"])].

(** The call returns, with a value or an error, in an engine state whose
    visited set is that of [e]. *)
Definition keepsVisited {A : Type} (e : TemplateEngine) (r : Run A) : Prop :=
  match r with
  | Done e' _ => visited e' = visited e
  | Failed e' _ => visited e' = visited e
  | _ => True
  end.

(** How often the byte [c] occurs in [s]. *)
Fixpoint countByte (c : ascii) (s : string) : nat :=
  match s with
  | EmptyString => 0
  | String d r => (if Ascii.eqb d c then 1 else 0) + countByte c r
  end.

(** An ASCII byte that is no white space: it neither is a space nor
    belongs to the encoding of one. *)
Definition plainByte (c : ascii) : bool :=
  negb (isAsciiSpace c) && (byteN c <? 128)%N.

(** The value is a scalar. *)
Definition isScalar (v : Value) : bool :=
  match v with
  | VString _ => true
  | _ => false
  end.

(** The value under a path of keys in nested blocks, and whether the
    path can be walked: every key before the last leads to a block. *)
Fixpoint blockGet (block : Block) (path : list string) : option Value :=
  match path with
  | [] => None
  | key :: rest =>
      match rest with
      | [] => mapGet block key
      | _ => match mapGet block key with
             | Some (VBlock nested) => blockGet nested rest
             | _ => None
             end
      end
  end.



(** The value has no reference for [resolveValue] to resolve: no string
    of it, at any depth of blocks and lists, contains ["$vars."]. *)
Fixpoint refFree (v : Value) : bool :=
  match v with
  | VString s => negb (Contains s "$vars.")
  | VBlock b =>
      (fix entries (m : list (string * Value)) : bool :=
         match m with
         | [] => true
         | (_, x) :: m' => refFree x && entries m'
         end) b
  | VList l =>
      (fix items (l : list Value) : bool :=
         match l with
         | [] => true
         | x :: l' => refFree x && items l'
         end) l
  | _ => true
  end.

(** How deep blocks and lists are nested in the value. *)
Fixpoint depth (v : Value) : nat :=
  match v with
  | VBlock b =>
      S ((fix entries (m : list (string * Value)) : nat :=
            match m with
            | [] => 0
            | (_, x) :: m' => Nat.max (depth x) (entries m')
            end) b)
  | VList l =>
      S ((fix items (l : list Value) : nat :=
            match l with
            | [] => 0
            | x :: l' => Nat.max (depth x) (items l')
            end) l)
  | _ => 0
  end.


(** The call returns, with a value or an error, in an engine state whose
    base directory is that of [e]. *)
Definition keepsBaseDir {A : Type} (e : TemplateEngine) (r : Run A) : Prop :=
  match r with
  | Done e' _ => BaseDir (options e') = BaseDir (options e)
  | Failed e' _ => BaseDir (options e') = BaseDir (options e)
  | _ => True
  end.

(** The type annotations that [processDocument] takes for directives. *)
Definition templateAnnotations : list string :=
  ["base"; "overlay"; "include"; "patch"; "merge"].

(** No variable of the map is a Block. *)
Definition leavesOnly (vs : gmap string Value) : Prop :=
  forall k b, vs !! k <> Some (VBlock b).


(** A value part that [parseValue] takes as it is, and a line that gives
    a scalar node of its own: no directive, no [quoted] annotation, and
    such a value part. *)
Definition scalarValuePart (typeAnnotation valPart : string) : bool :=
  negb (HasPrefix valPart "```")
  && negb (String.eqb valPart "{")
  && negb (String.eqb valPart "[")
  && negb (HasPrefix valPart "[" && HasSuffix valPart "]")
  && negb (HasPrefix valPart "{" && Contains valPart "}")
  && negb (String.eqb typeAnnotation "table" && HasPrefix valPart "{").

Definition scalarLine (line : string) : bool :=
  negb (isDirectiveLine line)
  && negb (String.eqb (lineType line) "quoted")
  && scalarValuePart (lineType line) (lineValPart line).

Definition scalarNode (line : string) : Node :=
  mkNode (lineKey line) (lineType line) (VString (lineValPart line)).


(** A key fit for a variable path: not empty and without a dot; and a
    value in which every block, at every depth, has such keys only, each
    of them once. *)
Definition plainKey (k : string) : bool :=
  negb (String.eqb k EmptyString) && negb (byteIn "."%char k).

Fixpoint wfVars (v : Value) : bool :=
  match v with
  | VBlock b =>
      (fix entries (m : list (string * Value)) : bool :=
         match m with
         | [] => true
         | (k, x) :: m' =>
             plainKey k && negb (existsb (String.eqb k) (List.map fst m'))
             && wfVars x && entries m'
         end) b
  | _ => true
  end.


(** A line that gives a scalar item of a multiline list. *)
Definition scalarItem (line : string) : bool :=
  negb (HasPrefix (TrimSpace line) "{") && negb (HasPrefix (TrimSpace line) "[").

(** A line that gives a scalar entry of a block. *)
Definition scalarEntry (line : string) : bool :=
  negb (String.eqb (lineType line) "quoted")
  && scalarValuePart (lineType line) (lineValPart line).

(** The block that a sequence of scalar entries builds, from first to
    last. *)
Definition entriesBlock (lines : list string) (block : Block) : Block :=
  fold_left (fun b l => mapSet (lineKey l) (VString (lineValPart l)) b) lines block.


(** The kind of value that [processDocument] accepts under a template
    annotation: a string for [base], a List for [include], a Block for
    [overlay], [patch] and [merge]. *)
Definition directiveValue (typeAnnotation : string) (v : Value) : bool :=
  if String.eqb typeAnnotation "base" then
    match v with VString _ => true | _ => false end
  else if String.eqb typeAnnotation "include" then
    match v with VList _ => true | _ => false end
  else
    match v with VBlock _ => true | _ => false end.


(** The last node of key [k]: the node that the map of base nodes holds
    under [k] when [mergeDocuments] has filled it. *)
Definition lastOfKey (nodes : list Node) (k : string) : option Node :=
  List.find (fun node => String.eqb (Key node) k) (List.rev nodes).

(** What a merge emits for the nodes of the overlay document, in their
    order: a node whose key no earlier overlay node had and some base node
    has is emitted under its own key and type annotation with the merged
    value of the last base node of that key and its own; any other node
    is emitted as it is.  [earlier] holds the keys of the overlay nodes
    already passed. *)
Fixpoint mergedOverlay (o : TemplateOptions) (base : list Node) (earlier : list string)
    (overlay : list Node) : list Node :=
  match overlay with
  | [] => []
  | node :: rest =>
      (if existsb (String.eqb (Key node)) earlier then node
       else match lastOfKey base (Key node) with
            | Some baseNode =>
                mkNode (Key node) (Typ node) (mergeValues o (Val baseNode) (Val node))
            | None => node
            end)
      :: mergedOverlay o base (Key node :: earlier) rest
  end.


(** The files a document names as its bases (a node annotated [base]
    whose value is a string), in order, and the loads of a document in
    the order in which [processDocument] makes them: the bases in the
    first loop, then the include files. *)
Definition baseFilesOf (doc : Document) : list string :=
  flat_map (fun node =>
              if String.eqb (Typ node) "base" then
                match Val node with
                | VString baseFile => [baseFile]
                | _ => []
                end
              else [])
           (Nodes doc).

Definition loadsOf (doc : Document) : list string := baseFilesOf doc ++ includeFilesOf doc.

(** The file is one of the loads of the document; the file is its first
    load. *)
Definition anyLoad (doc : Document) (file : string) : Prop := In file (loadsOf doc).

Definition firstLoad (doc : Document) (file : string) : Prop :=
  head (loadsOf doc) = Some file.

(** A chain of [n] loads that ends at a path of the set [onChain], the
    paths of the chain being added to the set as it goes: the file at
    [path] is not in the set, opens and parses to a document, which names
    the next file, resolved in the directory of [path]. *)
Inductive loadChain (w : World) (next : Document -> string -> Prop)
  : nat -> string -> gset string -> Prop :=
| loadChain_back (path : string) (onChain : gset string) :
    path ∈ onChain -> loadChain w next 0 path onChain
| loadChain_load (n : nat) (path : string) (onChain : gset string)
                 (file : Reader) (doc : Document) (name path' : string) :
    path ∉ onChain ->
    Open w path = inr file ->
    ParseDocument NewParser file = Ok (Some doc, None) ->
    next doc name ->
    Abs w (PathJoin w (Dir w path) name) = inr path' ->
    loadChain w next n path' ({[path]} ∪ onChain) ->
    loadChain w next (S n) path onChain.

(** The error is the circular-dependency error of a load under so many
    wrappers of the loads that led to it. *)
Fixpoint circularDepth (err : Error) : option nat :=
  match err with
  | ECircularFile _ => Some 0
  | ELoadBase _ e => option_map S (circularDepth e)
  | EInclude _ e => option_map S (circularDepth e)
  | _ => None
  end.

(** Two files that include each other through inline lists. *)
Definition includeFiles_inline : list (string * list string) :=
  [("a.up", ["deps!include [b.up]"; "name a"]);
   ("b.up", ["deps!include [a.up]"; "name b"])].


(* ===================================================================== *)
(** * Properties of the string functions *)
(* ===================================================================== *)

Lemma append_empty_r (s : string) : s +:+ EmptyString = s.
Proof. induction s; simpl; congruence. Qed.

Lemma append_assoc (a b c : string) : (a +:+ b) +:+ c = a +:+ (b +:+ c).
Proof. induction a; simpl; congruence. Qed.

Lemma len_append (a b : string) : len (a +:+ b) = len a + len b.
Proof. unfold len. induction a; simpl; congruence. Qed.

Lemma take_drop_str (n : nat) (s : string) : take_str n s +:+ drop_str n s = s.
Proof.
  revert s. induction n as [|n IH]; intros [|c r]; simpl; try reflexivity.
  now rewrite IH.
Qed.

Lemma len_take_str (n : nat) (s : string) : n <= len s -> len (take_str n s) = n.
Proof.
  unfold len. revert s. induction n as [|n IH]; intros [|c r]; simpl; intros H;
    try reflexivity; try lia.
  rewrite IH; lia.
Qed.

Lemma len_drop_str (n : nat) (s : string) : len (drop_str n s) = len s - n.
Proof.
  unfold len. revert s. induction n as [|n IH]; intros [|c r]; simpl;
    try reflexivity; try lia.
  apply IH.
Qed.

Lemma drop_str_0 (s : string) : drop_str 0 s = s.
Proof. now destruct s. Qed.

Lemma Split_nonempty (s : string) (c : ascii) : Split s c <> [].
Proof.
  destruct s as [|d r]; simpl; [discriminate|].
  destruct (Ascii.eqb d c); [discriminate|].
  destruct (Split r c); discriminate.
Qed.

Lemma Split_without_sep (s : string) (c : ascii) :
  byteIn c s = false -> Split s c = [s].
Proof.
  induction s as [|d r IH]; simpl; intros H; [reflexivity|].
  apply orb_false_iff in H as [Hd Hr].
  rewrite Hd, (IH Hr). reflexivity.
Qed.

Lemma Split_cons_piece (l : string) (c : ascii) (rest : string) :
  byteIn c l = false ->
  Split (l +:+ String c rest) c = l :: Split rest c.
Proof.
  induction l as [|d r IH]; simpl; intros H.
  - now rewrite Ascii.eqb_refl.
  - apply orb_false_iff in H as [Hd Hr].
    rewrite Hd, (IH Hr). reflexivity.
Qed.

(** Splitting undoes joining, for pieces free of the separator. *)
Lemma Split_Join (lines : list string) (c : ascii) :
  lines <> [] -> Forall (fun l => byteIn c l = false) lines ->
  Split (Join lines (String c EmptyString)) c = lines.
Proof.
  induction lines as [|l ls IH]; intros Hne Hall; [congruence|].
  inversion Hall as [|? ? Hl Hls]; subst.
  destruct ls as [|l2 ls'].
  - simpl. now apply Split_without_sep.
  - change (Join (l :: l2 :: ls') (String c EmptyString))
      with (l +:+ String c (Join (l2 :: ls') (String c EmptyString))).
    rewrite Split_cons_piece by assumption.
    f_equal. apply IH; [discriminate | assumption].
Qed.

(** Joining undoes splitting. *)
Lemma Join_Split (s : string) (c : ascii) :
  Join (Split s c) (String c EmptyString) = s.
Proof.
  induction s as [|d r IH]; simpl; [reflexivity|].
  destruct (Ascii.eqb_spec d c) as [->|Hne].
  - pose proof (Split_nonempty r c) as Hn.
    destruct (Split r c) as [|h t] eqn:E; [congruence|].
    change (Join (EmptyString :: h :: t) (String c EmptyString))
      with (String c (Join (h :: t) (String c EmptyString))).
    now rewrite IH.
  - pose proof (Split_nonempty r c) as Hn.
    destruct (Split r c) as [|h t] eqn:E; [congruence|].
    destruct t as [|h2 t'].
    + simpl in *. now rewrite IH.
    + change (Join (String d h :: h2 :: t') (String c EmptyString))
        with (String d (Join (h :: h2 :: t') (String c EmptyString))).
      now rewrite IH.
Qed.

Lemma byteIn_repeatByte (c d : ascii) (n : nat) :
  c <> d -> byteIn c (repeatByte d n) = false.
Proof.
  intros Hne. induction n as [|n IH]; simpl; [reflexivity|].
  rewrite IH, orb_false_r. apply Ascii.eqb_neq. congruence.
Qed.

Lemma len_repeatByte (c : ascii) (n : nat) : len (repeatByte c n) = n.
Proof. unfold len. induction n; simpl; congruence. Qed.

(* ===================================================================== *)
(** * Multiline dedent *)
(* ===================================================================== *)

Lemma dedentLine_nonneg (n : Z) (line : string) :
  (0 <= n)%Z -> dedentLine n line = Some (dedentOne n line).
Proof.
  intros Hn. unfold dedentLine, dedentOne.
  destruct (n <=? Z.of_nat (len line))%Z; [|reflexivity].
  destruct (Z.ltb_spec n 0); [lia | reflexivity].
Qed.

Lemma dedentLine_negative (n : Z) (line : string) :
  (n < 0)%Z -> dedentLine n line = None.
Proof.
  intros Hn. unfold dedentLine.
  destruct (Z.leb_spec n (Z.of_nat (len line))); [|lia].
  destruct (Z.ltb_spec n 0); [reflexivity | lia].
Qed.

Lemma dedentOne_dedented (n : Z) (line : string) :
  (0 <= n)%Z -> dedented (Z.to_nat n) line (dedentOne n line).
Proof.
  intros Hn. unfold dedentOne, dedented.
  destruct (Z.leb_spec n (Z.of_nat (len line))) as [Hle|Hgt].
  - left. split; [lia|]. exists (take_str (Z.to_nat n) line). split.
    + apply len_take_str. lia.
    + symmetry. apply take_drop_str.
  - right. split; [lia | reflexivity].
Qed.

Lemma dedentLines_nonneg (text : string) (n : Z) :
  (0 <= n)%Z ->
  dedentLines text n
  = Some (Join (List.map (dedentOne n) (Split text (ascii_of_nat 10))) newline).
Proof.
  intros Hn. unfold dedentLines.
  assert (H : mapM (dedentLine n) (Split text (ascii_of_nat 10))
              = Some (List.map (dedentOne n) (Split text (ascii_of_nat 10)))).
  { apply mapM_Some. induction (Split text (ascii_of_nat 10)) as [|l ls IH]; simpl.
    - constructor.
    - constructor; [now apply dedentLine_nonneg | exact IH]. }
  now rewrite H.
Qed.

(** A negative count makes the slice expression [line[n:]] panic, on every
    text: there is always a first line. *)
Lemma dedentLines_negative (text : string) (n : Z) :
  (n < 0)%Z -> dedentLines text n = None.
Proof.
  intros Hn. unfold dedentLines.
  pose proof (Split_nonempty text (ascii_of_nat 10)) as Hne.
  destruct (Split text (ascii_of_nat 10)) as [|l ls]; [congruence|].
  simpl. rewrite dedentLine_negative by assumption. reflexivity.
Qed.

Lemma dedentLines_zero (text : string) : dedentLines text 0 = Some text.
Proof.
  rewrite dedentLines_nonneg by lia.
  assert (H : List.map (dedentOne 0) (Split text (ascii_of_nat 10))
              = Split text (ascii_of_nat 10)).
  { induction (Split text (ascii_of_nat 10)) as [|l ls IH]; simpl; [reflexivity|].
    rewrite IH. f_equal. unfold dedentOne.
    destruct (0 <=? Z.of_nat (len l))%Z; [apply drop_str_0 | reflexivity]. }
  rewrite H. unfold newline. now rewrite Join_Split.
Qed.

(** For a count of at least one, the line of [2n] letters loses [n] of
    them at the first application and the other [n] at the second. *)
Lemma dedentLines_twice_differs (n : Z) :
  (1 <= n)%Z ->
  let text := repeatByte "a"%char (Z.to_nat n + Z.to_nat n) in
  dedentLines text n = Some (repeatByte "a"%char (Z.to_nat n))
  /\ dedentLines (repeatByte "a"%char (Z.to_nat n)) n = Some EmptyString.
Proof.
  intros Hn text.
  assert (Hdrop : forall k m, drop_str k (repeatByte "a"%char (k + m)) = repeatByte "a"%char m).
  { induction k as [|k IH]; intros m; simpl; [apply drop_str_0 | apply IH]. }
  assert (Hnl : forall k, byteIn (ascii_of_nat 10) (repeatByte "a"%char k) = false).
  { intros k. apply byteIn_repeatByte. discriminate. }
  split.
  - rewrite dedentLines_nonneg by lia. unfold text.
    rewrite Split_without_sep by apply Hnl. simpl List.map.
    unfold dedentOne. rewrite len_repeatByte.
    destruct (Z.leb_spec n (Z.of_nat (Z.to_nat n + Z.to_nat n))); [|lia].
    now rewrite Hdrop.
  - rewrite dedentLines_nonneg by lia.
    rewrite Split_without_sep by apply Hnl. simpl List.map.
    unfold dedentOne. rewrite len_repeatByte.
    destruct (Z.leb_spec n (Z.of_nat (Z.to_nat n))); [|lia].
    replace (Z.to_nat n) with (Z.to_nat n + 0) at 2 by lia.
    now rewrite Hdrop.
Qed.

(** C8. For a count [n >= 0], [dedentLines] never panics; on the text made
    of the lines [lines] it yields, line by line, the line without its
    first [n] bytes when the line has at least [n] bytes and the line
    itself when it is shorter; it is idempotent as a function of the text
    exactly when [n = 0], and for [n >= 1] there is a text that a second
    application changes. *)
Theorem dedentLines_per_line_and_idempotence (n : Z) (Hn : (0 <= n)%Z) :
  (forall text, exists r, dedentLines text n = Some r)
  /\ (forall lines, lines <> [] ->
        Forall (fun l => byteIn (ascii_of_nat 10) l = false) lines ->
        exists outs, dedentLines (Join lines newline) n = Some (Join outs newline)
                     /\ Forall2 (dedented (Z.to_nat n)) lines outs)
  /\ ((forall text, exists r, dedentLines text n = Some r /\ dedentLines r n = Some r)
      <-> n = 0%Z)
  /\ ((1 <= n)%Z ->
      exists text r1 r2, dedentLines text n = Some r1 /\ dedentLines r1 n = Some r2
                         /\ r2 <> r1).
Proof.
  assert (Hchanged : (1 <= n)%Z ->
            exists text r1 r2, dedentLines text n = Some r1
                               /\ dedentLines r1 n = Some r2 /\ r2 <> r1).
  { intros H1. destruct (dedentLines_twice_differs n H1) as [Ha Hb].
    eexists _, _, _. split; [exact Ha|]. split; [exact Hb|].
    intros Heq. apply (f_equal len) in Heq. rewrite len_repeatByte in Heq.
    simpl in Heq. lia. }
  split; [|split; [|split]].
  - intros text. eexists. now apply dedentLines_nonneg.
  - intros lines Hne Hall.
    exists (List.map (dedentOne n) lines). split.
    + rewrite dedentLines_nonneg by assumption. unfold newline.
      now rewrite Split_Join.
    + clear Hne Hall. induction lines as [|l ls IH]; simpl; constructor.
      * now apply dedentOne_dedented.
      * exact IH.
  - split.
    + intros Hidem. destruct (Z.eq_dec n 0%Z) as [|Hne]; [assumption|].
      destruct Hchanged as (text & r1 & r2 & H1 & H2 & Hdiff); [lia|].
      destruct (Hidem text) as (r & Hr1 & Hr2).
      rewrite H1 in Hr1. injection Hr1 as <-. rewrite H2 in Hr2.
      injection Hr2 as Heq. contradiction.
    + intros ->. intros text. exists text.
      split; apply dedentLines_zero.
  - exact Hchanged.
Qed.

Lemma dedentLines_per_line_and_idempotence_witness :
  (0 <= 4)%Z
  /\ exists outs,
       dedentLines (Join ["    line1"; "  x"; "    line3"] newline) 4
       = Some (Join outs newline)
       /\ Forall2 (dedented 4) ["    line1"; "  x"; "    line3"] outs.
Proof.
  split; [lia|].
  destruct (dedentLines_per_line_and_idempotence 4 ltac:(lia)) as (_ & H & _).
  apply H; [discriminate|].
  repeat constructor.
Defined.

(** ** [TrimSpace] is idempotent *)

Lemma TrimLeftSpace_fixed (s : string) : startsWithSpace s = false -> TrimLeftSpace s = s.
Proof.
  destruct s as [|c1 [|c2 [|c3 r3]]]; simpl; intros H; try reflexivity.
  - apply orb_false_iff in H as [-> _]. reflexivity.
  - apply orb_false_iff in H as [-> H]. apply orb_false_iff in H as [-> _]. reflexivity.
  - apply orb_false_iff in H as [-> H]. apply orb_false_iff in H as [-> ->]. reflexivity.
Qed.

Lemma trimLeftSpaceRev_fixed (s : string) :
  startsWithSpaceRev s = false -> trimLeftSpaceRev s = s.
Proof.
  destruct s as [|c1 [|c2 [|c3 r3]]]; simpl; intros H; try reflexivity.
  - apply orb_false_iff in H as [-> _]. reflexivity.
  - apply orb_false_iff in H as [-> H]. apply orb_false_iff in H as [-> _]. reflexivity.
  - apply orb_false_iff in H as [-> H]. apply orb_false_iff in H as [-> ->]. reflexivity.
Qed.

(** What is left after trimming is a suffix that does not begin with a space. *)
Lemma TrimLeftSpace_spec (s : string) :
  exists pre, s = pre +:+ TrimLeftSpace s /\ startsWithSpace (TrimLeftSpace s) = false.
Proof.
  remember (len s) as n eqn:Hn.
  revert s Hn. induction n as [n IH] using lt_wf_ind. intros s Hn.
  destruct s as [|c1 r1]; [exists EmptyString; now split|].
  simpl TrimLeftSpace. destruct (isAsciiSpace c1) eqn:E1.
  { destruct (IH (len r1) ltac:(subst; unfold len; simpl; lia) r1 eq_refl) as (pre & Hp & Hs).
    exists (String c1 pre). split; [simpl; now rewrite <- Hp | exact Hs]. }
  destruct r1 as [|c2 r2].
  { exists EmptyString. split; [reflexivity|]. simpl. now rewrite E1. }
  destruct (isSpace2 c1 c2) eqn:E2.
  { destruct (IH (len r2) ltac:(subst; unfold len; simpl; lia) r2 eq_refl) as (pre & Hp & Hs).
    exists (String c1 (String c2 pre)). split; [simpl; now rewrite <- Hp | exact Hs]. }
  destruct r2 as [|c3 r3].
  { exists EmptyString. split; [reflexivity|]. simpl. now rewrite E1, E2. }
  destruct (isSpace3 c1 c2 c3) eqn:E3.
  { destruct (IH (len r3) ltac:(subst; unfold len; simpl; lia) r3 eq_refl) as (pre & Hp & Hs).
    exists (String c1 (String c2 (String c3 pre))).
    split; [simpl; now rewrite <- Hp | exact Hs]. }
  exists EmptyString. split; [reflexivity|]. simpl. now rewrite E1, E2, E3.
Qed.

Lemma trimLeftSpaceRev_spec (s : string) :
  exists pre, s = pre +:+ trimLeftSpaceRev s
              /\ startsWithSpaceRev (trimLeftSpaceRev s) = false.
Proof.
  remember (len s) as n eqn:Hn.
  revert s Hn. induction n as [n IH] using lt_wf_ind. intros s Hn.
  destruct s as [|c1 r1]; [exists EmptyString; now split|].
  simpl trimLeftSpaceRev. destruct (isAsciiSpace c1) eqn:E1.
  { destruct (IH (len r1) ltac:(subst; unfold len; simpl; lia) r1 eq_refl) as (pre & Hp & Hs).
    exists (String c1 pre). split; [simpl; now rewrite <- Hp | exact Hs]. }
  destruct r1 as [|c2 r2].
  { exists EmptyString. split; [reflexivity|]. simpl. now rewrite E1. }
  destruct (isSpace2 c2 c1) eqn:E2.
  { destruct (IH (len r2) ltac:(subst; unfold len; simpl; lia) r2 eq_refl) as (pre & Hp & Hs).
    exists (String c1 (String c2 pre)). split; [simpl; now rewrite <- Hp | exact Hs]. }
  destruct r2 as [|c3 r3].
  { exists EmptyString. split; [reflexivity|]. simpl. now rewrite E1, E2. }
  destruct (isSpace3 c3 c2 c1) eqn:E3.
  { destruct (IH (len r3) ltac:(subst; unfold len; simpl; lia) r3 eq_refl) as (pre & Hp & Hs).
    exists (String c1 (String c2 (String c3 pre))).
    split; [simpl; now rewrite <- Hp | exact Hs]. }
  exists EmptyString. split; [reflexivity|]. simpl. now rewrite E1, E2, E3.
Qed.

Lemma rev_onto_append (s acc : string) : rev_onto s acc = rev_str s +:+ acc.
Proof.
  unfold rev_str. revert acc. induction s as [|c r IH]; intros acc; simpl; [reflexivity|].
  rewrite (IH (String c acc)), (IH (String c EmptyString)), append_assoc. reflexivity.
Qed.

Lemma rev_str_append (a b : string) : rev_str (a +:+ b) = rev_str b +:+ rev_str a.
Proof.
  induction a as [|c r IH]; simpl.
  - now rewrite append_empty_r.
  - unfold rev_str at 1 3. simpl. rewrite !rev_onto_append, IH, append_assoc. reflexivity.
Qed.

Lemma rev_str_involutive (s : string) : rev_str (rev_str s) = s.
Proof.
  induction s as [|c r IH]; [reflexivity|].
  unfold rev_str at 2. simpl. rewrite rev_onto_append, rev_str_append, IH. reflexivity.
Qed.

(** A prefix long enough to show it begins with a space shows it for the
    whole string. *)
Lemma startsWithSpace_prefix (p rest : string) :
  startsWithSpace p = true -> startsWithSpace (p +:+ rest) = true.
Proof.
  destruct p as [|c1 [|c2 [|c3 r3]]]; simpl; intros H; try discriminate.
  - rewrite orb_false_r in H. now rewrite H.
  - destruct (isAsciiSpace c1); [reflexivity|]. simpl in *.
    rewrite orb_false_r in H. now rewrite H.
  - exact H.
Qed.

Lemma TrimRightSpace_prefix (s : string) : exists suf, s = TrimRightSpace s +:+ suf.
Proof.
  unfold TrimRightSpace.
  destruct (trimLeftSpaceRev_spec (rev_str s)) as (pre & Hp & _).
  exists (rev_str pre).
  rewrite <- rev_str_append, <- Hp. symmetry. apply rev_str_involutive.
Qed.

Lemma TrimRightSpace_idempotent (s : string) :
  TrimRightSpace (TrimRightSpace s) = TrimRightSpace s.
Proof.
  unfold TrimRightSpace. rewrite rev_str_involutive.
  destruct (trimLeftSpaceRev_spec (rev_str s)) as (_ & _ & Hs).
  now rewrite (trimLeftSpaceRev_fixed _ Hs).
Qed.

Lemma TrimSpace_idempotent (s : string) : TrimSpace (TrimSpace s) = TrimSpace s.
Proof.
  unfold TrimSpace.
  destruct (TrimLeftSpace_spec s) as (_ & _ & Hs).
  assert (Hfix : TrimLeftSpace (TrimRightSpace (TrimLeftSpace s))
                 = TrimRightSpace (TrimLeftSpace s)).
  { apply TrimLeftSpace_fixed.
    destruct (startsWithSpace (TrimRightSpace (TrimLeftSpace s))) eqn:E; [|reflexivity].
    destruct (TrimRightSpace_prefix (TrimLeftSpace s)) as (suf & Hsuf).
    rewrite Hsuf in Hs. rewrite (startsWithSpace_prefix _ suf E) in Hs. discriminate. }
  rewrite Hfix. apply TrimRightSpace_idempotent.
Qed.

Lemma splitKeyValue_TrimSpace (line : string) :
  splitKeyValue (TrimSpace line) = splitKeyValue line.
Proof. unfold splitKeyValue. now rewrite TrimSpace_idempotent. Qed.

(* ===================================================================== *)
(** * Splitting a line into key and value *)
(* ===================================================================== *)

Lemma Index_byte_none (c : ascii) (s : string) :
  byteIn c s = false -> Index s (String c EmptyString) = None.
Proof.
  induction s as [|d r IH]; simpl; intros H; [reflexivity|].
  apply orb_false_iff in H as [Hd Hr].
  rewrite Hd. simpl. now rewrite (IH Hr).
Qed.

Lemma Index_byte_first (c : ascii) (a b : string) :
  byteIn c a = false -> Index (a +:+ String c b) (String c EmptyString) = Some (len a).
Proof.
  induction a as [|d r IH]; simpl; intros H.
  - now rewrite Ascii.eqb_refl.
  - apply orb_false_iff in H as [Hd Hr].
    rewrite Hd. simpl. now rewrite (IH Hr).
Qed.

Lemma take_str_append (a b : string) : take_str (len a) (a +:+ b) = a.
Proof. induction a as [|d r IH]; simpl; [now destruct b | now rewrite IH]. Qed.



Lemma splitKeyValue_lineOriented_value (line : string) :
  snd (splitKeyValue line) = true ->
  snd (fst (splitKeyValue line))
  = stripSurroundingQuotes
      (match Index (rawValue line) "#" with
       | Some commentIdx => TrimSpace (take_str commentIdx (rawValue line))
       | None => rawValue line
       end).
Proof.
  unfold splitKeyValue, rawValue.
  destruct (HasSuffix _ ":" && negb (Contains _ "://")).
  - intros _. simpl. destruct (_ <? _)%nat; reflexivity.
  - destruct (_ <? _)%nat; discriminate.
Qed.

(** C6, as the code has it. On a line-oriented line the raw value is cut
    at its first ['#'] wherever that stands, between double quotes or not:
    a raw value without ['#'] is kept whole, and of a raw value made of
    [a], a ['#'] and [b], with no ['#'] in [a], only [a] is kept and trimmed;
    then one layer of surrounding double quotes is stripped. *)
Theorem lineOriented_value_cut_at_first_hash (line : string)
    (Hmode : snd (splitKeyValue line) = true) :
  (byteIn "#"%char (rawValue line) = false ->
   snd (fst (splitKeyValue line)) = stripSurroundingQuotes (rawValue line))
  /\ (forall a b, rawValue line = a +:+ String "#"%char b -> byteIn "#"%char a = false ->
                  snd (fst (splitKeyValue line)) = stripSurroundingQuotes (TrimSpace a)).
Proof.
  rewrite (splitKeyValue_lineOriented_value line Hmode). split.
  - intros Hno. now rewrite (Index_byte_none _ _ Hno).
  - intros a b Hraw Ha. rewrite Hraw, (Index_byte_first _ a b Ha).
    now rewrite take_str_append.
Qed.

Lemma lineOriented_value_cut_at_first_hash_witness :
  snd (splitKeyValue ("title: " +:+ dquote +:+ "a # b" +:+ dquote)) = true
  /\ snd (fst (splitKeyValue ("title: " +:+ dquote +:+ "a # b" +:+ dquote)))
     = stripSurroundingQuotes (TrimSpace (dquote +:+ "a ")).
Proof.
  split; [reflexivity|].
  refine (proj2 (lineOriented_value_cut_at_first_hash
                   ("title: " +:+ dquote +:+ "a # b" +:+ dquote) eq_refl)
                (dquote +:+ "a ") (" b" +:+ dquote) eq_refl eq_refl).
Defined.

(** C6 as the specification words it fails: in the line whose value is
    [a # b] between double quotes the ['#'] is a quoted one, so the value
    should be [a # b]; the code cuts there all the same and returns the
    opening quote followed by [a]. *)
Lemma lineOriented_quoted_hash_is_cut :
  let line := "title: " +:+ dquote +:+ "a # b" +:+ dquote in
  snd (splitKeyValue line) = true
  /\ specLineOrientedValue (rawValue line) = "a # b"
  /\ snd (fst (splitKeyValue line)) = dquote +:+ "a"
  /\ snd (fst (splitKeyValue line)) <> specLineOrientedValue (rawValue line).
Proof.
  intros line. repeat split; try reflexivity.
  vm_compute. discriminate.
Qed.

(* ===================================================================== *)
(** * The parser returns

    Every loop of the parser ends at the end of input as it does at its
    closing line, and no parsing function below the directive parsers
    builds an error.  What can stop a parse is the panic of [dedentLines]
    on a negative count. *)
(* ===================================================================== *)

Lemma NextLine_nil (sc : Scanner) :
  pending sc = [] -> NextLine sc = (lineNum sc, EmptyString, false, sc).
Proof. unfold NextLine. now intros ->. Qed.

Lemma NextLine_cons (sc : Scanner) (l : string) (rest : list string) :
  pending sc = l :: rest ->
  NextLine sc = (S (lineNum sc), l, true, mkScanner rest (S (lineNum sc)) (readErr sc)).
Proof. unfold NextLine. now intros ->. Qed.

Lemma advanced_refl (sc : Scanner) : advanced sc sc.
Proof. split; [exists []; simpl; split; [reflexivity | lia] | reflexivity]. Qed.

Lemma advanced_trans (a b c : Scanner) : advanced a b -> advanced b c -> advanced a c.
Proof.
  intros [(r1 & H1 & L1) E1] [(r2 & H2 & L2) E2]. split; [|congruence].
  exists (r1 ++ r2). rewrite H1, H2, <- List.app_assoc. split; [reflexivity|].
  rewrite List.length_app. lia.
Qed.

Lemma advanced_next (sc : Scanner) (l : string) (rest : list string) :
  pending sc = l :: rest ->
  advanced sc (mkScanner rest (S (lineNum sc)) (readErr sc)).
Proof.
  intros H. split; [|reflexivity]. exists [l]. simpl. split; [exact H | lia].
Qed.

Lemma advanced_length (sc sc' : Scanner) :
  advanced sc sc' -> List.length (pending sc') <= List.length (pending sc).
Proof. intros [(r & H & _) _]. rewrite H, List.length_app. lia. Qed.

Lemma advanced_Forall (P : string -> Prop) (sc sc' : Scanner) :
  advanced sc sc' -> Forall P (pending sc) -> Forall P (pending sc').
Proof.
  intros [(r & H & _) _] HF. rewrite H in HF. now apply Forall_app in HF as [_ ?].
Qed.

Lemma parseInlineList_ok (line : string) :
  parseInlineList line = Ok (List.map VString (inlineItems line)).
Proof.
  unfold parseInlineList, inlineItems.
  destruct (String.eqb _ EmptyString); [reflexivity|].
  now rewrite List.map_map.
Qed.

Lemma parseInlineBlock_ok (s : string) : exists block, parseInlineBlock s = Ok block.
Proof. unfold parseInlineBlock. destruct (String.eqb _ EmptyString); eauto. Qed.

Lemma parseMultilineLoop_total (fuel : nat) :
  forall sc content, List.length (pending sc) < fuel ->
    returnsAdvanced sc (parseMultilineLoop fuel sc content).
Proof.
  induction fuel as [|fuel IH]; intros sc content Hlen; [lia|].
  cbn [parseMultilineLoop parseBlockOfLists parseTable].
  destruct (pending sc) as [|l rest] eqn:E.
  - rewrite (NextLine_nil sc E). run. eexists _, _. split; [reflexivity | apply advanced_refl].
  - rewrite (NextLine_cons sc l rest E). run.
    pose proof (advanced_next sc l rest E) as Hadv.
    destruct (String.eqb (TrimSpace l) "```").
    + eexists _, _. split; [reflexivity | exact Hadv].
    + destruct (IH (mkScanner rest (S (lineNum sc)) (readErr sc)) (content ++ [l]))
        as (c & sc' & Hc & Hadv'); [simpl in *; lia|].
      exists c, sc'. split; [exact Hc | eapply advanced_trans; eauto].
Qed.

Lemma parseBlockOfLists_total (p : Parser) (fuel : nat) :
  forall sc rows, List.length (pending sc) < fuel ->
    returnsAdvanced sc (parseBlockOfLists p fuel sc rows).
Proof.
  induction fuel as [|fuel IH]; intros sc rows Hlen; [lia|].
  cbn [parseMultilineLoop parseBlockOfLists parseTable].
  destruct (pending sc) as [|l rest] eqn:E.
  - rewrite (NextLine_nil sc E). run. eexists _, _. split; [reflexivity | apply advanced_refl].
  - rewrite (NextLine_cons sc l rest E). run.
    pose proof (advanced_next sc l rest E) as Hadv.
    assert (Hnext : forall rows',
               returnsAdvanced sc
                 (parseBlockOfLists p fuel (mkScanner rest (S (lineNum sc)) (readErr sc)) rows')).
    { intros rows'.
      destruct (IH (mkScanner rest (S (lineNum sc)) (readErr sc)) rows')
        as (c & sc' & Hc & Hadv'); [simpl in *; lia|].
      exists c, sc'. split; [exact Hc | eapply advanced_trans; eauto]. }
    destruct (String.eqb (TrimSpace l) "}").
    { eexists _, _. split; [reflexivity | exact Hadv]. }
    destruct (skipEmptyLine p (TrimSpace l) || skipComment p (TrimSpace l)); [apply Hnext|].
    destruct (HasPrefix (TrimSpace l) "["); [|apply Hnext].
    rewrite parseInlineList_ok. run. apply Hnext.
Qed.

Lemma parseTable_total (p : Parser) (fuel : nat) :
  forall sc table, List.length (pending sc) < fuel ->
    returnsAdvanced sc (parseTable p fuel sc table).
Proof.
  induction fuel as [|fuel IH]; intros sc table Hlen; [lia|].
  cbn [parseMultilineLoop parseBlockOfLists parseTable].
  destruct (pending sc) as [|l rest] eqn:E.
  - rewrite (NextLine_nil sc E). run. eexists _, _. split; [reflexivity | apply advanced_refl].
  - rewrite (NextLine_cons sc l rest E). run.
    pose proof (advanced_next sc l rest E) as Hadv.
    set (sc1 := mkScanner rest (S (lineNum sc)) (readErr sc)) in *.
    assert (Hnext : forall sc2 table',
               advanced sc1 sc2 -> returnsAdvanced sc (parseTable p fuel sc2 table')).
    { intros sc2 table' H12.
      destruct (IH sc2 table') as (c & sc' & Hc & Hadv').
      { pose proof (advanced_length _ _ H12). simpl in *. lia. }
      exists c, sc'. split; [exact Hc|].
      eapply advanced_trans; [exact Hadv|]. eapply advanced_trans; eauto. }
    destruct (String.eqb (TrimSpace l) "}").
    { eexists _, _. split; [reflexivity | exact Hadv]. }
    destruct (skipEmptyLine p (TrimSpace l) || skipComment p (TrimSpace l));
      [apply Hnext, advanced_refl|].
    destruct (HasPrefix (TrimSpace l) "columns").
    { rewrite parseInlineList_ok. run. apply Hnext, advanced_refl. }
    destruct (HasPrefix (TrimSpace l) "rows"); [|apply Hnext, advanced_refl].
    destruct (parseBlockOfLists_total p fuel sc1 []) as (rows & sc2 & Hr & H12);
      [simpl in *; lia|].
    rewrite Hr. run. now apply Hnext.
Qed.

Lemma negativeDedent_safe (line : string) :
  negativeDedent line = false ->
  HasPrefix (lineValPart line) "```" = true -> dedentIsSafe (lineType line) = true.
Proof.
  unfold negativeDedent, lineValPart, lineType, dedentIsSafe.
  destruct (splitKeyValue line) as [[keyPart valPart] lo]. cbn [fst snd].
  destruct (parseKeyAndType keyPart) as [key ty]. cbn [fst snd].
  intros H Hp. rewrite Hp in H. cbn [andb] in H.
  destruct (Atoi ty); [now rewrite H | reflexivity].
Qed.

Lemma parseMultiline_total (fuel : nat) (sc : Scanner) (node : Node) (line : string) :
  List.length (pending sc) < fuel -> dedentIsSafe (Typ node) = true ->
  returnsAdvanced sc (parseMultiline NewParser fuel sc node line).
Proof.
  intros Hlen Hsafe. unfold parseMultiline.
  destruct (parseMultilineLoop_total fuel sc [] Hlen) as (content & sc' & Hc & Hadv).
  rewrite Hc. run.
  destruct (negb (String.eqb (Typ node) EmptyString));
    [|eexists _, _; split; [reflexivity | exact Hadv]].
  unfold dedentIsSafe in Hsafe.
  destruct (Atoi (Typ node)) as [dedent|];
    [|eexists _, _; split; [reflexivity | exact Hadv]].
  cbn [dedentFunc NewParser].
  rewrite dedentLines_nonneg by (apply negb_true_iff, Z.ltb_ge in Hsafe; exact Hsafe).
  eexists _, _; split; [reflexivity | exact Hadv].
Qed.

Section DispatchReturns.
Variable fuel : nat.
Variable parseBlock : Scanner -> Outcome (Block * Scanner).
Variable parseList : Scanner -> Outcome (list Value * Scanner).
Variable sc : Scanner.
Hypothesis Hlen : List.length (pending sc) < fuel.
Hypothesis HparseBlock : returnsAdvanced sc (parseBlock sc).
Hypothesis HparseList : returnsAdvanced sc (parseList sc).

Lemma parseValue_total (node : Node) (valPart : string) (lineOriented : bool) :
  (HasPrefix valPart "```" = true -> dedentIsSafe (Typ node) = true) ->
  returnsAdvanced sc (parseValue NewParser fuel parseBlock parseList sc node valPart
                                 lineOriented).
Proof.
  intros Hsafe. unfold parseValue.
  destruct (HasPrefix valPart "```").
  { destruct (parseMultiline_total fuel sc node valPart Hlen (Hsafe eq_refl))
      as (text & sc' & Ht & Hadv).
    rewrite Ht. run. eexists _, _; split; [reflexivity | exact Hadv]. }
  destruct (String.eqb valPart "{").
  { destruct HparseBlock as (b & sc' & Hb & Hadv).
    rewrite Hb. run. eexists _, _; split; [reflexivity | exact Hadv]. }
  destruct (String.eqb valPart "[").
  { destruct HparseList as (l & sc' & Hl & Hadv).
    rewrite Hl. run. eexists _, _; split; [reflexivity | exact Hadv]. }
  destruct (HasPrefix valPart "[" && HasSuffix valPart "]").
  { rewrite parseInlineList_ok. run.
    eexists _, _; split; [reflexivity | apply advanced_refl]. }
  destruct (HasPrefix valPart "{" && Contains valPart "}").
  { destruct (parseInlineBlock_ok valPart) as (b & Hb).
    rewrite Hb. run. eexists _, _; split; [reflexivity | apply advanced_refl]. }
  destruct (String.eqb (Typ node) "table" && HasPrefix valPart "{").
  { destruct (parseTable_total NewParser fuel sc [] Hlen) as (t & sc' & Ht & Hadv).
    rewrite Ht. run. eexists _, _; split; [reflexivity | exact Hadv]. }
  eexists _, _; split; [reflexivity | apply advanced_refl].
Qed.

Lemma parseLine_total (line : string) :
  negativeDedent line = false ->
  returnsAdvanced sc (parseLine NewParser fuel parseBlock parseList sc line).
Proof.
  intros Hsafe. pose proof (negativeDedent_safe line Hsafe) as Hs.
  unfold parseLine, lineValPart, lineType in *.
  destruct (splitKeyValue line) as [[keyPart valPart] lo]. cbn [fst snd] in Hs.
  destruct (parseKeyAndType keyPart) as [key ty]. cbn [fst snd] in Hs.
  destruct (String.eqb ty "quoted").
  { eexists _, _; split; [reflexivity | apply advanced_refl]. }
  destruct (parseValue_total (mkNode key ty (VString EmptyString)) valPart lo Hs)
    as (v & sc' & Hv & Hadv).
  rewrite Hv. run. eexists _, _; split; [reflexivity | exact Hadv].
Qed.

Lemma parseListItem_total (line : string) :
  returnsAdvanced sc (parseListItem parseBlock sc line).
Proof.
  unfold parseListItem.
  destruct (HasPrefix line "{").
  { destruct HparseBlock as (b & sc' & Hb & Hadv).
    rewrite Hb. run. eexists _, _; split; [reflexivity | exact Hadv]. }
  destruct (HasPrefix line "[").
  { rewrite parseInlineList_ok. run.
    eexists _, _; split; [reflexivity | apply advanced_refl]. }
  eexists _, _; split; [reflexivity | apply advanced_refl].
Qed.
End DispatchReturns.

Lemma negativeDedent_TrimSpace (line : string) :
  negativeDedent (TrimSpace line) = negativeDedent line.
Proof. unfold negativeDedent. now rewrite splitKeyValue_TrimSpace. Qed.

(** The two loops that call each other return, on any input without a
    negative dedent, with fuel above the number of lines left. *)
Lemma parseBlock_parseList_total (fuel : nat) :
  forall sc, List.length (pending sc) < fuel ->
    Forall (fun l => negativeDedent l = false) (pending sc) ->
    (forall block, returnsAdvanced sc (parseBlockLoop NewParser fuel sc block))
    /\ (forall lst, returnsAdvanced sc (parseListLoop NewParser fuel sc lst)).
Proof.
  induction fuel as [|fuel IH]; intros sc Hlen Hsafe; [lia|].
  destruct (pending sc) as [|l rest] eqn:E.
  { split; intros acc; cbn [parseBlockLoop parseListLoop];
      rewrite (NextLine_nil sc E); run;
      eexists _, _; (split; [reflexivity | apply advanced_refl]). }
  pose proof (advanced_next sc l rest E) as Hadv.
  set (sc1 := mkScanner rest (S (lineNum sc)) (readErr sc)) in *.
  inversion Hsafe as [|? ? Hl Hrest]; subst.
  assert (Hlen1 : List.length (pending sc1) < fuel) by (simpl in *; lia).
  assert (Hafter : forall sc2, advanced sc1 sc2 ->
            (forall block, returnsAdvanced sc (parseBlockLoop NewParser fuel sc2 block))
            /\ (forall lst, returnsAdvanced sc (parseListLoop NewParser fuel sc2 lst))).
  { intros sc2 H12.
    destruct (IH sc2) as [Hb Hl2].
    { pose proof (advanced_length _ _ H12). lia. }
    { eapply advanced_Forall; [exact H12 | exact Hrest]. }
    split; intros acc.
    - destruct (Hb acc) as (b & sc' & Hr & Hadv').
      exists b, sc'. split; [exact Hr|].
      eapply advanced_trans; [exact Hadv|]. eapply advanced_trans; eauto.
    - destruct (Hl2 acc) as (b & sc' & Hr & Hadv').
      exists b, sc'. split; [exact Hr|].
      eapply advanced_trans; [exact Hadv|]. eapply advanced_trans; eauto. }
  destruct (IH sc1 Hlen1 Hrest) as [Hblock1 Hlist1].
  split.
  - intros block. cbn [parseBlockLoop]. rewrite (NextLine_cons sc l rest E). run.
    fold sc1.
    destruct (String.eqb (TrimSpace l) "}").
    { eexists _, _; split; [reflexivity | exact Hadv]. }
    destruct (skipEmptyLine NewParser (TrimSpace l) || skipComment NewParser (TrimSpace l)).
    { apply (Hafter sc1 (advanced_refl sc1)). }
    destruct (parseLine_total fuel (fun s => parseBlockLoop NewParser fuel s [])
                (fun s => parseListLoop NewParser fuel s []) sc1 Hlen1
                (Hblock1 []) (Hlist1 []) (TrimSpace l))
      as (node & sc2 & Hn & H12).
    { now rewrite negativeDedent_TrimSpace. }
    rewrite Hn. run. apply (Hafter sc2 H12).
  - intros lst. cbn [parseListLoop]. rewrite (NextLine_cons sc l rest E). run.
    fold sc1.
    destruct (String.eqb (TrimSpace l) "]").
    { eexists _, _; split; [reflexivity | exact Hadv]. }
    destruct (skipEmptyLine NewParser (TrimSpace l) || skipComment NewParser (TrimSpace l)).
    { apply (Hafter sc1 (advanced_refl sc1)). }
    destruct (parseListItem_total (fun s => parseBlockLoop NewParser fuel s []) sc1
                (Hblock1 []) (TrimSpace l))
      as (item & sc2 & Hn & H12).
    rewrite Hn. run. apply (Hafter sc2 H12).
Qed.

Lemma parseBlock_total (fuel : nat) (sc : Scanner) :
  List.length (pending sc) < fuel ->
  Forall (fun l => negativeDedent l = false) (pending sc) ->
  returnsAdvanced sc (parseBlock NewParser fuel sc).
Proof. intros Hlen Hsafe. now apply parseBlock_parseList_total. Qed.

Lemma parseList_total (fuel : nat) (sc : Scanner) :
  List.length (pending sc) < fuel ->
  Forall (fun l => negativeDedent l = false) (pending sc) ->
  returnsAdvanced sc (parseList NewParser fuel sc).
Proof. intros Hlen Hsafe. now apply parseBlock_parseList_total. Qed.

(** The top-level loop ends only at the end of input. *)
Lemma parseNodesLoop_total (fuel : nat) :
  forall sc nodes, List.length (pending sc) < fuel ->
    Forall (fun l => negativeDedent l = false) (pending sc) ->
    Forall (fun l => isDirectiveLine l = false) (pending sc) ->
    exists ns sc', parseNodesLoop NewParser fuel sc nodes = Ok (ns, sc')
                   /\ advanced sc sc' /\ pending sc' = [].
Proof.
  induction fuel as [|fuel IH]; intros sc nodes Hlen Hsafe Hdir; [lia|].
  cbn [parseNodesLoop]. destruct (pending sc) as [|l rest] eqn:E.
  { rewrite (NextLine_nil sc E). run.
    eexists _, _. split; [reflexivity|]. split; [apply advanced_refl | exact E]. }
  rewrite (NextLine_cons sc l rest E). run.
  pose proof (advanced_next sc l rest E) as Hadv.
  set (sc1 := mkScanner rest (S (lineNum sc)) (readErr sc)) in *.
  inversion Hsafe as [|? ? Hl Hrest]; subst.
  inversion Hdir as [|? ? Hd Hdrest]; subst.
  assert (Hlen1 : List.length (pending sc1) < fuel) by (simpl in *; lia).
  assert (Hafter : forall sc2 nodes', advanced sc1 sc2 ->
            exists ns sc', parseNodesLoop NewParser fuel sc2 nodes' = Ok (ns, sc')
                           /\ advanced sc sc' /\ pending sc' = []).
  { intros sc2 nodes' H12.
    destruct (IH sc2 nodes') as (ns & sc' & Hr & Hadv' & Hend).
    { pose proof (advanced_length _ _ H12). lia. }
    { eapply advanced_Forall; [exact H12 | exact Hrest]. }
    { eapply advanced_Forall; [exact H12 | exact Hdrest]. }
    exists ns, sc'. split; [exact Hr|]. split; [|exact Hend].
    eapply advanced_trans; [exact Hadv|]. eapply advanced_trans; eauto. }
  destruct (skipEmptyLine NewParser l || skipComment NewParser l).
  { apply Hafter, advanced_refl. }
  unfold isDirectiveLine in Hd. apply orb_false_iff in Hd as [-> ->].
  destruct (parseLine_total fuel (parseBlock NewParser fuel) (parseList NewParser fuel)
              sc1 Hlen1 (parseBlock_total fuel sc1 Hlen1 Hrest)
              (parseList_total fuel sc1 Hlen1 Hrest) l Hl)
    as (node & sc2 & Hn & H12).
  rewrite Hn. run. now apply Hafter.
Qed.

(** Without directive lines and without a negative dedent annotation,
    [ParseDocument] returns a Document whatever the lines are, and the only
    error beside it is the reader's. *)
Lemma ParseDocument_total (lines : list string) (err : option Error) :
  Forall (fun l => negativeDedent l = false) lines ->
  Forall (fun l => isDirectiveLine l = false) lines ->
  exists doc, ParseDocument NewParser (mkReader lines err) = Ok (Some doc, err).
Proof.
  intros Hsafe Hdir. unfold ParseDocument, parseNodes. cbn [rdLines].
  destruct (parseNodesLoop_total (S (List.length lines)) (NewScanner (mkReader lines err)) [])
    as (ns & sc' & Hr & [_ Herr] & _); [simpl; lia | assumption | assumption |].
  rewrite Hr. exists (mkDocument ns). now rewrite Herr.
Qed.

(** ** Blocks, lists and fences that the input does not close *)

Lemma parseBlockLoop_unclosed (fuel : nat) :
  forall sc block, List.length (pending sc) < fuel ->
    Forall (fun l => negativeDedent l = false) (pending sc) ->
    Forall (fun l => TrimSpace l <> "}") (pending sc) ->
    exists b sc', parseBlockLoop NewParser fuel sc block = Ok (b, sc')
                  /\ advanced sc sc' /\ pending sc' = [].
Proof.
  induction fuel as [|fuel IH]; intros sc block Hlen Hsafe Hopen; [lia|].
  cbn [parseBlockLoop]. destruct (pending sc) as [|l rest] eqn:E.
  { rewrite (NextLine_nil sc E). run.
    eexists _, _. split; [reflexivity|]. split; [apply advanced_refl | exact E]. }
  rewrite (NextLine_cons sc l rest E). run.
  pose proof (advanced_next sc l rest E) as Hadv.
  set (sc1 := mkScanner rest (S (lineNum sc)) (readErr sc)) in *.
  inversion Hsafe as [|? ? Hl Hrest]; subst.
  inversion Hopen as [|? ? Ho Horest]; subst.
  assert (Hlen1 : List.length (pending sc1) < fuel) by (simpl in *; lia).
  assert (Hafter : forall sc2 block', advanced sc1 sc2 ->
            exists b sc', parseBlockLoop NewParser fuel sc2 block' = Ok (b, sc')
                          /\ advanced sc sc' /\ pending sc' = []).
  { intros sc2 block' H12.
    destruct (IH sc2 block') as (b & sc' & Hr & Hadv' & Hend).
    { pose proof (advanced_length _ _ H12). lia. }
    { eapply advanced_Forall; [exact H12 | exact Hrest]. }
    { eapply advanced_Forall; [exact H12 | exact Horest]. }
    exists b, sc'. split; [exact Hr|]. split; [|exact Hend].
    eapply advanced_trans; [exact Hadv|]. eapply advanced_trans; eauto. }
  destruct (String.eqb_spec (TrimSpace l) "}") as [Heq|_]; [contradiction|].
  destruct (skipEmptyLine NewParser (TrimSpace l) || skipComment NewParser (TrimSpace l)).
  { apply Hafter, advanced_refl. }
  destruct (parseBlock_parseList_total fuel sc1 Hlen1 Hrest) as [Hb Hl1].
  destruct (parseLine_total fuel (fun s => parseBlockLoop NewParser fuel s [])
              (fun s => parseListLoop NewParser fuel s []) sc1 Hlen1
              (Hb []) (Hl1 []) (TrimSpace l))
    as (node & sc2 & Hn & H12).
  { now rewrite negativeDedent_TrimSpace. }
  rewrite Hn. run. now apply Hafter.
Qed.

Lemma parseListLoop_unclosed (fuel : nat) :
  forall sc lst, List.length (pending sc) < fuel ->
    Forall (fun l => negativeDedent l = false) (pending sc) ->
    Forall (fun l => TrimSpace l <> "]") (pending sc) ->
    exists items sc', parseListLoop NewParser fuel sc lst = Ok (items, sc')
                      /\ advanced sc sc' /\ pending sc' = [].
Proof.
  induction fuel as [|fuel IH]; intros sc lst Hlen Hsafe Hopen; [lia|].
  cbn [parseListLoop]. destruct (pending sc) as [|l rest] eqn:E.
  { rewrite (NextLine_nil sc E). run.
    eexists _, _. split; [reflexivity|]. split; [apply advanced_refl | exact E]. }
  rewrite (NextLine_cons sc l rest E). run.
  pose proof (advanced_next sc l rest E) as Hadv.
  set (sc1 := mkScanner rest (S (lineNum sc)) (readErr sc)) in *.
  inversion Hsafe as [|? ? Hl Hrest]; subst.
  inversion Hopen as [|? ? Ho Horest]; subst.
  assert (Hlen1 : List.length (pending sc1) < fuel) by (simpl in *; lia).
  assert (Hafter : forall sc2 lst', advanced sc1 sc2 ->
            exists items sc', parseListLoop NewParser fuel sc2 lst' = Ok (items, sc')
                              /\ advanced sc sc' /\ pending sc' = []).
  { intros sc2 lst' H12.
    destruct (IH sc2 lst') as (b & sc' & Hr & Hadv' & Hend).
    { pose proof (advanced_length _ _ H12). lia. }
    { eapply advanced_Forall; [exact H12 | exact Hrest]. }
    { eapply advanced_Forall; [exact H12 | exact Horest]. }
    exists b, sc'. split; [exact Hr|]. split; [|exact Hend].
    eapply advanced_trans; [exact Hadv|]. eapply advanced_trans; eauto. }
  destruct (String.eqb_spec (TrimSpace l) "]") as [Heq|_]; [contradiction|].
  destruct (skipEmptyLine NewParser (TrimSpace l) || skipComment NewParser (TrimSpace l)).
  { apply Hafter, advanced_refl. }
  destruct (parseBlock_parseList_total fuel sc1 Hlen1 Hrest) as [Hb _].
  destruct (parseListItem_total (fun s => parseBlockLoop NewParser fuel s []) sc1
              (Hb []) (TrimSpace l))
    as (item & sc2 & Hn & H12).
  rewrite Hn. run. now apply Hafter.
Qed.

Lemma parseMultilineLoop_unclosed (fuel : nat) :
  forall sc content, List.length (pending sc) < fuel ->
    Forall (fun l => TrimSpace l <> "```") (pending sc) ->
    exists sc', parseMultilineLoop fuel sc content = Ok (content ++ pending sc, sc')
                /\ advanced sc sc' /\ pending sc' = [].
Proof.
  induction fuel as [|fuel IH]; intros sc content Hlen Hopen; [lia|].
  cbn [parseMultilineLoop]. destruct (pending sc) as [|l rest] eqn:E.
  { rewrite (NextLine_nil sc E). run. rewrite List.app_nil_r.
    eexists. split; [reflexivity|]. split; [apply advanced_refl | exact E]. }
  rewrite (NextLine_cons sc l rest E). run.
  pose proof (advanced_next sc l rest E) as Hadv.
  inversion Hopen as [|? ? Ho Horest]; subst.
  destruct (String.eqb_spec (TrimSpace l) "```") as [Heq|_]; [contradiction|].
  destruct (IH (mkScanner rest (S (lineNum sc)) (readErr sc)) (content ++ [l]))
    as (sc' & Hr & Hadv' & Hend); [simpl in *; lia | exact Horest |].
  exists sc'. simpl pending in Hr. rewrite <- List.app_assoc in Hr.
  split; [exact Hr|]. split; [|exact Hend]. eapply advanced_trans; eauto.
Qed.

Lemma parseLine_eq (p : Parser) (fuel : nat)
    (pb : Scanner -> Outcome (Block * Scanner))
    (pl : Scanner -> Outcome (list Value * Scanner)) (sc : Scanner) (line : string) :
  parseLine p fuel pb pl sc line
  = if String.eqb (lineType line) "quoted" then
      Ok (mkNode (lineKey line) "string"
                 (VString (if negb (HasPrefix (lineValPart line) dquote)
                              || negb (HasSuffix (lineValPart line) dquote)
                           then dquote +:+ lineValPart line +:+ dquote
                           else lineValPart line)), sc)
    else
      '(value, sc') ← parseValue p fuel pb pl sc
                        (mkNode (lineKey line) (lineType line) (VString EmptyString))
                        (lineValPart line) (snd (splitKeyValue line));
      Ok (mkNode (lineKey line) (lineType line) value, sc').
Proof.
  unfold parseLine, lineType, lineKey, lineValPart.
  destruct (splitKeyValue line) as [[keyPart valPart] lo]. cbn [fst snd].
  destruct (parseKeyAndType keyPart) as [key ty]. reflexivity.
Qed.

(** A document whose first line takes all of the input into its value. *)
Lemma ParseDocument_single_node (hdr : string) (body : list string) (err : option Error)
    (node : Node) (sc2 : Scanner) :
  skipped hdr = false -> isDirectiveLine hdr = false ->
  parseLine NewParser (S (List.length body))
            (parseBlock NewParser (S (List.length body)))
            (parseList NewParser (S (List.length body)))
            (mkScanner body 1 err) hdr = Ok (node, sc2) ->
  pending sc2 = [] -> readErr sc2 = err ->
  ParseDocument NewParser (mkReader (hdr :: body) err)
  = Ok (Some (mkDocument [node]), err).
Proof.
  intros Hskip Hdir Hline Hend Herr.
  unfold ParseDocument, parseNodes. cbn [rdLines List.length].
  cbn [parseNodesLoop].
  rewrite (NextLine_cons (NewScanner (mkReader (hdr :: body) err)) hdr body eq_refl). run.
  unfold skipped in Hskip. rewrite Hskip.
  unfold isDirectiveLine in Hdir. apply orb_false_iff in Hdir as [-> ->].
  cbn [NewScanner lineNum readErr rdErr]. rewrite Hline. run.
  cbn [parseNodesLoop]. rewrite (NextLine_nil sc2 Hend). run.
  now rewrite Herr.
Qed.

(** C1 as the specification words it fails: an unterminated block, an
    unterminated multiline list and an unterminated multiline text each
    parse to a Document, and no error is returned. *)
Lemma unterminated_input_is_not_an_error :
  ParseDocument NewParser (mkReader ["server {"; "host localhost"] None)
  = Ok (Some (mkDocument [mkNode "server" EmptyString
                                 (VBlock [("host", VString "localhost")])]), None)
  /\ ParseDocument NewParser (mkReader ["items ["; "apple"] None)
     = Ok (Some (mkDocument [mkNode "items" EmptyString (VList [VString "apple"])]), None)
  /\ ParseDocument NewParser (mkReader ["text ```"; "first"; "second"] None)
     = Ok (Some (mkDocument [mkNode "text" EmptyString
                                    (VString ("first" +:+ newline +:+ "second"))]), None)
  /\ ~ (exists input err,
           In input [["server {"; "host localhost"]; ["items ["; "apple"];
                     ["text ```"; "first"; "second"]]
           /\ ParseDocument NewParser (mkReader input None) = Ok (None, Some err)).
Proof.
  split; [reflexivity|]. split; [reflexivity|]. split; [reflexivity|].
  intros (input & err & Hin & Hfail).
  simpl in Hin. destruct Hin as [<-|[<-|[<-|[]]]]; vm_compute in Hfail; discriminate.
Qed.

(** C10 fails on a multiline text annotated with a negative integer: the
    line is no directive, and [ParseDocument] neither returns a Document
    nor an error; [dedentLines] slices with the negative count and the
    call panics. *)
Theorem negative_dedent_annotation_panics :
  isDirectiveLine "k!-1 ```" = false
  /\ ParseDocument NewParser (mkReader ["k!-1 ```"; "text"; "```"] None)
     = Panic "runtime error: slice bounds out of range"
  /\ (forall text, dedentLines text (-1) = None).
Proof.
  split; [reflexivity|]. split; [reflexivity|].
  intros text. now apply dedentLines_negative.
Qed.

(* ===================================================================== *)
(** * The [!use] directive *)
(* ===================================================================== *)

Lemma use_line_not_skipped (line : string) :
  HasPrefix (TrimSpace line) "!use" = true ->
  skipEmptyLine NewParser line || skipComment NewParser line = false.
Proof.
  cbn [skipEmptyLine skipComment NewParser].
  destruct (TrimSpace line) as [|c r]; [discriminate|].
  cbn [HasPrefix]. intros H. apply andb_true_iff in H as [Hc _].
  apply Ascii.eqb_eq in Hc as ->. reflexivity.
Qed.

Lemma parseUseDirective_eq (p : Parser) (sc : Scanner) (line : string) :
  parseUseDirective p sc (TrimSpace line)
  = let arg := TrimSpace (TrimPrefix (TrimSpace line) "!use") in
    if HasPrefix arg "[" then Ok (mkNode "_use" "directive" (VUse (inlineItems arg)), sc)
    else Fail EUseRequiresList.
Proof.
  unfold parseUseDirective. rewrite TrimSpace_idempotent. cbv zeta.
  destruct (HasPrefix _ "["); [|reflexivity].
  rewrite parseInlineList_ok. cbn [wrapErr mbind Outcome_bind bind].
  rewrite List.map_map, List.map_id. reflexivity.
Qed.

(** C9, as the code has it. Where the top-level loop meets a line that
    begins with [!use], what follows [!use] on that line decides: if it
    begins with ['['] the line becomes the node [_use] of type [directive]
    whose namespaces are the comma-separated items of that line, trimmed,
    in order, and the loop goes on with the next line; if not, the parse
    fails with the error of the directive under the number of the line.
    The lines after it are never read as items of the list. *)
Theorem use_directive_takes_inline_list
    (sc : Scanner) (line : string) (rest : list string)
    (Hline : pending sc = line :: rest)
    (Huse : HasPrefix (TrimSpace line) "!use" = true) :
  let arg := TrimSpace (TrimPrefix (TrimSpace line) "!use") in
  let next := mkScanner rest (S (lineNum sc)) (readErr sc) in
  (HasPrefix arg "[" = true ->
   forall fuel nodes,
     parseNodesLoop NewParser (S fuel) sc nodes
     = parseNodesLoop NewParser fuel next
         (nodes ++ [mkNode "_use" "directive" (VUse (inlineItems arg))]))
  /\ (HasPrefix arg "[" = false ->
      forall fuel nodes,
        parseNodesLoop NewParser (S fuel) sc nodes
        = Fail (EAtLine (S (lineNum sc)) EUseRequiresList)).
Proof.
  intros arg next.
  assert (Hstep : forall fuel nodes,
             parseNodesLoop NewParser (S fuel) sc nodes
             = '(useNode, scanner) ← wrapErr (EAtLine (S (lineNum sc)))
                                       (parseUseDirective NewParser next (TrimSpace line));
               parseNodesLoop NewParser fuel scanner (nodes ++ [useNode])).
  { intros fuel nodes. cbn [parseNodesLoop].
    rewrite (NextLine_cons sc line rest Hline). run.
    rewrite (use_line_not_skipped line Huse), Huse. reflexivity. }
  split; intros Harg fuel nodes; rewrite Hstep, parseUseDirective_eq; cbv zeta;
    fold arg; rewrite Harg; reflexivity.
Qed.

Lemma use_directive_takes_inline_list_witness :
  parseNodesLoop NewParser 3 (mkScanner ["!use [time, id]"; "name x"] 0 None) []
  = parseNodesLoop NewParser 2 (mkScanner ["name x"] 1 None)
      [mkNode "_use" "directive" (VUse ["time"; "id"])].
Proof.
  exact (proj1 (use_directive_takes_inline_list
                  (mkScanner ["!use [time, id]"; "name x"] 0 None)
                  "!use [time, id]" ["name x"] eq_refl eq_refl) eq_refl 2 []).
Defined.

(** C9 as the specification words it fails on a multiline list: after
    the line [!use [] the directive has no namespace at all, and the items
    and the closing bracket are parsed as three ordinary nodes. *)
Lemma use_directive_multiline_list_not_read :
  ParseDocument NewParser (mkReader ["!use ["; "time"; "id"; "]"] None)
  = Ok (Some (mkDocument [mkNode "_use" "directive" (VUse []);
                          mkNode "time" EmptyString (VString EmptyString);
                          mkNode "id" EmptyString (VString EmptyString);
                          mkNode "]" EmptyString (VString EmptyString)]), None)
  /\ ~ (exists rest err,
           ParseDocument NewParser (mkReader ["!use ["; "time"; "id"; "]"] None)
           = Ok (Some (mkDocument (mkNode "_use" "directive" (VUse ["time"; "id"]) :: rest)),
                 err)).
Proof.
  split; [reflexivity|].
  intros (rest & err & H). vm_compute in H. discriminate.
Qed.

(* ===================================================================== *)
(** * Order of nodes and of list items *)
(* ===================================================================== *)

Lemma baseMap_keys (nodes : list Node) (m : gmap string Node) (k : string) :
  is_Some (fold_left (fun m node => <[Key node := node]> m) nodes m !! k)
  <-> is_Some (m !! k) \/ In k (List.map Key nodes).
Proof.
  revert m. induction nodes as [|n ns IH]; intros m; simpl; [tauto|].
  rewrite IH. destruct (decide (Key n = k)) as [->|Hne].
  - rewrite lookup_insert_eq. split; [right; now left | intros _; left; eauto].
  - rewrite lookup_insert_ne by assumption. tauto.
Qed.

(** The loop over the overlay's nodes: one node out for each node in, with
    its key, and the keys met are struck from the map of base nodes. *)
Lemma mergeOverlayNodes_spec (o : TemplateOptions) (ov : list Node) :
  forall nodes baseMap,
    let '(nodes', baseMap') := fold_left (mergeOverlayNode o) ov (nodes, baseMap) in
    (exists merged, nodes' = nodes ++ merged /\ List.map Key merged = List.map Key ov)
    /\ (forall k, is_Some (baseMap' !! k)
                  <-> is_Some (baseMap !! k) /\ ~ In k (List.map Key ov)).
Proof.
  induction ov as [|n ns IH]; intros nodes baseMap; simpl.
  { split; [exists []; now rewrite List.app_nil_r | tauto]. }
  destruct (baseMap !! Key n) as [baseNode|] eqn:E.
  - specialize (IH (nodes ++ [mkNode (Key n) (Typ n) (mergeValues o (Val baseNode) (Val n))])
                   (delete (Key n) baseMap)).
    destruct (fold_left _ ns _) as [nodes' baseMap']. destruct IH as [(merged & -> & Hk) Hm].
    split.
    + eexists (_ :: merged). rewrite <- List.app_assoc. split; [reflexivity|].
      simpl. now rewrite Hk.
    + intros k. rewrite Hm. destruct (decide (Key n = k)) as [Heq|Hne]; [subst k|].
      * rewrite lookup_delete_eq. split; [intros [[? ?] _]; discriminate | tauto].
      * rewrite lookup_delete_ne by assumption. tauto.
  - specialize (IH (nodes ++ [n]) baseMap).
    destruct (fold_left _ ns _) as [nodes' baseMap']. destruct IH as [(merged & -> & Hk) Hm].
    split.
    + eexists (_ :: merged). rewrite <- List.app_assoc. split; [reflexivity|].
      simpl. now rewrite Hk.
    + intros k. rewrite Hm. destruct (decide (Key n = k)) as [Heq|Hne]; [subst k|].
      * rewrite E. split; [intros [[? ?] _]; discriminate | tauto].
      * tauto.
Qed.

Lemma mergeDocuments_nodes (o : TemplateOptions) (base overlay : Document) :
  exists merged,
    Nodes (mergeDocuments o base overlay)
    = merged ++ List.filter (fun node => bool_decide (Key node ∉ List.map Key (Nodes overlay)))
                            (Nodes base)
    /\ List.map Key merged = List.map Key (Nodes overlay).
Proof.
  unfold mergeDocuments.
  pose proof (mergeOverlayNodes_spec o (Nodes overlay) []
                (fold_left (fun m node => <[Key node := node]> m) (Nodes base) ∅)) as H.
  destruct (fold_left (mergeOverlayNode o) _ _) as [nodes' baseMap'].
  destruct H as [(merged & -> & Hk) Hm]. exists merged. split; [|exact Hk].
  simpl. f_equal. apply List.filter_ext_in. intros node Hin.
  apply bool_decide_ext. rewrite Hm, baseMap_keys, list_elem_of_In.
  split; [tauto|]. intros Hn. split; [|exact Hn]. right. now apply List.in_map.
Qed.

Lemma uniqueList_sublist (lst : list Value) : uniqueList lst `sublist_of` lst.
Proof.
  unfold uniqueList.
  assert (H : forall l seen result pre,
             result `sublist_of` pre ->
             snd (fold_left uniqueStep l (seen, result)) `sublist_of` (pre ++ l)).
  { induction l as [|x l IH]; intros seen result pre Hsub; simpl.
    - now rewrite List.app_nil_r.
    - replace (pre ++ x :: l) with ((pre ++ [x]) ++ l) by now rewrite <- List.app_assoc.
      destruct x; simpl;
        try (apply IH; apply sublist_app; [exact Hsub | reflexivity]).
      destruct (bool_decide _).
      + apply IH. now apply sublist_inserts_r.
      + apply IH. apply sublist_app; [exact Hsub | reflexivity]. }
  apply (H lst ∅ [] []). constructor.
Qed.

Lemma mergeIntoTarget_keys (o : TemplateOptions) (ov : Node) (nodes : list Node) :
  List.map Key (fst (mergeIntoTarget o ov nodes)) = List.map Key nodes.
Proof.
  induction nodes as [|t rest IH]; simpl; [reflexivity|].
  destruct (String.eqb (Key t) (Key ov)); [reflexivity|].
  destruct (mergeIntoTarget o ov rest). simpl in *. now rewrite IH.
Qed.

Lemma applyOverlay_keys (o : TemplateOptions) (doc : Document) (ov : Node) :
  List.map Key (Nodes (applyOverlay o doc ov)) = List.map Key (Nodes doc)
  \/ List.map Key (Nodes (applyOverlay o doc ov)) = List.map Key (Nodes doc) ++ [Key ov].
Proof.
  unfold applyOverlay. pose proof (mergeIntoTarget_keys o ov (Nodes doc)) as H.
  destruct (mergeIntoTarget o ov (Nodes doc)) as [nodes merged]. simpl in H.
  destruct merged; simpl; [now left | right]. now rewrite List.map_app.
Qed.

Lemma applyPatchNodes_keys (nodes : list Node) (key : string) (rest : list string)
    (value : Value) :
  List.map Key (applyPatchNodes nodes key rest value) = List.map Key nodes.
Proof.
  induction nodes as [|n ns IH]; simpl; [reflexivity|].
  destruct (String.eqb (Key n) key).
  - destruct rest; [reflexivity|]. now destruct (Val n).
  - simpl. now rewrite IH.
Qed.

Lemma applyPatches_keys (doc : Document) (patches : list Node) :
  List.map Key (Nodes (applyPatches doc patches)) = List.map Key (Nodes doc).
Proof.
  unfold applyPatches.
  change (List.map Key (Nodes doc)) with (List.map Key (Nodes (mkDocument (Nodes doc)))).
  generalize (mkDocument (Nodes doc)) as d.
  induction patches as [|p ps IH]; intros d; simpl; [reflexivity|].
  rewrite IH. unfold applyPatchPath.
  destruct (Split (Key p) "."); [reflexivity|]. simpl. apply applyPatchNodes_keys.
Qed.

Lemma mapOutcome_Forall2 {A B : Type} (f : A -> Outcome B) (l : list A) (l' : list B) :
  mapOutcome f l = Ok l' -> Forall2 (fun x y => f x = Ok y) l l'.
Proof.
  revert l'. induction l as [|x xs IH]; intros l'; simpl.
  - intros [= <-]. constructor.
  - destruct (f x) as [y| | |] eqn:E; try discriminate. cbn [mbind Outcome_bind bind].
    destruct (mapOutcome f xs) as [ys| | |]; try discriminate. cbn [bind].
    intros [= <-]. constructor; [exact E | now apply IH].
Qed.

Lemma resolveVariablesIteratively_keys (fuel : nat) (doc r : Document) (e e' : TemplateEngine) :
  resolveVariablesIteratively fuel doc e = Done e' r ->
  List.map Key (Nodes r) = List.map Key (Nodes doc).
Proof.
  unfold resolveVariablesIteratively.
  destruct (resolveVarsLoop fuel maxIterations e) as [e1 []| | |]; try discriminate.
  cbn [runBind].
  destruct (mapOutcome _ (Nodes doc)) as [nodes| | |] eqn:E; try discriminate.
  intros [= _ <-]. simpl. apply mapOutcome_Forall2 in E.
  induction E as [|x y xs ys Hxy _ IH]; simpl; [reflexivity|].
  rewrite IH. f_equal.
  destruct (resolveValue _ _ _); try discriminate. now injection Hxy as <-.
Qed.

Lemma baseMap_lastOfKey (nodes : list Node) (m : gmap string Node) (k : string) :
  fold_left (fun m node => <[Key node := node]> m) nodes m !! k
  = match lastOfKey nodes k with
    | Some node => Some node
    | None => m !! k
    end.
Proof.
  unfold lastOfKey. induction nodes as [|x nodes IH] using List.rev_ind; [reflexivity|].
  rewrite List.fold_left_app, List.rev_app_distr. cbn [fold_left List.rev List.app List.find].
  destruct (String.eqb_spec (Key x) k) as [->|Hne].
  - apply lookup_insert_eq.
  - rewrite lookup_insert_ne by exact Hne. exact IH.
Qed.

(** The loop over the overlay's nodes, while the map holds the last base
    node of every key that no earlier overlay node had. *)
Lemma mergeOverlayNodes_emits (o : TemplateOptions) (base : list Node) (ov : list Node) :
  forall nodes (baseMap : gmap string Node) earlier,
    (forall k, baseMap !! k
               = if existsb (String.eqb k) earlier then None else lastOfKey base k) ->
    fst (fold_left (mergeOverlayNode o) ov (nodes, baseMap))
    = nodes ++ mergedOverlay o base earlier ov.
Proof.
  induction ov as [|n ns IH]; intros nodes baseMap earlier Hmap.
  { cbn [fold_left fst mergedOverlay]. now rewrite List.app_nil_r. }
  cbn [fold_left mergeOverlayNode mergedOverlay]. rewrite (Hmap (Key n)).
  destruct (existsb (String.eqb (Key n)) earlier) eqn:Eseen;
    [|destruct (lastOfKey base (Key n)) as [baseNode|] eqn:Elast].
  - rewrite (IH _ baseMap (Key n :: earlier)), <- List.app_assoc; [reflexivity|].
    intros k. cbn [existsb]. rewrite Hmap.
    destruct (String.eqb_spec k (Key n)) as [->|Hne]; [now rewrite Eseen | reflexivity].
  - rewrite (IH _ (delete (Key n) baseMap) (Key n :: earlier)), <- List.app_assoc;
      [reflexivity|].
    intros k. cbn [existsb].
    destruct (String.eqb_spec k (Key n)) as [->|Hne]; [apply lookup_delete_eq|].
    rewrite lookup_delete_ne by congruence. apply Hmap.
  - rewrite (IH _ baseMap (Key n :: earlier)), <- List.app_assoc; [reflexivity|].
    intros k. cbn [existsb]. rewrite Hmap.
    destruct (String.eqb_spec k (Key n)) as [->|Hne]; [now rewrite Eseen, Elast | reflexivity].
Qed.

Lemma mergeDocuments_emits (o : TemplateOptions) (base overlay : Document) :
  Nodes (mergeDocuments o base overlay)
  = mergedOverlay o (Nodes base) [] (Nodes overlay)
    ++ List.filter (fun node => bool_decide (Key node ∉ List.map Key (Nodes overlay)))
                   (Nodes base).
Proof.
  unfold mergeDocuments.
  pose proof (mergeOverlayNodes_spec o (Nodes overlay) []
                (fold_left (fun m node => <[Key node := node]> m) (Nodes base) ∅)) as H.
  pose proof (mergeOverlayNodes_emits o (Nodes base) (Nodes overlay) []
                (fold_left (fun m node => <[Key node := node]> m) (Nodes base) ∅) []) as Hfst.
  destruct (fold_left (mergeOverlayNode o) _ _) as [nodes' baseMap'].
  destruct H as [_ Hm]. cbn [fst List.app Nodes] in *.
  rewrite Hfst by (intros k; cbn [existsb]; rewrite baseMap_lastOfKey, lookup_empty;
                   now destruct (lastOfKey (Nodes base) k)).
  f_equal. apply List.filter_ext_in. intros node Hin.
  apply bool_decide_ext. rewrite Hm, baseMap_keys, list_elem_of_In.
  split; [tauto|]. intros Hn. split; [|exact Hn]. right. now apply List.in_map.
Qed.

(** With overlay keys that are all different, every overlay node meets
    the base node of its key. *)
Lemma mergedOverlay_NoDup (o : TemplateOptions) (base : list Node) (ov : list Node) :
  forall earlier,
    NoDup (List.map Key ov) -> (forall k, In k earlier -> ~ In k (List.map Key ov)) ->
    mergedOverlay o base earlier ov
    = List.map (fun node => match lastOfKey base (Key node) with
                            | Some baseNode =>
                                mkNode (Key node) (Typ node)
                                       (mergeValues o (Val baseNode) (Val node))
                            | None => node
                            end) ov.
Proof.
  induction ov as [|n ns IH]; intros earlier Hnd Hfresh; [reflexivity|].
  cbn [List.map] in Hnd. apply NoDup_cons in Hnd as [Hn Hns].
  cbn [mergedOverlay List.map].
  assert (existsb (String.eqb (Key n)) earlier = false) as ->.
  { apply not_true_is_false. intros Hex. apply existsb_exists in Hex as (k & Hk & Heq).
    apply String.eqb_eq in Heq. subst k. apply (Hfresh (Key n) Hk). now left. }
  f_equal. apply IH; [exact Hns|].
  intros k [<-|Hk]; [intros Hin; apply Hn; now apply list_elem_of_In|].
  intros Hin. apply (Hfresh k Hk). now right.
Qed.

(** C4, as the code has it. Merging two documents emits the overlay
    document's nodes first, in their order, and after them the base nodes
    whose key the overlay does not have, whole and in their original
    relative order: a base node that the overlay matches moves to the
    overlay's position.  Of the overlay's nodes, one whose key some base
    node has (and no earlier overlay node had) is emitted under its own
    key and type annotation with the value merged from the last base node
    of that key and its own; every other overlay node is emitted as it is;
    so, when the overlay's keys are all different, each overlay node is
    merged with the last base node of its key, if there is one.  No list
    strategy reorders items ([append] concatenates, [unique] keeps a
    sublist of the concatenation, [replace] substitutes), and the overlay,
    patch and resolve steps keep the keys of the nodes in their order. *)
Theorem merge_emits_overlay_order_then_unmatched_base
    (o : TemplateOptions) (base overlay : Document) :
  Nodes (mergeDocuments o base overlay)
  = mergedOverlay o (Nodes base) [] (Nodes overlay)
    ++ List.filter (fun node => bool_decide (Key node ∉ List.map Key (Nodes overlay)))
                   (Nodes base)
  /\ List.map Key (mergedOverlay o (Nodes base) [] (Nodes overlay))
     = List.map Key (Nodes overlay)
  /\ (NoDup (List.map Key (Nodes overlay)) ->
      mergedOverlay o (Nodes base) [] (Nodes overlay)
      = List.map (fun node => match lastOfKey (Nodes base) (Key node) with
                              | Some baseNode =>
                                  mkNode (Key node) (Typ node)
                                         (mergeValues o (Val baseNode) (Val node))
                              | None => node
                              end) (Nodes overlay))
  /\ (forall dir b ov,
         mergeValues (mkOptions "deep" "append" dir) (VList b) (VList ov) = VList (b ++ ov)
         /\ mergeValues (mkOptions "deep" "replace" dir) (VList b) (VList ov) = VList ov
         /\ exists items, mergeValues (mkOptions "deep" "unique" dir) (VList b) (VList ov)
                          = VList items /\ items `sublist_of` (b ++ ov))
  /\ (forall doc ov,
         List.map Key (Nodes (applyOverlay o doc ov)) = List.map Key (Nodes doc)
         \/ List.map Key (Nodes (applyOverlay o doc ov)) = List.map Key (Nodes doc) ++ [Key ov])
  /\ (forall doc patches,
         List.map Key (Nodes (applyPatches doc patches)) = List.map Key (Nodes doc))
  /\ (forall fuel doc e e' r,
         resolveVariablesIteratively fuel doc e = Done e' r ->
         List.map Key (Nodes r) = List.map Key (Nodes doc)).
Proof.
  split; [apply mergeDocuments_emits|].
  split.
  { generalize (@nil string) as earlier.
    induction (Nodes overlay) as [|n ns IH]; intros earlier; [reflexivity|].
    cbn [mergedOverlay List.map]. rewrite IH. f_equal.
    destruct (existsb _ earlier); [reflexivity|].
    now destruct (lastOfKey (Nodes base) (Key n)). }
  split; [intros Hnd; apply mergedOverlay_NoDup; [exact Hnd | intros k []]|].
  split.
  { intros dir b ov. split; [now destruct ov|]. split; [now destruct ov|].
    exists (uniqueList (b ++ ov)). split; [now destruct ov | apply uniqueList_sublist]. }
  split; [apply applyOverlay_keys|].
  split; [apply applyPatches_keys|].
  intros fuel doc e e' r. apply resolveVariablesIteratively_keys.
Qed.

Lemma merge_emits_overlay_order_then_unmatched_base_witness :
  Nodes (mergeDocuments (mkOptions "deep" "append" ".")
           (mkDocument [mkNode "a" "int" (VString "1");
                        mkNode "b" EmptyString (VBlock [("x", VString "1")])])
           (mkDocument [mkNode "b" "cfg" (VBlock [("y", VString "2")]);
                        mkNode "c" EmptyString (VString "3")]))
  = [mkNode "b" "cfg" (VBlock [("x", VString "1"); ("y", VString "2")]);
     mkNode "c" EmptyString (VString "3");
     mkNode "a" "int" (VString "1")]
  /\ List.map Key (Nodes (mkDocument [mkNode "greeting" EmptyString (VString "hello x")]))
     = List.map Key
         (Nodes (mkDocument [mkNode "greeting" EmptyString (VString "hello $vars.name")])).
Proof.
  split.
  - exact (proj1 (merge_emits_overlay_order_then_unmatched_base
                    (mkOptions "deep" "append" ".")
                    (mkDocument [mkNode "a" "int" (VString "1");
                                 mkNode "b" EmptyString (VBlock [("x", VString "1")])])
                    (mkDocument [mkNode "b" "cfg" (VBlock [("y", VString "2")]);
                                 mkNode "c" EmptyString (VString "3")]))).
  - refine (proj2 (proj2 (proj2 (proj2 (proj2 (proj2
              (merge_emits_overlay_order_then_unmatched_base
                 (mkOptions "deep" "append" ".") (mkDocument []) (mkDocument []))))))) 4
              (mkDocument [mkNode "greeting" EmptyString (VString "hello $vars.name")])
              (setVars (<["name" := VString "x"]> ∅) NewTemplateEngine)
              (setVars (<["name" := VString "x"]> ∅) NewTemplateEngine)
              (mkDocument [mkNode "greeting" EmptyString (VString "hello x")]) _).
    vm_compute. reflexivity.
Defined.

(** C4 as the specification words it fails: the base document has the
    nodes [a], [b] in this order, the overlay has [b]; the merged document
    has [b] and then [a]. *)
Lemma merge_reorders_base_nodes :
  let o := mkOptions "deep" "append" "." in
  let base := mkDocument [mkNode "a" EmptyString (VString "1");
                          mkNode "b" EmptyString (VString "2")] in
  let overlay := mkDocument [mkNode "b" EmptyString (VString "3")] in
  List.map Key (Nodes (mergeDocuments o base overlay)) = ["b"; "a"]
  /\ List.filter (fun k => bool_decide (k ∈ List.map Key (Nodes base)))
                 (List.map Key (Nodes (mergeDocuments o base overlay)))
     <> List.map Key (Nodes base).
Proof.
  split; [reflexivity|]. vm_compute. discriminate.
Qed.

(* ===================================================================== *)
(** * Variables that refer to each other *)
(* ===================================================================== *)

Lemma mapOutcome_okOrOutOfFuel {A B : Type} (f : A -> Outcome B) (l : list A) :
  (forall x, okOrOutOfFuel (f x)) -> okOrOutOfFuel (mapOutcome f l).
Proof.
  intros Hf. induction l as [|x xs IH]; simpl; [left; eauto|].
  destruct (Hf x) as [[y ->]| ->]; [|now right]. cbn [mbind Outcome_bind bind].
  destruct IH as [[ys ->]| ->]; [left; eauto | now right].
Qed.

(** Resolution builds no error of its own and has no panic in it. *)
Lemma resolveValue_okOrOutOfFuel (vs : gmap string Value) (fuel : nat) :
  (forall v, okOrOutOfFuel (resolveValue vs fuel v))
  /\ (forall s, okOrOutOfFuel (resolveRefs vs fuel s)).
Proof.
  induction fuel as [|fuel [IHv IHr]]; [split; intros; now right|].
  split.
  - intros [s|b|l|l|m|ns]; cbn [resolveValue]; try (left; eauto; fail).
    + destruct (negb (Contains s "$vars.")); [left; eauto | apply IHr].
    + destruct (mapOutcome_okOrOutOfFuel
                  (fun kv => val ← resolveValue vs fuel (snd kv); Ok (fst kv, val)) b)
        as [[r ->]| ->]; [|left; eauto | now right].
      intros [k v]. cbn [fst snd]. destruct (IHv v) as [[r ->]| ->]; [left; eauto | now right].
    + destruct (mapOutcome_okOrOutOfFuel (resolveValue vs fuel) l IHv)
        as [[r ->]| ->]; [left; eauto | now right].
  - intros s. cbn [resolveRefs].
    destruct (negb (Contains s "$vars.")); [left; eauto|].
    destruct (Index s "$vars.") as [start|]; [|left; eauto].
    cbv zeta. destruct (vs !! _) as [resolved|].
    + destruct (String.eqb s _); [apply IHv|].
      destruct (String.eqb _ s); [left; eauto | apply IHr].
    + destruct (String.eqb _ s); [left; eauto | apply IHr].
Qed.

Lemma resolveValue_string (vs : gmap string Value) (fuel : nat) (v : string) :
  Contains v "$vars." = true ->
  resolveValue vs (S fuel) (VString v) = resolveRefs vs fuel v.
Proof. intros H. cbn [resolveValue]. now rewrite H. Qed.

(** A string that is one reference and nothing else resolves to whatever
    the value of the variable resolves to: the call recurs. *)
Lemma resolveRefs_whole_reference (vs : gmap string Value) (fuel : nat)
    (result : string) (resolved : Value) :
  Contains result "$vars." = true ->
  Index result "$vars." = Some 0 ->
  take_str (6 + varPathLen (drop_str 6 result)) result = result ->
  vs !! TrimPrefix result "$vars." = Some resolved ->
  resolveRefs vs (S fuel) result = resolveValue vs fuel resolved.
Proof.
  intros Hc Hi Hwhole Hvar. cbn [resolveRefs]. rewrite Hc, Hi. cbn [negb]. cbv zeta.
  cbn [Nat.add] in Hwhole |- *. rewrite Nat.sub_0_r, drop_str_0, Hwhole, Hvar.
  now rewrite String.eqb_refl.
Qed.

Lemma resolveValue_cycle (vs : gmap string Value) :
  vs !! "a" = Some (VString "$vars.b") ->
  vs !! "b" = Some (VString "$vars.a") ->
  forall fuel,
    resolveValue vs fuel (VString "$vars.a") = OutOfFuel
    /\ resolveValue vs fuel (VString "$vars.b") = OutOfFuel
    /\ resolveRefs vs fuel "$vars.a" = OutOfFuel
    /\ resolveRefs vs fuel "$vars.b" = OutOfFuel.
Proof.
  intros Ha Hb. induction fuel as [|fuel (IHa & IHb & IHra & IHrb)]; [now repeat split|].
  repeat split.
  - now rewrite resolveValue_string.
  - now rewrite resolveValue_string.
  - now rewrite (resolveRefs_whole_reference vs fuel "$vars.a" (VString "$vars.b")).
  - now rewrite (resolveRefs_whole_reference vs fuel "$vars.b" (VString "$vars.a")).
Qed.

(** A pass over the variables is cut off as soon as one entry is. *)
Lemma resolveVarsPass_starved (vs : gmap string Value) (fuel : nat)
    (path : string) (value : Value) :
  resolveValue vs fuel value = OutOfFuel ->
  forall entries newVars hasChanges,
    In (path, value) entries ->
    resolveVarsPass vs fuel entries newVars hasChanges = OutOfFuel.
Proof.
  intros Hoof. induction entries as [|[p v] rest IH]; intros newVars hasChanges Hin;
    [destruct Hin|].
  cbn [resolveVarsPass].
  destruct Hin as [[= -> ->]|Hin]; [now rewrite Hoof|].
  destruct (proj1 (resolveValue_okOrOutOfFuel vs fuel) v) as [[r ->]| ->]; [|reflexivity].
  cbn [mbind Outcome_bind bind]. now apply IH.
Qed.

Lemma resolveVariablesIteratively_cycle (fuel : nat) (doc : Document) (e : TemplateEngine) :
  vars e !! "a" = Some (VString "$vars.b") ->
  vars e !! "b" = Some (VString "$vars.a") ->
  resolveVariablesIteratively fuel doc e = Starved.
Proof.
  intros Ha Hb. unfold resolveVariablesIteratively, maxIterations. cbn [resolveVarsLoop].
  rewrite (resolveVarsPass_starved (vars e) fuel "a" (VString "$vars.b")); [reflexivity| |].
  - apply (resolveValue_cycle (vars e) Ha Hb fuel).
  - apply list_elem_of_In, elem_of_map_to_list, Ha.
Qed.

Lemma cyclicVarsTemplate_parses :
  ParseDocument NewParser (stringReader cyclicVarsTemplate)
  = Ok (Some cyclicVarsDocument, None).
Proof. reflexivity. Qed.

(** C2 fails on the very example of the specification. With
    [vars.a = "$vars.b"] and [vars.b = "$vars.a"] the resolution of the
    variables does not return, however much fuel the model is given:
    resolving the value of [a], which is one reference to [b], calls the
    resolution of the value of [b], which is one reference to [a], and so
    on; the first pass of the bounded loop is never completed and the
    circular-dependency error never built.  So it is for the template that
    declares the two variables, and for any document resolved in an engine
    that holds them. *)
Theorem mutual_variable_references_never_resolve :
  (forall w fuel,
      ProcessTemplateFromReader w fuel (stringReader cyclicVarsTemplate) NewTemplateEngine
      = Starved)
  /\ (forall fuel doc,
         resolveVariablesIteratively fuel doc (setVars cyclicVars NewTemplateEngine) = Starved)
  /\ (forall fuel, resolveValue cyclicVars fuel (VString "$vars.a") = OutOfFuel).
Proof.
  split; [|split].
  - intros w fuel. unfold ProcessTemplateFromReader. rewrite cyclicVarsTemplate_parses.
    destruct fuel as [|fuel]; [reflexivity|].
    cbn [processDocument]. unfold finishDocument.
    apply resolveVariablesIteratively_cycle; reflexivity.
  - intros fuel doc. apply resolveVariablesIteratively_cycle; reflexivity.
  - intros fuel. now apply resolveValue_cycle.
Qed.

(* ===================================================================== *)
(** * File cycles *)
(* ===================================================================== *)

(** A file on the active chain is refused before it is opened. *)
Lemma loadDocumentRaw_revisit (w : World)
    (pd : Document -> TemplateEngine -> Run Document)
    (filename absPath : string) (e : TemplateEngine) :
  Abs w filename = inr absPath -> absPath ∈ visited e ->
  loadDocumentRaw w pd filename e = Failed e (ECircularFile filename).
Proof.
  intros Habs Hin. unfold loadDocumentRaw. rewrite Habs.
  now rewrite (bool_decide_eq_true_2 _ Hin).
Qed.

(** What a load does when the file is new, opens and parses: the path is
    marked while the document is processed in the file's directory, then
    the directory is restored and the mark removed. *)
Lemma loadDocumentRaw_fresh (w : World)
    (pd : Document -> TemplateEngine -> Run Document)
    (filename absPath : string) (file : Reader) (doc : Document) (e : TemplateEngine) :
  Abs w filename = inr absPath -> absPath ∉ visited e ->
  Open w absPath = inr file -> ParseDocument NewParser file = Ok (Some doc, None) ->
  loadDocumentRaw w pd filename e
  = deferred (fun e' => setVisited (visited e' ∖ {[absPath]}) e')
      (deferred (setBaseDir (BaseDir (options e)))
         (pd doc (setBaseDir (Dir w absPath) (setVisited ({[absPath]} ∪ visited e) e)))).
Proof.
  intros Habs Hfresh Hopen Hparse. unfold loadDocumentRaw. rewrite Habs.
  rewrite (bool_decide_eq_false_2 _ Hfresh), Hopen, Hparse. reflexivity.
Qed.

Lemma loadDocumentRaw_keepsVisited (w : World)
    (pd : Document -> TemplateEngine -> Run Document) (filename : string)
    (e : TemplateEngine) :
  (forall doc e1, keepsVisited e1 (pd doc e1)) ->
  keepsVisited e (loadDocumentRaw w pd filename e).
Proof.
  intros Hpd. unfold loadDocumentRaw.
  destruct (Abs w filename) as [err|absPath]; [reflexivity|].
  destruct (bool_decide_reflect (absPath ∈ visited e)) as [Hin|Hfresh]; [reflexivity|].
  assert (Hback : forall s : gset string,
             s = {[absPath]} ∪ visited e -> s ∖ {[absPath]} = visited e)
    by (intros s ->; apply set_eq; intros x;
        rewrite elem_of_difference, elem_of_union, elem_of_singleton;
        split; [intros [[Hx|Hx] Hne]; [contradiction | exact Hx]
               | intros Hx; split; [now right | intros ->; contradiction]]).
  destruct (Open w absPath) as [err|file]; [simpl; now apply Hback|].
  destruct (ParseDocument NewParser file) as [[[doc|] [err|]]|err|msg|];
    try reflexivity; try (simpl; now apply Hback).
  specialize (Hpd doc (setBaseDir (Dir w absPath) (setVisited ({[absPath]} ∪ visited e) e))).
  destruct (pd doc _) as [e2 r|e2 err| |]; try reflexivity;
    simpl in *; now apply Hback.
Qed.

Section ExtractReturns.
Variable w : World.
Variable pd : Document -> TemplateEngine -> Run Document.
Hypothesis Hpd : forall doc e1, keepsVisited e1 (pd doc e1).

Lemma keepsVisited_bind {A B : Type} (e : TemplateEngine) (m : Run A)
    (k : TemplateEngine -> A -> Run B) :
  keepsVisited e m -> (forall e1 a, keepsVisited e1 (k e1 a)) ->
  keepsVisited e (runBind m k).
Proof.
  intros Hm Hk. destruct m as [e1 a|e1 err| |]; simpl in *; try exact Hm; try exact I.
  specialize (Hk e1 a). destruct (k e1 a); simpl in *; congruence.
Qed.

Lemma extractDirective_keepsVisited (d : Directives) (node : Node) (e : TemplateEngine) :
  keepsVisited e (extractDirective w pd d node e).
Proof.
  unfold extractDirective.
  destruct (String.eqb (Typ node) "base").
  { destruct (Val node); try reflexivity.
    apply keepsVisited_bind; [|intros; reflexivity].
    pose proof (loadDocumentRaw_keepsVisited w pd
                  (PathJoin w (BaseDir (options e)) s) e Hpd) as H.
    now destruct (loadDocumentRaw w pd _ e). }
  destruct (String.eqb (Typ node) "overlay"); [now destruct (Val node)|].
  destruct (String.eqb (Typ node) "include"); [now destruct (Val node)|].
  destruct (String.eqb (Typ node) "patch"); [now destruct (Val node)|].
  destruct (String.eqb (Typ node) "merge"); [|reflexivity].
  destruct (Val node); try reflexivity.
  destruct (mapGet b "strategy") as [[]|]; destruct (mapGet b "list_strategy") as [[]|];
    reflexivity.
Qed.

Lemma extractDirectives_keepsVisited (nodes : list Node) :
  forall d e, keepsVisited e (extractDirectives w pd nodes d e).
Proof.
  induction nodes as [|n ns IH]; intros d e; [reflexivity|].
  cbn [extractDirectives]. apply keepsVisited_bind; [apply extractDirective_keepsVisited|].
  intros e1 d1. apply IH.
Qed.

Lemma loadIncludes_keepsVisited (files : list string) :
  forall docs e, keepsVisited e (loadIncludes w pd files docs e).
Proof.
  induction files as [|f fs IH]; intros docs e; [reflexivity|].
  cbn [loadIncludes]. apply keepsVisited_bind; [|intros e1 d1; apply IH].
  pose proof (loadDocumentRaw_keepsVisited w pd (PathJoin w (BaseDir (options e)) f) e Hpd) as H.
  now destruct (loadDocumentRaw w pd _ e).
Qed.

(** A document without a [base] node: the first loop loads nothing and
    gathers the include files in order. *)
Lemma extractDirectives_no_base (nodes : list Node) :
  Forall (fun n => Typ n <> "base") nodes ->
  forall d e, exists e' d',
    extractDirectives w pd nodes d e = Done e' d'
    /\ visited e' = visited e /\ BaseDir (options e') = BaseDir (options e)
    /\ includeFiles d' = includeFiles d ++ includeFilesOf (mkDocument nodes).
Proof.
  induction 1 as [|n ns Hn _ IH]; intros d e.
  { exists e, d. repeat split. unfold includeFilesOf. simpl. now rewrite List.app_nil_r. }
  cbn [extractDirectives].
  assert (Hstep : exists e1 d1,
             extractDirective w pd d n e = Done e1 d1
             /\ visited e1 = visited e /\ BaseDir (options e1) = BaseDir (options e)
             /\ includeFiles d1
                = includeFiles d ++ includeFilesOf (mkDocument [n])).
  { unfold extractDirective, includeFilesOf. cbn [Nodes flat_map].
    apply String.eqb_neq in Hn. rewrite Hn.
    destruct (String.eqb (Typ n) "overlay") eqn:Eo.
    { assert (String.eqb (Typ n) "include" = false) as ->
        by (apply String.eqb_eq in Eo; now rewrite Eo).
      destruct (Val n); eexists _, _; repeat split; simpl; now rewrite ?List.app_nil_r. }
    destruct (String.eqb (Typ n) "include") eqn:Ei.
    { destruct (Val n); eexists _, _; repeat split; simpl; now rewrite ?List.app_nil_r. }
    destruct (String.eqb (Typ n) "patch").
    { destruct (Val n); eexists _, _; repeat split; simpl; now rewrite ?List.app_nil_r. }
    destruct (String.eqb (Typ n) "merge").
    { destruct (Val n); try (eexists _, _; repeat split; simpl; now rewrite ?List.app_nil_r).
      destruct (mapGet b "strategy") as [[]|]; destruct (mapGet b "list_strategy") as [[]|];
        eexists _, _; repeat split; simpl; now rewrite ?List.app_nil_r. }
    eexists _, _; repeat split; simpl; now rewrite ?List.app_nil_r. }
  destruct Hstep as (e1 & d1 & -> & Hv1 & Hb1 & Hi1). cbn [runBind].
  destruct (IH d1 e1) as (e' & d' & -> & Hv & Hb & Hi).
  exists e', d'. split; [reflexivity|]. split; [congruence|]. split; [congruence|].
  rewrite Hi, Hi1, <- List.app_assoc. f_equal.
  unfold includeFilesOf. cbn [Nodes flat_map]. now rewrite List.app_nil_r.
Qed.
End ExtractReturns.

Lemma resolveVarsLoop_keepsVisited (fuel remaining : nat) :
  forall e, keepsVisited e (resolveVarsLoop fuel remaining e).
Proof.
  induction remaining as [|remaining IH]; intros e; [reflexivity|].
  cbn [resolveVarsLoop].
  destruct (resolveVarsPass _ _ _ _ _) as [[newVars hasChanges]|err|msg|]; try reflexivity.
  destruct (negb hasChanges); [reflexivity|].
  destruct (remaining =? 0)%nat; [reflexivity|].
  specialize (IH (setVars newVars e)). now destruct (resolveVarsLoop fuel remaining _).
Qed.

Lemma finishDocument_keepsVisited (fuel : nat) (d : Directives) (docs : list Document)
    (e : TemplateEngine) :
  keepsVisited e (finishDocument fuel d docs e).
Proof.
  unfold finishDocument, resolveVariablesIteratively.
  match goal with |- context [resolveVarsLoop fuel maxIterations ?e1] =>
    pose proof (resolveVarsLoop_keepsVisited fuel maxIterations e1) as H;
    destruct (resolveVarsLoop fuel maxIterations e1) as [e2 []|e2 err| |]
  end; try exact H; try exact I.
  cbn [runBind]. now destruct (mapOutcome _ _).
Qed.

(** Whatever a document loads, it is processed with the visited set it
    began with restored on both ways out. *)
Lemma processDocument_keepsVisited (w : World) (fuel : nat) :
  forall doc e, keepsVisited e (processDocument w fuel doc e).
Proof.
  induction fuel as [|fuel IH]; intros doc e; [exact I|].
  cbn [processDocument].
  apply keepsVisited_bind; [now apply extractDirectives_keepsVisited|].
  intros e1 d. apply keepsVisited_bind; [now apply loadIncludes_keepsVisited|].
  intros e2 docs. apply finishDocument_keepsVisited.
Qed.

Lemma processDocument_S (w : World) (fuel : nat) (doc : Document) (e : TemplateEngine) :
  processDocument w (S fuel) doc e
  = runBind (extractDirectives w (processDocument w fuel) (Nodes doc) noDirectives e)
      (fun e d =>
         runBind (loadIncludes w (processDocument w fuel) (includeFiles d) (allDocs d) e)
           (fun e allDocs => finishDocument fuel d allDocs e)).
Proof. reflexivity. Qed.

(* ===================================================================== *)
(** * Patches write into shared blocks *)
(* ===================================================================== *)

(** A one-segment path without a selector is a write into the map the
    block refers to, whoever else refers to it. *)
Lemma applyPatchToBlock_sets_in_place (st : Shared.Store) (block : Shared.loc)
    (entries : list (string * Shared.SValue)) (key : string) (value : Shared.SValue) :
  Shared.maps st !! block = Some entries -> Contains key "[" = false ->
  Shared.maps (Shared.applyPatchToBlock st block [key] value) !! block
  = Some (mapSet key value entries).
Proof.
  intros Hm Hk. cbn [Shared.applyPatchToBlock]. rewrite Hm, Hk.
  unfold Shared.setMap. cbn [Shared.maps]. apply lookup_insert_eq.
Qed.

(** C3 fails on a template that patches a block of its own.  The template
    parses to the node [server] and the patch node; [processDocument] keeps
    the node [server] with its Block, merges it unchanged into the final
    document and applies the patch [server.host].  On the store, with the
    node of the input document as parsed: [applyPatches] returns the nodes
    with the very same references, the map those references lead to has
    [host] set to the patched value, and so the input document, read after
    the call, no longer holds what it held before. *)
Theorem patch_writes_into_the_input_document :
  parse patchedTemplate = Ok (Some patchedDocument, None)
  /\ (forall w,
         exists e, ProcessTemplateFromReader w 3 (stringReader patchedTemplate)
                                             NewTemplateEngine
                   = Done e (mkDocument [mkNode "server" EmptyString
                                                (VBlock [("host", VString "example.com")])]))
  /\ let '(input, st0) := Shared.allocNodes patchedOwnNodes Shared.emptyStore in
     let '(st1, result) :=
       Shared.applyPatches st0 input
         [Shared.mkSNode "server.host" EmptyString (Shared.SString "example.com")] in
     Shared.documentContents 3 st0 input = Some (mkDocument patchedOwnNodes)
     /\ result = input
     /\ Shared.documentContents 3 st1 input
        = Some (mkDocument [mkNode "server" EmptyString
                                   (VBlock [("host", VString "example.com")])])
     /\ Shared.documentContents 3 st1 input <> Shared.documentContents 3 st0 input.
Proof.
  split; [reflexivity|]. split.
  - intros w. eexists. vm_compute. reflexivity.
  - vm_compute. repeat split. discriminate.
Qed.

(* ===================================================================== *)
(** * Round trips of the line classifier and of inline lists *)
(* ===================================================================== *)

Lemma drop_str_append (a b : string) : drop_str (len a) (a +:+ b) = b.
Proof. induction a as [|d r IH]; simpl; [apply drop_str_0 | exact IH]. Qed.

Lemma HasPrefix_append (a b : string) : HasPrefix (a +:+ b) a = true.
Proof.
  induction a as [|d r IH]; simpl; [reflexivity|].
  now rewrite Ascii.eqb_refl, IH.
Qed.

Lemma HasSuffix_append (a b : string) : HasSuffix (a +:+ b) b = true.
Proof.
  unfold HasSuffix. rewrite len_append.
  replace (len a + len b - len b) with (len a) by lia.
  rewrite drop_str_append, String.eqb_refl, andb_true_r.
  apply Nat.leb_le. lia.
Qed.

Lemma TrimSuffix_append (a b : string) : TrimSuffix (a +:+ b) b = a.
Proof.
  unfold TrimSuffix. rewrite HasSuffix_append, len_append.
  replace (len a + len b - len b) with (len a) by lia.
  apply take_str_append.
Qed.

Lemma plainByte_starts (c : ascii) (r : string) :
  plainByte c = true -> startsWithSpace (String c r) = false.
Proof.
  unfold plainByte. intros H. apply andb_true_iff in H as [Hs Hn].
  apply negb_true_iff in Hs. apply N.ltb_lt in Hn.
  assert (H2 : forall c2, isSpace2 c c2 = false).
  { intros c2. unfold isSpace2. destruct (N.eqb_spec (byteN c) 194); [lia | reflexivity]. }
  assert (H3 : forall c2 c3, isSpace3 c c2 c3 = false).
  { intros c2 c3. unfold isSpace3. cbv zeta.
    destruct (N.eqb_spec (byteN c) 225); [lia|].
    destruct (N.eqb_spec (byteN c) 226); [lia|].
    destruct (N.eqb_spec (byteN c) 227); [lia | reflexivity]. }
  simpl. rewrite Hs. destruct r as [|c2 [|c3 r3]]; simpl; rewrite ?H2, ?H3; reflexivity.
Qed.

Lemma plainByte_ends (c : ascii) (r : string) :
  plainByte c = true -> startsWithSpaceRev (String c r) = false.
Proof.
  unfold plainByte. intros H. apply andb_true_iff in H as [Hs Hn].
  apply negb_true_iff in Hs. apply N.ltb_lt in Hn.
  assert (H2 : forall c2, isSpace2 c2 c = false).
  { intros c2. unfold isSpace2.
    destruct (N.eqb_spec (byteN c) 133); [lia|].
    destruct (N.eqb_spec (byteN c) 160); [lia|]. apply andb_false_r. }
  assert (H3 : forall c2 c3, isSpace3 c3 c2 c = false).
  { intros c2 c3. unfold isSpace3. cbv zeta.
    destruct (N.eqb_spec (byteN c) 128); [lia|].
    destruct (N.leb_spec 128 (byteN c)); [lia|].
    destruct (N.eqb_spec (byteN c) 168); [lia|].
    destruct (N.eqb_spec (byteN c) 169); [lia|].
    destruct (N.eqb_spec (byteN c) 175); [lia|].
    destruct (N.eqb_spec (byteN c) 159); [lia|].
    cbn [andb orb]. rewrite !andb_false_r. reflexivity. }
  simpl. rewrite Hs. destruct r as [|c2 [|c3 r3]]; simpl; rewrite ?H2, ?H3; reflexivity.
Qed.

(** A string between two plain bytes is trimmed already. *)
Lemma TrimSpace_plain_ends (c1 c2 : ascii) (mid : string) :
  plainByte c1 = true -> plainByte c2 = true ->
  TrimSpace (String c1 (mid +:+ String c2 EmptyString))
  = String c1 (mid +:+ String c2 EmptyString).
Proof.
  intros H1 H2. unfold TrimSpace.
  rewrite (TrimLeftSpace_fixed _ (plainByte_starts c1 _ H1)).
  unfold TrimRightSpace.
  change (String c1 (mid +:+ String c2 EmptyString))
    with (String c1 mid +:+ String c2 EmptyString).
  rewrite rev_str_append.
  change (rev_str (String c2 EmptyString) +:+ rev_str (String c1 mid))
    with (String c2 (rev_str (String c1 mid))).
  rewrite (trimLeftSpaceRev_fixed _ (plainByte_ends c2 _ H2)).
  change (String c2 (rev_str (String c1 mid)))
    with (rev_str (String c2 EmptyString) +:+ rev_str (String c1 mid)).
  now rewrite <- rev_str_append, rev_str_involutive.
Qed.

Lemma TrimSpace_space_l (s : string) : TrimSpace (String " " s) = TrimSpace s.
Proof. reflexivity. Qed.

Lemma len_Split (s : string) (c : ascii) : List.length (Split s c) = S (countByte c s).
Proof.
  induction s as [|d r IH]; simpl; [reflexivity|].
  destruct (Ascii.eqb d c); simpl; [now rewrite IH|].
  pose proof (Split_nonempty r c). destruct (Split r c); [congruence | exact IH].
Qed.

Lemma byteIn_append (c : ascii) (a b : string) :
  byteIn c (a +:+ b) = byteIn c a || byteIn c b.
Proof. induction a as [|d r IH]; simpl; [reflexivity|]. now rewrite IH, orb_assoc. Qed.

(** Splitting at the commas what was joined with comma and space gives the
    pieces back, all but the first with the space in front. *)
Lemma Split_Join_comma_space (items : list string) :
  Forall (fun item => byteIn ","%char item = false) items ->
  forall pre, byteIn ","%char pre = false ->
    Split (pre +:+ Join items ", ") ","%char
    = match items with
      | [] => [pre]
      | h :: t => (pre +:+ h) :: List.map (String " "%char) t
      end.
Proof.
  induction 1 as [|h t Hh Ht IH]; intros pre Hpre.
  - simpl. rewrite append_empty_r. now apply Split_without_sep.
  - destruct t as [|h2 t'].
    + simpl. apply Split_without_sep. now rewrite byteIn_append, Hpre, Hh.
    + change (Join (h :: h2 :: t') ", ")
        with (h +:+ String ","%char (" " +:+ Join (h2 :: t') ", ")).
      rewrite <- append_assoc.
      rewrite Split_cons_piece by now rewrite byteIn_append, Hpre, Hh.
      f_equal. rewrite (IH " " eq_refl). reflexivity.
Qed.

(** X1. An inline list written as its items between brackets, separated by
    comma and space, parses back to those items, when no item is empty,
    contains a comma or has white space at its ends. *)
Theorem parseInlineList_round_trip (items : list string)
    (Hne : items <> [])
    (Hitems : Forall (fun item => item <> EmptyString /\ byteIn ","%char item = false
                                  /\ TrimSpace item = item) items) :
  parseInlineList ("[" +:+ Join items ", " +:+ "]") = Ok (List.map VString items).
Proof.
  rewrite parseInlineList_ok. f_equal. f_equal. unfold inlineItems.
  change ("[" +:+ Join items ", " +:+ "]")
    with (String "["%char (Join items ", " +:+ String "]"%char EmptyString)).
  rewrite (TrimSpace_plain_ends "[" "]" _ eq_refl eq_refl).
  change (TrimPrefix (String "["%char (Join items ", " +:+ String "]"%char EmptyString)) "[")
    with (Join items ", " +:+ "]").
  rewrite TrimSuffix_append.
  destruct items as [|h t]; [congruence|].
  inversion Hitems as [|? ? (Hh & Hc & Ht) Hrest]; subst.
  assert (Hsplit := Split_Join_comma_space (h :: t)
                      (Forall_impl _ _ _ Hitems (fun _ H => proj1 (proj2 H)))
                      EmptyString eq_refl).
  cbn [String.append] in Hsplit.
  destruct (String.eqb_spec (Join (h :: t) ", ") EmptyString) as [He|_].
  { destruct h; [congruence|]. destruct t; discriminate. }
  rewrite Hsplit. cbn [List.map]. rewrite Ht. f_equal.
  clear Hsplit Hne Hitems. induction Hrest as [|x xs (_ & _ & Hx) _ IH]; [reflexivity|].
  cbn [List.map]. now rewrite TrimSpace_space_l, Hx, IH.
Qed.

Lemma parseInlineList_round_trip_witness :
  parseInlineList ("[" +:+ Join ["time"; "id"; "faker"] ", " +:+ "]")
  = Ok (List.map VString ["time"; "id"; "faker"]).
Proof.
  apply parseInlineList_round_trip; [discriminate|].
  repeat constructor; discriminate.
Defined.

(** X2. An inline list splits at every comma, quoted or not: the text
    between the brackets, if it is not empty, gives one item more than it
    has commas, and the empty text gives none; every item is a scalar
    without white space at its ends.  A text without a comma gives one
    item, itself trimmed: so a blank text between the brackets, which is
    not the empty text, gives one item, the empty string. *)
Theorem parseInlineList_splits_at_every_comma (line : string) :
  let interior := TrimSuffix (TrimPrefix (TrimSpace line) "[") "]" in
  exists items,
    parseInlineList line = Ok (List.map VString items)
    /\ List.length items
       = (if String.eqb interior EmptyString then 0
          else S (countByte ","%char interior))
    /\ Forall (fun item => TrimSpace item = item) items
    /\ (interior <> EmptyString -> byteIn ","%char interior = false ->
        items = [TrimSpace interior]).
Proof.
  intros interior. exists (inlineItems line). split; [apply parseInlineList_ok|].
  unfold inlineItems. fold interior.
  destruct (String.eqb_spec interior EmptyString) as [He|Hne].
  { split; [reflexivity|]. split; [constructor | congruence]. }
  split; [now rewrite List.length_map, len_Split|].
  split.
  - apply List.Forall_forall. intros item Hin.
    apply List.in_map_iff in Hin as (x & <- & _). apply TrimSpace_idempotent.
  - intros _ Hcomma. now rewrite (Split_without_sep interior "," Hcomma).
Qed.

Lemma parseInlineList_splits_at_every_comma_witness :
  exists items,
    parseInlineList "[ ]" = Ok (List.map VString items) /\ items = [EmptyString].
Proof.
  destruct (parseInlineList_splits_at_every_comma "[ ]") as (items & Hok & _ & _ & Hone).
  exists items. split; [exact Hok|]. apply Hone; [discriminate | reflexivity].
Defined.

(** X3. A key part splits at its first ['!']: a key without ['!'] followed
    by ['!'] and an annotation gives back that key and that annotation,
    whatever the annotation holds, and a key part without ['!'] is the key
    with the empty annotation. *)
Theorem parseKeyAndType_round_trip (key typeAnnotation : string)
    (Hkey : byteIn "!"%char key = false) :
  parseKeyAndType (key +:+ "!" +:+ typeAnnotation) = (key, typeAnnotation)
  /\ parseKeyAndType key = (key, EmptyString).
Proof.
  unfold parseKeyAndType. split.
  - change (key +:+ "!" +:+ typeAnnotation) with (key +:+ String "!"%char typeAnnotation).
    rewrite (Index_byte_first "!" key typeAnnotation Hkey), take_str_append.
    f_equal. replace (len key + 1) with (len (key +:+ "!")) by (rewrite len_append; reflexivity).
    change (key +:+ String "!"%char typeAnnotation) with (key +:+ "!" +:+ typeAnnotation).
    rewrite <- append_assoc. apply drop_str_append.
  - now rewrite (Index_byte_none "!" key Hkey).
Qed.

Lemma parseKeyAndType_round_trip_witness :
  parseKeyAndType ("port" +:+ "!" +:+ "int!x") = ("port", "int!x")
  /\ parseKeyAndType "port" = ("port", EmptyString).
Proof. apply parseKeyAndType_round_trip. reflexivity. Defined.

(** X4. A line annotated [quoted] is a scalar whatever its value part is,
    an opening brace or bracket included: no line is read for it, its
    annotation becomes [string], and its text begins and ends with a
    double quote, being the value part itself when that is so delimited
    already and the value part between two new quotes otherwise. *)
Theorem quoted_line_is_a_delimited_scalar
    (p : Parser) (fuel : nat)
    (pb : Scanner -> Outcome (Block * Scanner))
    (pl : Scanner -> Outcome (list Value * Scanner)) (sc : Scanner) (line : string)
    (Hquoted : lineType line = "quoted") :
  exists text,
    parseLine p fuel pb pl sc line = Ok (mkNode (lineKey line) "string" (VString text), sc)
    /\ HasPrefix text dquote = true /\ HasSuffix text dquote = true
    /\ (text = lineValPart line \/ text = dquote +:+ lineValPart line +:+ dquote).
Proof.
  rewrite parseLine_eq, Hquoted. cbn [String.eqb Ascii.eqb Bool.eqb andb].
  eexists. split; [reflexivity|].
  destruct (HasPrefix (lineValPart line) dquote) eqn:Ep;
    destruct (HasSuffix (lineValPart line) dquote) eqn:Es; cbn [negb orb];
    try (split; [reflexivity|]; split; [|now right]; rewrite <- append_assoc;
         apply HasSuffix_append).
  split; [exact Ep|]. split; [exact Es | now left].
Qed.

Lemma quoted_line_is_a_delimited_scalar_witness :
  exists text,
    parseLine NewParser 1 (parseBlock NewParser 1) (parseList NewParser 1)
              (mkScanner ["host x"; "}"] 1 None) "server!quoted {"
    = Ok (mkNode "server" "string" (VString text), mkScanner ["host x"; "}"] 1 None)
    /\ HasPrefix text dquote = true /\ HasSuffix text dquote = true
    /\ (text = "{" \/ text = dquote +:+ "{" +:+ dquote).
Proof.
  exact (quoted_line_is_a_delimited_scalar NewParser 1 (parseBlock NewParser 1)
           (parseList NewParser 1) (mkScanner ["host x"; "}"] 1 None)
           "server!quoted {" eq_refl).
Defined.

(** X5. Stripping undoes quoting: a text put between two double quotes
    comes back as it was, whatever it holds; a text that does not both
    begin and end with a double quote, or is a lone quote, is left as it is. *)
Theorem stripSurroundingQuotes_inverts_quoting (s : string) :
  stripSurroundingQuotes (dquote +:+ s +:+ dquote) = s
  /\ (HasPrefix s dquote && HasSuffix s dquote = false -> stripSurroundingQuotes s = s)
  /\ stripSurroundingQuotes dquote = dquote.
Proof.
  split; [|split; [|reflexivity]].
  - unfold stripSurroundingQuotes.
    assert (Hlen : len (dquote +:+ s +:+ dquote) = S (S (len s))).
    { rewrite !len_append. simpl. lia. }
    rewrite Hlen. cbn [Nat.leb]. rewrite (HasPrefix_append dquote (s +:+ dquote)).
    rewrite <- append_assoc, HasSuffix_append. cbn [andb].
    rewrite append_assoc. cbn [dquote String.append drop_str].
    replace (S (S (len s)) - 2) with (len s) by lia.
    apply take_str_append.
  - intros H. unfold stripSurroundingQuotes. rewrite <- andb_assoc, H.
    now rewrite andb_false_r.
Qed.

Lemma stripSurroundingQuotes_inverts_quoting_witness :
  HasPrefix "plain" dquote && HasSuffix "plain" dquote = false
  /\ stripSurroundingQuotes "plain" = "plain".
Proof.
  split; [reflexivity|].
  exact (proj1 (proj2 (stripSurroundingQuotes_inverts_quoting "plain")) eq_refl).
Defined.

Lemma IndexFunc_append (f : ascii -> bool) (a : string) (c : ascii) (b : string) :
  IndexFunc f a = None -> f c = true -> IndexFunc f (a +:+ String c b) = Some (len a).
Proof.
  induction a as [|d r IH]; simpl; intros Ha Hc; [now rewrite Hc|].
  destruct (f d); [discriminate|].
  destruct (IndexFunc f r); [discriminate|]. now rewrite (IH eq_refl Hc).
Qed.

(** What trimming leaves is a piece of the string. *)
Lemma TrimSpace_piece (s : string) : exists pre suf, s = pre +:+ TrimSpace s +:+ suf.
Proof.
  unfold TrimSpace. destruct (TrimLeftSpace_spec s) as (pre & Hpre & _).
  destruct (TrimRightSpace_prefix (TrimLeftSpace s)) as (suf & Hsuf).
  exists pre, suf. now rewrite <- Hsuf.
Qed.

Lemma byteIn_TrimSpace (c : ascii) (s : string) :
  byteIn c s = false -> byteIn c (TrimSpace s) = false.
Proof.
  intros H. destruct (TrimSpace_piece s) as (pre & suf & Hs).
  rewrite Hs, !byteIn_append in H.
  apply orb_false_iff in H as [_ H]. now apply orb_false_iff in H as [H _].
Qed.

(** X6. A key token, a space and a value split back into key and value.
    For a line already trimmed whose key token has no space or tab: in
    traditional mode the key is the token and the value is the rest,
    trimmed and unquoted; in line-oriented mode (the token ends in a colon
    and has no ["://"]) the key is the token without its colon and, when
    the value has no ['#'], the value is again the rest, trimmed and
    unquoted. *)
Theorem splitKeyValue_round_trip (key value : string)
    (Hkey : IndexFunc isSpaceOrTab key = None)
    (Htrim : TrimSpace (key +:+ " " +:+ value) = key +:+ " " +:+ value) :
  (HasSuffix key ":" && negb (Contains key "://") = false ->
   splitKeyValue (key +:+ " " +:+ value)
   = (key, stripSurroundingQuotes (TrimSpace value), false))
  /\ (HasSuffix key ":" && negb (Contains key "://") = true ->
      byteIn "#"%char value = false ->
      splitKeyValue (key +:+ " " +:+ value)
      = (TrimSuffix key ":", stripSurroundingQuotes (TrimSpace value), true)).
Proof.
  assert (Hend : keyEndOf (key +:+ " " +:+ value) = len key).
  { unfold keyEndOf.
    change (key +:+ " " +:+ value) with (key +:+ String " "%char value).
    now rewrite (IndexFunc_append isSpaceOrTab key " " value Hkey eq_refl). }
  assert (Hlt : (len key <? len (key +:+ " " +:+ value))%nat = true).
  { apply Nat.ltb_lt. rewrite !len_append. simpl. lia. }
  unfold splitKeyValue. rewrite Htrim, Hend, take_str_append, drop_str_append, Hlt.
  change (TrimSpace (" " +:+ value)) with (TrimSpace value).
  split; intros Hmode; rewrite Hmode; [reflexivity|].
  intros Hhash. now rewrite (Index_byte_none "#" _ (byteIn_TrimSpace "#" value Hhash)).
Qed.

Lemma splitKeyValue_round_trip_witness :
  splitKeyValue ("name:" +:+ " " +:+ "John  Doe") = ("name", "John  Doe", true).
Proof.
  exact (proj2 (splitKeyValue_round_trip "name:" "John  Doe" eq_refl eq_refl)
               eq_refl eq_refl).
Defined.

(* ===================================================================== *)
(** * The errors of a parse *)
(* ===================================================================== *)

Lemma parseLintDirective_eq (fuel : nat) (sc : Scanner) (line : string) :
  parseLintDirective NewParser fuel sc (TrimSpace line)
  = if String.eqb (TrimSpace (TrimPrefix (TrimSpace line) "!lint")) "{" then
      '(block, scanner) ← wrapErr EInvalidLint (parseBlock NewParser fuel sc);
      Ok (mkNode "_lint" "directive" (VBlock block), scanner)
    else Fail ELintRequiresBlock.
Proof. unfold parseLintDirective. now rewrite TrimSpace_idempotent. Qed.

(** How the top-level loop ends on input without a negative dedent: at
    the end of input with the nodes, or at a directive line with one of
    the two directive errors under that line's number. *)
Lemma parseNodesLoop_ends (fuel : nat) :
  forall sc nodes, List.length (pending sc) < fuel ->
    Forall (fun l => negativeDedent l = false) (pending sc) ->
    (exists ns sc', parseNodesLoop NewParser fuel sc nodes = Ok (ns, sc')
                    /\ advanced sc sc' /\ pending sc' = [])
    \/ (exists k line e,
           pending sc !! k = Some line /\ isDirectiveLine line = true
           /\ (e = EUseRequiresList \/ e = ELintRequiresBlock)
           /\ parseNodesLoop NewParser fuel sc nodes
              = Fail (EAtLine (lineNum sc + S k) e)).
Proof.
  induction fuel as [|fuel IH]; intros sc nodes Hlen Hsafe; [lia|].
  cbn [parseNodesLoop]. destruct (pending sc) as [|l rest] eqn:E.
  { left. rewrite (NextLine_nil sc E). run.
    eexists _, _. split; [reflexivity|]. split; [apply advanced_refl | exact E]. }
  rewrite (NextLine_cons sc l rest E). run.
  pose proof (advanced_next sc l rest E) as Hadv.
  set (sc1 := mkScanner rest (S (lineNum sc)) (readErr sc)) in *.
  inversion Hsafe as [|? ? Hl Hrest]; subst.
  assert (Hlen1 : List.length (pending sc1) < fuel) by (simpl in *; lia).
  assert (Hafter : forall sc2 nodes', advanced sc1 sc2 ->
            (exists ns sc', parseNodesLoop NewParser fuel sc2 nodes' = Ok (ns, sc')
                            /\ advanced sc sc' /\ pending sc' = [])
            \/ (exists k line e,
                   (l :: rest) !! k = Some line /\ isDirectiveLine line = true
                   /\ (e = EUseRequiresList \/ e = ELintRequiresBlock)
                   /\ parseNodesLoop NewParser fuel sc2 nodes'
                      = Fail (EAtLine (lineNum sc + S k) e))).
  { intros sc2 nodes' H12.
    destruct (IH sc2 nodes') as [(ns & sc' & Hr & Hadv' & Hend)|(k & line & e & Hk & Hd & He & Hr)].
    { pose proof (advanced_length _ _ H12). lia. }
    { eapply advanced_Forall; [exact H12 | exact Hrest]. }
    - left. exists ns, sc'. split; [exact Hr|]. split; [|exact Hend].
      eapply advanced_trans; [exact Hadv|]. eapply advanced_trans; eauto.
    - right. destruct H12 as [(read & Hread & Hnum) _]. cbn [pending lineNum sc1] in *.
      exists (S (List.length read + k)), line, e.
      split; [|split; [exact Hd|split; [exact He|]]].
      + rewrite Hread.
        change ((read ++ pending sc2) !! (List.length read + k) = Some line).
        rewrite lookup_app_r by lia.
        now replace (List.length read + k - List.length read) with k by lia.
      + rewrite Hr, Hnum. do 2 f_equal. lia. }
  destruct (skipEmptyLine NewParser l || skipComment NewParser l).
  { apply Hafter, advanced_refl. }
  destruct (HasPrefix (TrimSpace l) "!use") eqn:Euse.
  { rewrite parseUseDirective_eq. cbv zeta.
    destruct (HasPrefix _ "["); run; [apply Hafter, advanced_refl|].
    right. exists 0, l, EUseRequiresList.
    split; [reflexivity|]. split; [unfold isDirectiveLine; now rewrite Euse|].
    split; [now left|]. do 2 f_equal. lia. }
  destruct (HasPrefix (TrimSpace l) "!lint") eqn:Elint.
  { rewrite parseLintDirective_eq.
    destruct (String.eqb _ "{").
    - destruct (parseBlock_total fuel sc1 Hlen1 Hrest) as (b & sc2 & Hb & H12).
      rewrite Hb. run. now apply Hafter.
    - run. right. exists 0, l, ELintRequiresBlock.
      split; [reflexivity|].
      split; [unfold isDirectiveLine; now rewrite Elint, orb_true_r|].
      split; [now right|]. do 2 f_equal. lia. }
  destruct (parseLine_total fuel (parseBlock NewParser fuel) (parseList NewParser fuel)
              sc1 Hlen1 (parseBlock_total fuel sc1 Hlen1 Hrest)
              (parseList_total fuel sc1 Hlen1 Hrest) l Hl)
    as (node & sc2 & Hn & H12).
  rewrite Hn. run. now apply Hafter.
Qed.

(** X7. On input without a multiline text annotated with a negative
    integer, [ParseDocument] returns the Document together with the
    reader's error, or no Document and a parse error; the parse error is
    always one of the two directive errors, under the 1-based number of a
    line of the input that begins with [!use] or [!lint].  No other line
    can make a parse fail, and a [!lint] block never fails inside. *)
Theorem parse_error_names_a_directive_line (lines : list string) (err : option Error)
    (Hsafe : Forall (fun l => negativeDedent l = false) lines) :
  (exists doc, ParseDocument NewParser (mkReader lines err) = Ok (Some doc, err))
  \/ (exists k line e,
         lines !! k = Some line /\ isDirectiveLine line = true
         /\ (e = EUseRequiresList \/ e = ELintRequiresBlock)
         /\ ParseDocument NewParser (mkReader lines err)
            = Ok (None, Some (EAtLine (S k) e))).
Proof.
  unfold ParseDocument, parseNodes. cbn [rdLines].
  destruct (parseNodesLoop_ends (S (List.length lines)) (NewScanner (mkReader lines err)) [])
    as [(ns & sc' & Hr & [_ Herr] & _)|(k & line & e & Hk & Hd & He & Hr)];
    [simpl; lia | assumption | |].
  - left. rewrite Hr. exists (mkDocument ns). now rewrite Herr.
  - right. exists k, line, e. rewrite Hr. now repeat split.
Qed.

Lemma parse_error_names_a_directive_line_witness :
  (exists doc, ParseDocument NewParser (mkReader ["name x"; "!lint { a 1 }"] None)
               = Ok (Some doc, None))
  \/ (exists k line e,
         ["name x"; "!lint { a 1 }"] !! k = Some line /\ isDirectiveLine line = true
         /\ (e = EUseRequiresList \/ e = ELintRequiresBlock)
         /\ ParseDocument NewParser (mkReader ["name x"; "!lint { a 1 }"] None)
            = Ok (None, Some (EAtLine (S k) e))).
Proof.
  apply parse_error_names_a_directive_line. repeat constructor.
Defined.

(* ===================================================================== *)
(** * Inline blocks *)
(* ===================================================================== *)

Lemma mapSet_Forall {A : Type} (P : string * A -> Prop) (k : string) (v : A)
    (m : list (string * A)) :
  P (k, v) -> Forall P m -> Forall P (mapSet k v m).
Proof.
  intros Hkv. induction 1 as [|[k' v'] m' Hh Ht IH]; simpl; [now constructor|].
  destruct (String.eqb k k'); constructor; assumption.
Qed.

Lemma Index_byte_take (c : ascii) (s : string) (i : nat) :
  Index s (String c EmptyString) = Some i -> byteIn c (take_str i s) = false.
Proof.
  revert i. induction s as [|d r IH]; intros i; simpl; [discriminate|].
  destruct (Ascii.eqb d c) eqn:E; simpl; [intros [= <-]; reflexivity|].
  destruct (Index r (String c EmptyString)) as [j|]; [|discriminate].
  intros [= <-]. simpl. now rewrite E, (IH j eq_refl).
Qed.

Lemma parseKeyAndType_key_has_no_bang (keyPart : string) :
  byteIn "!"%char (fst (parseKeyAndType keyPart)) = false.
Proof.
  unfold parseKeyAndType. destruct (Index keyPart "!") as [i|] eqn:E; cbn [fst].
  - now apply Index_byte_take.
  - clear -E. induction keyPart as [|d r IH]; simpl in *; [reflexivity|].
    destruct (Ascii.eqb d "!"); [discriminate|]. simpl in *.
    destruct (Index r "!"); [discriminate | now apply IH].
Qed.

(** X8. An inline block holds scalars only, under keys without ['!']: of
    each comma-separated part the text after the first ['!'] of the key
    token, the annotation, is dropped, and the value part is stored as it
    is, never parsed as a list or block. *)
Theorem parseInlineBlock_holds_scalars (s : string) :
  exists block,
    parseInlineBlock s = Ok block
    /\ Forall (fun kv => byteIn "!"%char (fst kv) = false /\ isScalar (snd kv) = true) block.
Proof.
  unfold parseInlineBlock. destruct (String.eqb _ EmptyString).
  { exists []. split; [reflexivity | constructor]. }
  eexists. split; [reflexivity|].
  generalize (Split (TrimSpace (TrimSuffix (TrimPrefix (TrimSpace s) "{") "}")) ",").
  intros parts.
  assert (H : forall (acc : Block),
             Forall (fun kv => byteIn "!"%char (fst kv) = false
                               /\ isScalar (snd kv) = true) acc ->
             Forall (fun kv => byteIn "!"%char (fst kv) = false
                               /\ isScalar (snd kv) = true)
               (fold_left
                  (fun block part =>
                     let part := TrimSpace part in
                     if String.eqb part EmptyString then block
                     else
                       let '(keyPart, valPart, _) := splitKeyValue part in
                       let '(key, _) := parseKeyAndType keyPart in
                       mapSet key (VString valPart) block)
                  parts acc)).
  { induction parts as [|part rest IH]; intros acc Hacc; [exact Hacc|].
    cbn [fold_left]. apply IH. cbv zeta.
    destruct (String.eqb (TrimSpace part) EmptyString); [exact Hacc|].
    destruct (splitKeyValue (TrimSpace part)) as [[keyPart valPart] lo].
    pose proof (parseKeyAndType_key_has_no_bang keyPart) as Hk.
    destruct (parseKeyAndType keyPart) as [key ty].
    apply mapSet_Forall; [split; [exact Hk | reflexivity] | exact Hacc]. }
  apply H. constructor.
Qed.

(* ===================================================================== *)
(** * Merging: lists without repeated strings, documents, blocks *)
(* ===================================================================== *)

Lemma elem_of_stringItems (s : string) (l : list Value) :
  s ∈ stringItems l <-> VString s ∈ l.
Proof.
  unfold stringItems. induction l as [|v l IH]; simpl.
  - split; intros H; inversion H.
  - rewrite elem_of_app, IH, (elem_of_cons l).
    destruct v; cbn [List.app]; rewrite ?list_elem_of_singleton, ?elem_of_nil;
      split; (intros [H|H]; [|now right]); try discriminate; try contradiction;
      left; congruence.
Qed.

Lemma stringItems_app (a b : list Value) :
  stringItems (a ++ b) = stringItems a ++ stringItems b.
Proof. unfold stringItems. now rewrite flat_map_app. Qed.

(** The loop of [uniqueList], from any state in which [seen] holds the
    strings of [result], each once. *)
Lemma uniqueStep_fold (l : list Value) :
  forall seen result,
    (forall s, s ∈ seen <-> VString s ∈ result) -> NoDup (stringItems result) ->
    let r := fold_left uniqueStep l (seen, result) in
    (forall s, s ∈ fst r <-> VString s ∈ snd r)
    /\ NoDup (stringItems (snd r))
    /\ (forall v, v ∈ snd r <-> v ∈ result \/ v ∈ l)
    /\ List.filter (fun v => negb (isScalar v)) (snd r)
       = List.filter (fun v => negb (isScalar v)) result
         ++ List.filter (fun v => negb (isScalar v)) l.
Proof.
  induction l as [|x l IH]; intros seen result Hseen Hnd; cbn [fold_left].
  { cbn [fst snd]. split; [exact Hseen|]. split; [exact Hnd|].
    split; [|now rewrite List.app_nil_r].
    intros v. rewrite elem_of_nil. tauto. }
  assert (Hother : isScalar x = false ->
            uniqueStep (seen, result) x = (seen, result ++ [x]) ->
            let r := fold_left uniqueStep l (uniqueStep (seen, result) x) in
            (forall s, s ∈ fst r <-> VString s ∈ snd r)
            /\ NoDup (stringItems (snd r))
            /\ (forall v, v ∈ snd r <-> v ∈ result \/ v ∈ x :: l)
            /\ List.filter (fun v => negb (isScalar v)) (snd r)
               = List.filter (fun v => negb (isScalar v)) result
                 ++ List.filter (fun v => negb (isScalar v)) (x :: l)).
  { intros Hx ->.
    destruct (IH seen (result ++ [x])) as (H1 & H2 & H3 & H4).
    - intros s. rewrite elem_of_app, list_elem_of_singleton, Hseen.
      split; [tauto|]. intros [H|H]; [exact H|]. subst x. discriminate.
    - rewrite stringItems_app.
      replace (stringItems [x]) with (@nil string) by (now destruct x).
      now rewrite List.app_nil_r.
    - split; [exact H1|]. split; [exact H2|]. split.
      + intros v. rewrite H3, elem_of_app, list_elem_of_singleton, elem_of_cons. tauto.
      + rewrite H4, List.filter_app. cbn [List.filter]. rewrite Hx. cbn [negb].
        now rewrite <- List.app_assoc. }
  destruct x as [str| | | | |]; try (apply Hother; reflexivity).
  cbn [uniqueStep]. destruct (bool_decide_reflect (str ∈ seen)) as [Hin|Hnew].
  - destruct (IH seen result Hseen Hnd) as (H1 & H2 & H3 & H4).
    split; [exact H1|]. split; [exact H2|]. split.
    + intros v. rewrite H3, elem_of_cons. split; [tauto|].
      intros [H|[H|H]]; [now left | left; subst v; now apply Hseen | now right].
    + exact H4.
  - destruct (IH ({[str]} ∪ seen) (result ++ [VString str])) as (H1 & H2 & H3 & H4).
    + intros s. rewrite elem_of_union, elem_of_singleton, elem_of_app,
        list_elem_of_singleton, Hseen.
      split; [intros [H|H]; [subst s; now right | now left]
             | intros [H|H]; [now right | left; congruence]].
    + rewrite stringItems_app. apply NoDup_app. split; [exact Hnd|].
      split; [|apply NoDup_singleton].
      intros s Hs. cbn. rewrite list_elem_of_singleton. intros ->.
      apply Hnew, Hseen, elem_of_stringItems, Hs.
    + split; [exact H1|]. split; [exact H2|]. split.
      * intros v. rewrite H3, elem_of_app, list_elem_of_singleton, elem_of_cons. tauto.
      * rewrite H4, List.filter_app. cbn [List.filter isScalar negb].
        now rewrite List.app_nil_r.
Qed.

(** On a list whose strings are all different the loop drops nothing. *)
Lemma uniqueStep_fold_id (l : list Value) :
  forall seen result,
    NoDup (stringItems l) -> (forall s, s ∈ seen -> s ∉ stringItems l) ->
    snd (fold_left uniqueStep l (seen, result)) = result ++ l.
Proof.
  induction l as [|x l IH]; intros seen result Hnd Hfresh; cbn [fold_left].
  { now rewrite List.app_nil_r. }
  destruct x as [str| | | | |];
    try (cbn [uniqueStep]; rewrite (IH seen _ Hnd Hfresh), <- List.app_assoc; reflexivity).
  cbn [uniqueStep]. cbn in Hnd. apply NoDup_cons in Hnd as [Hstr Hnd].
  destruct (bool_decide_reflect (str ∈ seen)) as [Hin|Hnew].
  { exfalso. apply (Hfresh str Hin). cbn. apply elem_of_cons. now left. }
  rewrite IH, <- List.app_assoc; [reflexivity | exact Hnd |].
  intros s. rewrite elem_of_union, elem_of_singleton. intros [->|Hs]; [exact Hstr|].
  intros Hin. apply (Hfresh s Hs). cbn. apply elem_of_cons. now right.
Qed.

(** X9. [uniqueList] drops the repeated strings and nothing else: in its
    result no string occurs twice, every value of the list still occurs,
    the values that are no strings (blocks, lists) are all kept even when
    they repeat, and applying it again changes nothing. *)
Theorem uniqueList_drops_repeated_strings_only (lst : list Value) :
  NoDup (stringItems (uniqueList lst))
  /\ (forall v, v ∈ uniqueList lst <-> v ∈ lst)
  /\ List.filter (fun v => negb (isScalar v)) (uniqueList lst)
     = List.filter (fun v => negb (isScalar v)) lst
  /\ uniqueList (uniqueList lst) = uniqueList lst.
Proof.
  unfold uniqueList at 1 2 3.
  destruct (uniqueStep_fold lst ∅ []) as (_ & H2 & H3 & H4).
  { intros s. rewrite elem_of_empty, elem_of_nil. tauto. }
  { constructor. }
  change (snd (fold_left uniqueStep lst (∅, []))) with (uniqueList lst) in *.
  split; [exact H2|]. split.
  { intros v. rewrite H3, elem_of_nil. tauto. }
  split; [exact H4|].
  unfold uniqueList at 1. rewrite uniqueStep_fold_id; [reflexivity | exact H2 |].
  intros s Hs. now apply elem_of_empty in Hs.
Qed.

Lemma filter_all {A : Type} (f : A -> bool) (l : list A) :
  (forall x, In x l -> f x = true) -> List.filter f l = l.
Proof.
  induction l as [|x l IH]; intros H; simpl; [reflexivity|].
  rewrite (H x (or_introl eq_refl)), IH; [reflexivity|]. intros y Hy. apply H. now right.
Qed.

Lemma filter_none {A : Type} (f : A -> bool) (l : list A) :
  (forall x, In x l -> f x = false) -> List.filter f l = [].
Proof.
  induction l as [|x l IH]; intros H; simpl; [reflexivity|].
  rewrite (H x (or_introl eq_refl)). apply IH. intros y Hy. apply H. now right.
Qed.

(** Overlay nodes whose keys the base does not have pass through. *)
Lemma mergeOverlayNodes_disjoint (o : TemplateOptions) (ov : list Node) :
  forall nodes (baseMap : gmap string Node),
    (forall n, In n ov -> baseMap !! Key n = None) ->
    fold_left (mergeOverlayNode o) ov (nodes, baseMap) = (nodes ++ ov, baseMap).
Proof.
  induction ov as [|n ns IH]; intros nodes baseMap H; cbn [fold_left].
  { now rewrite List.app_nil_r. }
  cbn [mergeOverlayNode]. rewrite (H n (or_introl eq_refl)).
  rewrite IH, <- List.app_assoc; [reflexivity|]. intros m Hm. apply H. now right.
Qed.

Lemma mergeDocuments_empty_base (o : TemplateOptions) (overlay : Document) :
  mergeDocuments o (mkDocument []) overlay = overlay.
Proof.
  unfold mergeDocuments. cbn [Nodes fold_left].
  rewrite mergeOverlayNodes_disjoint by (intros; apply lookup_empty).
  cbn [List.app List.filter]. rewrite List.app_nil_r. now destruct overlay.
Qed.

(** X10. Documents with no key in common merge into the overlay's nodes
    followed by the base's nodes, all of them unchanged, whatever the
    strategies; in particular merging with the empty document, on either
    side, gives the other document back. *)
Theorem mergeDocuments_without_common_key (o : TemplateOptions) (base overlay : Document)
    (Hdisjoint : forall n, n ∈ Nodes overlay -> Key n ∉ List.map Key (Nodes base)) :
  Nodes (mergeDocuments o base overlay) = Nodes overlay ++ Nodes base
  /\ mergeDocuments o base (mkDocument []) = base
  /\ mergeDocuments o (mkDocument []) overlay = overlay.
Proof.
  assert (Hkeep : forall d : Document,
             List.filter
               (fun node => bool_decide
                  (is_Some (fold_left (fun m node => <[Key node := node]> m) (Nodes d)
                                      (∅ : gmap string Node) !! Key node)))
               (Nodes d) = Nodes d).
  { intros d. apply filter_all. intros n Hn. apply bool_decide_eq_true.
    apply baseMap_keys. right. now apply List.in_map. }
  split; [|split].
  - unfold mergeDocuments. rewrite mergeOverlayNodes_disjoint.
    + cbn [Nodes List.app]. now rewrite Hkeep.
    + intros n Hn. apply eq_None_not_Some. rewrite baseMap_keys.
      intros [[x Hx]|Hin]; [now rewrite lookup_empty in Hx|].
      apply (Hdisjoint n); now apply list_elem_of_In.
  - unfold mergeDocuments. cbn [Nodes fold_left List.app]. rewrite Hkeep. now destruct base.
  - apply mergeDocuments_empty_base.
Qed.

Lemma mergeDocuments_without_common_key_witness :
  Nodes (mergeDocuments (mkOptions "deep" "append" ".")
           (mkDocument [mkNode "a" EmptyString (VString "1")])
           (mkDocument [mkNode "b" "int" (VString "2")]))
  = [mkNode "b" "int" (VString "2"); mkNode "a" EmptyString (VString "1")].
Proof.
  refine (proj1 (mergeDocuments_without_common_key (mkOptions "deep" "append" ".")
                   (mkDocument [mkNode "a" EmptyString (VString "1")])
                   (mkDocument [mkNode "b" "int" (VString "2")]) _)).
  intros n Hn. apply list_elem_of_In in Hn. destruct Hn as [<-|[]].
  intros H. apply list_elem_of_In in H. destruct H as [H|[]]. discriminate H.
Defined.

Lemma mapGet_mapSet_eq {A : Type} (k : string) (v : A) (m : list (string * A)) :
  mapGet (mapSet k v m) k = Some v.
Proof.
  induction m as [|[k' v'] m IH]; simpl; [now rewrite String.eqb_refl|].
  destruct (String.eqb k k') eqn:E; simpl; [now rewrite String.eqb_refl | now rewrite E].
Qed.

Lemma mapGet_mapSet_ne {A : Type} (k k0 : string) (v : A) (m : list (string * A)) :
  k <> k0 -> mapGet (mapSet k0 v m) k = mapGet m k.
Proof.
  intros Hne. induction m as [|[k' v'] m IH]; simpl.
  - now apply String.eqb_neq in Hne as ->.
  - destruct (String.eqb k0 k') eqn:E; simpl.
    + apply String.eqb_eq in E. subst k'. now apply String.eqb_neq in Hne as ->.
    + now rewrite IH.
Qed.

Lemma mapGet_None {A : Type} (k : string) (m : list (string * A)) :
  ~ In k (List.map fst m) -> mapGet m k = None.
Proof.
  induction m as [|[k' v'] m IH]; simpl; [reflexivity|]. intros H.
  destruct (String.eqb k k') eqn:E.
  - apply String.eqb_eq in E. subst k'. exfalso. apply H. now left.
  - apply IH. intros Hin. apply H. now right.
Qed.

(** X11. Deep merge of two blocks, key by key: a key of the overlay holds
    the overlay's value, merged with the base's value when the base has
    the key; a key of the base alone keeps its value; there are no other
    keys.  (The overlay is a Go map: each of its keys occurs once.) *)
Theorem deep_merge_of_blocks_by_key (o : TemplateOptions) (baseBlock overlayBlock : Block)
    (Hdeep : MergeStrategy o = "deep")
    (Hmap : NoDup (List.map fst overlayBlock)) :
  exists merged,
    mergeValues o (VBlock baseBlock) (VBlock overlayBlock) = VBlock merged
    /\ forall k,
         mapGet merged k
         = match mapGet overlayBlock k with
           | Some v => Some (match mapGet baseBlock k with
                             | Some existing => mergeValues o existing v
                             | None => v
                             end)
           | None => mapGet baseBlock k
           end.
Proof.
  destruct o as [ms ls dir]. cbn [MergeStrategy] in Hdeep. subst ms.
  cbn [mergeValues MergeStrategy]. cbn [String.eqb Ascii.eqb Bool.eqb orb].
  eexists. split; [reflexivity|].
  revert baseBlock. induction overlayBlock as [|[k0 v0] m IH]; intros result k.
  { reflexivity. }
  cbn [List.map fst] in Hmap. apply NoDup_cons in Hmap as [Hk0 Hm].
  assert (Hk0' : ~ In k0 (List.map fst m)) by (intros Hin; apply Hk0; now apply list_elem_of_In).
  cbn [mapGet]. destruct (String.eqb k k0) eqn:E.
  - apply String.eqb_eq in E. subst k.
    destruct (mapGet result k0) as [existing|];
      rewrite (IH Hm), (mapGet_None k0 m Hk0'), mapGet_mapSet_eq; reflexivity.
  - apply String.eqb_neq in E.
    destruct (mapGet result k0) as [existing|];
      rewrite (IH Hm), (mapGet_mapSet_ne k k0 _ result E); reflexivity.
Qed.

Lemma deep_merge_of_blocks_by_key_witness :
  exists merged,
    mergeValues (mkOptions "deep" "append" ".")
      (VBlock [("host", VString "a"); ("port", VString "1")])
      (VBlock [("port", VString "2")]) = VBlock merged
    /\ forall k,
         mapGet merged k
         = match mapGet [("port", VString "2")] k with
           | Some v => Some (match mapGet [("host", VString "a"); ("port", VString "1")] k with
                             | Some existing =>
                                 mergeValues (mkOptions "deep" "append" ".") existing v
                             | None => v
                             end)
           | None => mapGet [("host", VString "a"); ("port", VString "1")] k
           end.
Proof.
  apply (deep_merge_of_blocks_by_key (mkOptions "deep" "append" ".")
           [("host", VString "a"); ("port", VString "1")] [("port", VString "2")]);
    [reflexivity | repeat constructor; intros H; inversion H].
Defined.

(* ===================================================================== *)
(** * What a patch changes *)
(* ===================================================================== *)




Lemma SplitN2_first (c : ascii) (a b : string) :
  byteIn c a = false -> SplitN2 (a +:+ String c b) c = [a; b].
Proof.
  induction a as [|d r IH]; simpl; intros H.
  - now rewrite Ascii.eqb_refl.
  - apply orb_false_iff in H as [Hd Hr]. now rewrite Hd, (IH Hr).
Qed.

(** X13. A path segment with a selector, [baseKey[selector]].  Only the
    selector [*] does anything, and only on a key that holds a List: a
    last segment puts the value in the place of every item, a segment
    before the last patches the items that are blocks and leaves the other
    items; the list keeps its length.  Any other selector (an index, a
    [name=value] pair) and any key that holds no List leave the block as it
    is. *)
Theorem patch_selector_star_only (block : Block) (baseKey selector : string)
    (rest : list string) (value : Value)
    (Hbase : byteIn "["%char baseKey = false) :
  (selector <> "*" ->
   applyPatchToBlock block ((baseKey +:+ "[" +:+ selector +:+ "]") :: rest) value = block)
  /\ ((forall lst, mapGet block baseKey <> Some (VList lst)) ->
      applyPatchToBlock block ((baseKey +:+ "[" +:+ selector +:+ "]") :: rest) value = block)
  /\ (forall lst, mapGet block baseKey = Some (VList lst) ->
        mapGet (applyPatchToBlock block [baseKey +:+ "[*]"] value) baseKey
        = Some (VList (List.map (fun _ => value) lst))
        /\ (rest <> [] ->
            mapGet (applyPatchToBlock block ((baseKey +:+ "[*]") :: rest) value) baseKey
            = Some (VList (List.map
                             (fun item => match item with
                                          | VBlock itemBlock =>
                                              VBlock (applyPatchToBlock itemBlock rest value)
                                          | _ => item
                                          end) lst)))).
Proof.
  assert (Hkey : forall sel,
             Contains (baseKey +:+ "[" +:+ sel +:+ "]") "[" = true
             /\ nth 0 (SplitN2 (baseKey +:+ "[" +:+ sel +:+ "]") "[") EmptyString = baseKey
             /\ TrimSuffix (nth 1 (SplitN2 (baseKey +:+ "[" +:+ sel +:+ "]") "[") EmptyString)
                           "]" = sel).
  { intros sel. change ("[" +:+ sel +:+ "]") with (String "["%char (sel +:+ "]")).
    unfold Contains. rewrite (Index_byte_first "[" baseKey _ Hbase).
    rewrite (SplitN2_first "[" baseKey _ Hbase). cbn [nth].
    now rewrite TrimSuffix_append. }
  split; [|split].
  - intros Hsel. cbn [applyPatchToBlock]. destruct (Hkey selector) as (-> & -> & ->).
    apply String.eqb_neq in Hsel. rewrite Hsel.
    now destruct (mapGet block baseKey) as [[]|].
  - intros Hlist. cbn [applyPatchToBlock]. destruct (Hkey selector) as (-> & -> & ->).
    destruct (mapGet block baseKey) as [[s|b|l|l|m|u]|]; try reflexivity.
    now destruct (Hlist l).
  - intros lst Hlst. change (baseKey +:+ "[*]") with (baseKey +:+ "[" +:+ "*" +:+ "]").
    split; [|intros Hrest]; cbn [applyPatchToBlock];
      destruct (Hkey "*") as (-> & -> & ->); rewrite Hlst;
      cbn [String.eqb Ascii.eqb Bool.eqb andb]; rewrite mapGet_mapSet_eq; [reflexivity|].
    destruct rest; [contradiction | reflexivity].
Qed.

Lemma patch_selector_star_only_witness :
  mapGet (applyPatchToBlock [("ports", VList [VString "1"; VString "2"])]
                            ["ports" +:+ "[*]"] (VString "0")) "ports"
  = Some (VList [VString "0"; VString "0"]).
Proof.
  exact (proj1 (proj2 (proj2 (patch_selector_star_only
                                [("ports", VList [VString "1"; VString "2"])]
                                "ports" "*" [] (VString "0") eq_refl))
                 [VString "1"; VString "2"] eq_refl)).
Defined.

Lemma applyPatchNodes_missing (nodes : list Node) (key : string) (rest : list string)
    (value : Value) :
  key ∉ List.map Key nodes -> applyPatchNodes nodes key rest value = nodes.
Proof.
  induction nodes as [|n ns IH]; intros H; cbn [applyPatchNodes]; [reflexivity|].
  cbn [List.map] in H. apply not_elem_of_cons in H as [Hn Hns].
  assert (String.eqb (Key n) key = false) as -> by (apply String.eqb_neq; congruence).
  now rewrite IH.
Qed.

Lemma applyPatchNodes_first (pre : list Node) (node : Node) (post : list Node)
    (rest : list string) (value : Value) :
  Key node ∉ List.map Key pre ->
  applyPatchNodes (pre ++ node :: post) (Key node) rest value
  = pre ++ applyPatchNodes [node] (Key node) rest value ++ post.
Proof.
  induction pre as [|n ns IH]; intros H.
  - cbn [List.app applyPatchNodes]. rewrite String.eqb_refl.
    destruct rest; [reflexivity|]. now destruct (Val node).
  - cbn [List.map] in H. apply not_elem_of_cons in H as [Hn Hns].
    cbn [List.app applyPatchNodes].
    assert (String.eqb (Key n) (Key node) = false) as ->
      by (apply String.eqb_neq; congruence).
    now rewrite IH.
Qed.

(** X14. Patches never add a node to the document: when the first
    segment of every patch key names no node, the patched document is the
    document.  A patch of one segment replaces the value of the first node
    of that key, keeping its key and type annotation, and touches no later
    node of the same key; a longer patch on a node whose value is no Block
    changes nothing. *)
Theorem patches_never_add_a_node (doc : Document) (patches : list Node)
    (Hmissing : Forall (fun patch =>
                          hd EmptyString (Split (Key patch) ".") ∉ List.map Key (Nodes doc))
                       patches) :
  applyPatches doc patches = doc
  /\ (forall pre node post value,
        Key node ∉ List.map Key pre ->
        applyPatchNodes (pre ++ node :: post) (Key node) [] value
        = pre ++ mkNode (Key node) (Typ node) value :: post)
  /\ (forall pre node post seg rest value,
        Key node ∉ List.map Key pre -> (forall b, Val node <> VBlock b) ->
        applyPatchNodes (pre ++ node :: post) (Key node) (seg :: rest) value
        = pre ++ node :: post).
Proof.
  split; [|split].
  - unfold applyPatches. destruct doc as [nodes]. cbn [Nodes] in *.
    induction Hmissing as [|patch ps Hp _ IH]; [reflexivity|].
    cbn [fold_left]. unfold applyPatchPath at 2.
    destruct (Split (Key patch) ".") as [|key rest]; [exact IH|].
    cbn [hd Nodes] in Hp. now rewrite (applyPatchNodes_missing nodes key rest _ Hp).
  - intros pre node post value Hpre. rewrite (applyPatchNodes_first pre node post [] value Hpre).
    cbn [applyPatchNodes]. now rewrite String.eqb_refl.
  - intros pre node post seg rest value Hpre Hval.
    rewrite (applyPatchNodes_first pre node post (seg :: rest) value Hpre).
    cbn [applyPatchNodes]. rewrite String.eqb_refl.
    destruct (Val node) eqn:E; try reflexivity. now destruct (Hval b).
Qed.

Lemma patches_never_add_a_node_witness :
  applyPatches (mkDocument [mkNode "name" EmptyString (VString "x")])
               [mkNode "server.port" EmptyString (VString "80")]
  = mkDocument [mkNode "name" EmptyString (VString "x")].
Proof.
  refine (proj1 (patches_never_add_a_node
                   (mkDocument [mkNode "name" EmptyString (VString "x")])
                   [mkNode "server.port" EmptyString (VString "80")] _)).
  repeat constructor. cbn. intros H. apply list_elem_of_In in H.
  destruct H as [H|[]]. discriminate H.
Defined.

(* ===================================================================== *)
(** * Resolution of references *)
(* ===================================================================== *)

Lemma resolveValue_refFree (vs : gmap string Value) (fuel : nat) :
  forall v, refFree v = true -> depth v < fuel -> resolveValue vs fuel v = Ok v.
Proof.
  induction fuel as [|fuel IH]; intros v Hfree Hdepth; [lia|].
  destruct v as [s|b|l|l|m|u]; cbn [resolveValue]; try reflexivity.
  - cbn [refFree] in Hfree. now rewrite Hfree.
  - assert (Hb : mapOutcome (fun kv => val ← resolveValue vs fuel (snd kv); Ok (fst kv, val)) b
                 = Ok b).
    { cbn [refFree depth] in Hfree, Hdepth. apply Nat.succ_lt_mono in Hdepth.
      induction b as [|[k x] b IHb]; [reflexivity|].
      apply andb_true_iff in Hfree as [Hx Hrest].
      cbn [mapOutcome snd fst]. rewrite (IH x Hx) by lia. run.
      rewrite IHb; [reflexivity | exact Hrest | lia]. }
    rewrite Hb. reflexivity.
  - assert (Hl : mapOutcome (resolveValue vs fuel) l = Ok l).
    { cbn [refFree depth] in Hfree, Hdepth. apply Nat.succ_lt_mono in Hdepth.
      induction l as [|x l IHl]; [reflexivity|].
      apply andb_true_iff in Hfree as [Hx Hrest].
      cbn [mapOutcome]. rewrite (IH x Hx) by lia. run.
      rewrite IHl; [reflexivity | exact Hrest | lia]. }
    rewrite Hl. reflexivity.
Qed.

Lemma Index_first_at (c : ascii) (pre p rest : string) :
  byteIn c pre = false ->
  Index (pre +:+ String c p +:+ rest) (String c p) = Some (len pre).
Proof.
  induction pre as [|d r IH]; intros H.
  - change (EmptyString +:+ String c p +:+ rest) with (String c p +:+ rest).
    destruct (String c p +:+ rest) eqn:E; [discriminate|].
    cbn [Index]. rewrite <- E.
    now rewrite (HasPrefix_append (String c p) rest).
  - simpl in H. apply orb_false_iff in H as [Hd Hr].
    change (String d r +:+ String c p +:+ rest) with (String d (r +:+ String c p +:+ rest)).
    cbn [Index HasPrefix]. rewrite Hd. cbn [andb]. now rewrite (IH Hr).
Qed.

Lemma drop_str_add (a b : string) (n : nat) :
  drop_str (len a + n) (a +:+ b) = drop_str n b.
Proof. induction a as [|d r IH]; simpl; [reflexivity | exact IH]. Qed.

Lemma varPathLen_append (name post : string) :
  varPathLen name = len name -> varPathLen post = 0 ->
  varPathLen (name +:+ post) = len name.
Proof.
  induction name as [|c r IH]; intros Hn Hp; [exact Hp|].
  simpl in *. destruct (isVarChar c || Ascii.eqb c "."); [|discriminate].
  f_equal. apply IH; [now injection Hn | exact Hp].
Qed.

Lemma eqb_len_ne (a b : string) : len a <> len b -> String.eqb a b = false.
Proof. intros H. apply String.eqb_neq. intros ->. now apply H. Qed.

(** The loop of the string case met at a reference to a name that is no
    variable: the reference is wrapped in markers, the string still holds
    it, three bytes further on, and the loop goes round again. *)
Lemma resolveRefs_unknown (vs : gmap string Value) (name : string) :
  varPathLen name = len name -> vs !! name = None ->
  forall fuel pre post,
    byteIn "$"%char pre = false -> varPathLen post = 0 ->
    resolveRefs vs fuel (pre +:+ "$vars." +:+ name +:+ post) = OutOfFuel.
Proof.
  intros Hname Hunknown. induction fuel as [|fuel IH]; intros pre post Hpre Hpost;
    [reflexivity|].
  cbn [resolveRefs].
  assert (Hidx : Index (pre +:+ "$vars." +:+ name +:+ post) "$vars." = Some (len pre))
    by (apply (Index_first_at "$" pre "vars." (name +:+ post) Hpre)).
  unfold Contains. rewrite Hidx. cbn [negb]. cbv zeta.
  assert (Hdrop : drop_str (len pre + 6) (pre +:+ "$vars." +:+ name +:+ post)
                  = name +:+ post) by (now rewrite drop_str_add).
  rewrite Hdrop, (varPathLen_append name post Hname Hpost).
  replace (len pre + 6 + len name - len pre) with (len ("$vars." +:+ name))
    by (rewrite len_append; simpl; lia).
  assert (Hdrop0 : drop_str (len pre) (pre +:+ "$vars." +:+ name +:+ post)
                   = ("$vars." +:+ name) +:+ post)
    by (now rewrite drop_str_append, append_assoc).
  rewrite Hdrop0, take_str_append.
  unfold TrimPrefix. rewrite (HasPrefix_append "$vars." name).
  rewrite (drop_str_append "$vars." name), Hunknown.
  assert (Hrep : Replace1 (pre +:+ "$vars." +:+ name +:+ post) ("$vars." +:+ name)
                          ("<<<" +:+ ("$vars." +:+ name) +:+ ">>>")
                 = (pre +:+ "<<<") +:+ "$vars." +:+ name +:+ (">>>" +:+ post)).
  { unfold Replace1.
    replace (pre +:+ "$vars." +:+ name +:+ post)
      with (pre +:+ String "$"%char ("vars." +:+ name) +:+ post)
      by (simpl; now rewrite ?append_assoc).
    change ("$vars." +:+ name) with (String "$"%char ("vars." +:+ name)).
    rewrite (Index_first_at "$" pre ("vars." +:+ name) post Hpre).
    rewrite take_str_append.
    replace (pre +:+ String "$"%char ("vars." +:+ name) +:+ post)
      with (pre +:+ (String "$"%char ("vars." +:+ name) +:+ post)) by reflexivity.
    rewrite drop_str_add, drop_str_append, !append_assoc. reflexivity. }
  rewrite Hrep.
  rewrite eqb_len_ne by (rewrite !len_append; simpl; lia).
  apply IH; [rewrite byteIn_append, Hpre; reflexivity | reflexivity].
Qed.

(** X15. A reference to a name that is no variable never resolves.  For
    a string that has, after text without ['$'], the reference
    [$vars.name] with [name] not among the variables, [resolveValue] does
    not return, however much fuel the model is given: the marker put
    around the reference still contains it, so the loop finds it again,
    wraps it again, and the string grows without end. *)
Theorem unknown_variable_reference_never_resolves (vs : gmap string Value)
    (pre name post : string)
    (Hpre : byteIn "$"%char pre = false)
    (Hname : varPathLen name = len name)
    (Hpost : varPathLen post = 0)
    (Hunknown : vs !! name = None) :
  forall fuel,
    resolveValue vs fuel (VString (pre +:+ "$vars." +:+ name +:+ post)) = OutOfFuel.
Proof.
  intros [|fuel]; [reflexivity|]. cbn [resolveValue].
  unfold Contains.
  rewrite (Index_first_at "$" pre "vars." (name +:+ post) Hpre). cbn [negb].
  now apply resolveRefs_unknown.
Qed.

Lemma unknown_variable_reference_never_resolves_witness :
  resolveValue (<["host" := VString "a"]> ∅) 1000
    (VString ("port " +:+ "$vars." +:+ "port" +:+ " open")) = OutOfFuel.
Proof.
  exact (unknown_variable_reference_never_resolves
           (<["host" := VString "a"]> ∅) "port " "port" " open"
           eq_refl eq_refl eq_refl eq_refl 1000).
Defined.
Lemma resolveVarsPass_refFree (vs : gmap string Value) (fuel : nat)
    (entries : list (string * Value)) :
  Forall (fun kv => refFree (snd kv) = true /\ depth (snd kv) < fuel) entries ->
  forall newVars hasChanges,
    resolveVarsPass vs fuel entries newVars hasChanges
    = Ok (fold_left (fun m kv => <[fst kv := snd kv]> m) entries newVars,
          hasChanges || existsb (fun kv => negb (valuesEqual (snd kv) (snd kv))) entries).
Proof.
  induction 1 as [|[path value] rest [Hfree Hdepth] _ IH]; intros newVars hasChanges.
  { cbn [resolveVarsPass fold_left existsb]. now rewrite orb_false_r. }
  cbn [resolveVarsPass fold_left existsb fst snd] in *.
  rewrite (resolveValue_refFree vs fuel value Hfree Hdepth). run.
  now rewrite IH, orb_assoc.
Qed.

(** Writing every entry of a map into an empty map gives the map. *)
Lemma fold_insert_map_to_list (m : gmap string Value) :
  fold_left (fun acc kv => <[fst kv := snd kv]> acc) (map_to_list m) ∅ = m.
Proof.
  rewrite <- List.fold_left_rev_right.
  symmetry. apply (list_to_map_flip m (rev (map_to_list m))), Permutation_rev.
Qed.

Lemma resolveVarsLoop_S (fuel remaining : nat) (e : TemplateEngine) :
  resolveVarsLoop fuel (S remaining) e
  = match resolveVarsPass (vars e) fuel (map_to_list (vars e)) ∅ false with
    | Ok (newVars, hasChanges) =>
        if negb hasChanges then Done (setVars newVars e) tt
        else if (remaining =? 0)%nat then Failed (setVars newVars e) (ECircularVars maxIterations)
        else resolveVarsLoop fuel remaining (setVars newVars e)
    | Fail err => Failed e err
    | Panic msg => Crashed msg
    | OutOfFuel => Starved
    end.
Proof. reflexivity. Qed.

Lemma setVars_same (e : TemplateEngine) : setVars (vars e) e = e.
Proof. now destruct e. Qed.

Lemma resolveVarsPass_whole (fuel : nat) (e : TemplateEngine) :
  (forall k v, vars e !! k = Some v -> refFree v = true /\ depth v < fuel) ->
  resolveVarsPass (vars e) fuel (map_to_list (vars e)) ∅ false
  = Ok (vars e, existsb (fun kv => negb (valuesEqual (snd kv) (snd kv)))
                        (map_to_list (vars e))).
Proof.
  intros Hvars. rewrite resolveVarsPass_refFree, fold_insert_map_to_list; [reflexivity|].
  apply Forall_forall. intros [k v] Hkv. apply elem_of_map_to_list in Hkv.
  exact (Hvars k v Hkv).
Qed.

(** A pass over variables without references changes nothing, and so
    does the pass over the nodes. *)
Lemma resolveVariablesIteratively_refFree (fuel : nat) (doc : Document)
    (e : TemplateEngine)
    (Hvars : forall k v, vars e !! k = Some v ->
               refFree v = true /\ depth v < fuel /\ valuesEqual v v = true)
    (Hdoc : Forall (fun node => refFree (Val node) = true /\ depth (Val node) < fuel)
                   (Nodes doc)) :
  resolveVariablesIteratively fuel doc e = Done e doc.
Proof.
  unfold resolveVariablesIteratively, maxIterations.
  rewrite resolveVarsLoop_S, resolveVarsPass_whole
    by (intros k v H; destruct (Hvars k v H) as (? & ? & _); now split).
  assert (Hsame : existsb (fun kv => negb (valuesEqual (snd kv) (snd kv)))
                          (map_to_list (vars e)) = false).
  { apply not_true_is_false. intros Hex. apply existsb_exists in Hex as ([k v] & Hin & Hne).
    apply list_elem_of_In, elem_of_map_to_list in Hin.
    destruct (Hvars k v Hin) as (_ & _ & Heq).
    cbn [snd] in Hne. now rewrite Heq in Hne. }
  rewrite Hsame. cbn [negb runBind]. rewrite setVars_same.
  assert (Hnodes : mapOutcome (fun node => val ← resolveValue (vars e) fuel (Val node);
                                           Ok (mkNode (Key node) (Typ node) val)) (Nodes doc)
                   = Ok (Nodes doc)).
  { induction Hdoc as [|node rest [Hfree Hdepth] _ IH]; [reflexivity|].
    cbn [mapOutcome]. rewrite (resolveValue_refFree _ fuel _ Hfree Hdepth). run.
    rewrite IH. run. now destruct node. }
  rewrite Hnodes. now destruct doc.
Qed.

(** X16. Resolution leaves what has no reference as it is.  A value in
    which no string contains ["$vars."] resolves to itself, whatever the
    variables are.  When no variable and no node of the document contains
    a reference, and every variable equals itself for [valuesEqual] (a
    string, or a Block or List of such), [resolveVariablesIteratively]
    returns the document unchanged after one pass over the variables, and
    the variables are unchanged. *)
Theorem reference_free_document_resolves_to_itself (fuel : nat) (doc : Document)
    (e : TemplateEngine)
    (Hvars : forall k v, vars e !! k = Some v ->
               refFree v = true /\ depth v < fuel /\ valuesEqual v v = true)
    (Hdoc : Forall (fun node => refFree (Val node) = true /\ depth (Val node) < fuel)
                   (Nodes doc)) :
  resolveVariablesIteratively fuel doc e = Done e doc
  /\ forall vs v, refFree v = true -> depth v < fuel -> resolveValue vs fuel v = Ok v.
Proof.
  split.
  - now apply resolveVariablesIteratively_refFree.
  - intros vs v Hfree Hdepth. now apply resolveValue_refFree.
Qed.

Lemma reference_free_document_resolves_to_itself_witness :
  resolveVariablesIteratively 2
    (mkDocument [mkNode "name" EmptyString (VString "x")])
    (setVars (<["host" := VString "a"]> ∅) NewTemplateEngine)
  = Done (setVars (<["host" := VString "a"]> ∅) NewTemplateEngine)
         (mkDocument [mkNode "name" EmptyString (VString "x")]).
Proof.
  apply reference_free_document_resolves_to_itself.
  - intros k v H. cbn [vars setVars] in H.
    apply lookup_insert_Some in H as [[_ <-]|[_ H]];
      [repeat split; simpl; lia | now rewrite lookup_empty in H].
  - repeat constructor.
Defined.

(** X17. A variable that holds an inline list makes every template
    fail.  [valuesEqual] has no case for the [[]any] of an inline list
    and answers false, also for a value and itself; so each pass over the
    variables counts as a change, and with variables that contain no
    reference at all the hundred passes are used up and the
    circular-dependency error is returned. *)
Theorem inline_list_variable_is_reported_circular (fuel : nat) (doc : Document)
    (e : TemplateEngine) (path : string) (items : list Value)
    (Hinline : vars e !! path = Some (VSlice items))
    (Hvars : forall k v, vars e !! k = Some v -> refFree v = true /\ depth v < fuel) :
  resolveVariablesIteratively fuel doc e = Failed e (ECircularVars 100).
Proof.
  assert (Hchange : existsb (fun kv => negb (valuesEqual (snd kv) (snd kv)))
                            (map_to_list (vars e)) = true).
  { apply existsb_exists. exists (path, VSlice items). split; [|reflexivity].
    now apply list_elem_of_In, elem_of_map_to_list. }
  assert (Hloop : forall remaining,
             resolveVarsLoop fuel (S remaining) e = Failed e (ECircularVars maxIterations)).
  { induction remaining as [|remaining IH];
      rewrite resolveVarsLoop_S, (resolveVarsPass_whole fuel e Hvars), Hchange, setVars_same;
      [reflexivity | exact IH]. }
  unfold resolveVariablesIteratively. unfold maxIterations at 1. now rewrite Hloop.
Qed.

Lemma inline_list_variable_is_reported_circular_witness :
  resolveVariablesIteratively 2 (mkDocument [])
    (setVars (<["ports" := VSlice [VString "80"; VString "443"]]> ∅) NewTemplateEngine)
  = Failed (setVars (<["ports" := VSlice [VString "80"; VString "443"]]> ∅) NewTemplateEngine)
           (ECircularVars 100).
Proof.
  apply (inline_list_variable_is_reported_circular 2 (mkDocument []) _ "ports"
           [VString "80"; VString "443"]).
  - reflexivity.
  - intros k v H. cbn [vars setVars] in H.
    apply lookup_insert_Some in H as [[_ <-]|[_ H]];
      [split; simpl; lia | now rewrite lookup_empty in H].
Defined.

(* ===================================================================== *)
(** * The engine across a document *)
(* ===================================================================== *)

Section BaseDirRestored.
Variable w : World.
Variable pd : Document -> TemplateEngine -> Run Document.

Lemma keepsBaseDir_bind {A B : Type} (e : TemplateEngine) (m : Run A)
    (k : TemplateEngine -> A -> Run B) :
  keepsBaseDir e m -> (forall e1 a, keepsBaseDir e1 (k e1 a)) ->
  keepsBaseDir e (runBind m k).
Proof.
  intros Hm Hk. destruct m as [e1 a|e1 err| |]; simpl in *; try exact Hm; try exact I.
  specialize (Hk e1 a). destruct (k e1 a); simpl in *; congruence.
Qed.

(** [loadDocumentRaw] puts the base directory back whatever the
    processing of the loaded document did with it. *)
Lemma loadDocumentRaw_keepsBaseDir (filename : string) (e : TemplateEngine) :
  keepsBaseDir e (loadDocumentRaw w pd filename e).
Proof.
  unfold loadDocumentRaw.
  destruct (Abs w filename) as [err|absPath]; [reflexivity|].
  destruct (bool_decide (absPath ∈ visited e)); [reflexivity|].
  destruct (Open w absPath) as [err|file]; [reflexivity|].
  destruct (ParseDocument NewParser file) as [[[doc|] [err|]]|err|msg|]; try reflexivity.
  now destruct (pd doc _).
Qed.

Lemma extractDirective_keepsBaseDir (d : Directives) (node : Node) (e : TemplateEngine) :
  keepsBaseDir e (extractDirective w pd d node e).
Proof.
  unfold extractDirective.
  destruct (String.eqb (Typ node) "base").
  { destruct (Val node); try reflexivity.
    apply keepsBaseDir_bind; [|intros; reflexivity].
    pose proof (loadDocumentRaw_keepsBaseDir (PathJoin w (BaseDir (options e)) s) e) as H.
    now destruct (loadDocumentRaw w pd _ e). }
  destruct (String.eqb (Typ node) "overlay"); [now destruct (Val node)|].
  destruct (String.eqb (Typ node) "include"); [now destruct (Val node)|].
  destruct (String.eqb (Typ node) "patch"); [now destruct (Val node)|].
  destruct (String.eqb (Typ node) "merge"); [|reflexivity].
  destruct (Val node); try reflexivity.
  destruct (mapGet b "strategy") as [[]|]; destruct (mapGet b "list_strategy") as [[]|];
    reflexivity.
Qed.

Lemma extractDirectives_keepsBaseDir (nodes : list Node) :
  forall d e, keepsBaseDir e (extractDirectives w pd nodes d e).
Proof.
  induction nodes as [|n ns IH]; intros d e; [reflexivity|].
  cbn [extractDirectives]. apply keepsBaseDir_bind; [apply extractDirective_keepsBaseDir|].
  intros e1 d1. apply IH.
Qed.

Lemma loadIncludes_keepsBaseDir (files : list string) :
  forall docs e, keepsBaseDir e (loadIncludes w pd files docs e).
Proof.
  induction files as [|f fs IH]; intros docs e; [reflexivity|].
  cbn [loadIncludes]. apply keepsBaseDir_bind; [|intros e1 d1; apply IH].
  pose proof (loadDocumentRaw_keepsBaseDir (PathJoin w (BaseDir (options e)) f) e) as H.
  now destruct (loadDocumentRaw w pd _ e).
Qed.

(** A document without directives passes the first loop whole. *)
Lemma extractDirectives_plain (nodes : list Node) :
  Forall (fun node => Typ node ∉ templateAnnotations) nodes ->
  forall d e,
    extractDirectives w pd nodes d e
    = Done e (mkDirectives (result d ++ nodes) (baseDoc d) (overlayNodes d) (patchNodes d)
                           (includeFiles d) (allDocs d)).
Proof.
  induction 1 as [|n ns Hn _ IH]; intros d e.
  { cbn [extractDirectives]. rewrite List.app_nil_r. now destruct d. }
  cbn [extractDirectives]. unfold extractDirective.
  unfold templateAnnotations in Hn. rewrite !not_elem_of_cons in Hn.
  destruct Hn as (H1 & H2 & H3 & H4 & H5 & _).
  apply String.eqb_neq in H1, H2, H3, H4, H5. rewrite H1, H2, H3, H4, H5.
  cbn [runBind]. rewrite IH. cbn [result baseDoc overlayNodes patchNodes includeFiles allDocs].
  now rewrite <- List.app_assoc.
Qed.
End BaseDirRestored.

Lemma resolveVarsLoop_keepsBaseDir (fuel remaining : nat) :
  forall e, keepsBaseDir e (resolveVarsLoop fuel remaining e).
Proof.
  induction remaining as [|remaining IH]; intros e; [reflexivity|].
  cbn [resolveVarsLoop].
  destruct (resolveVarsPass _ _ _ _ _) as [[newVars hasChanges]|err|msg|]; try reflexivity.
  destruct (negb hasChanges); [reflexivity|].
  destruct (remaining =? 0)%nat; [reflexivity|].
  specialize (IH (setVars newVars e)). now destruct (resolveVarsLoop fuel remaining _).
Qed.

Lemma finishDocument_keepsBaseDir (fuel : nat) (d : Directives) (docs : list Document)
    (e : TemplateEngine) :
  keepsBaseDir e (finishDocument fuel d docs e).
Proof.
  unfold finishDocument, resolveVariablesIteratively.
  match goal with |- context [resolveVarsLoop fuel maxIterations ?e1] =>
    pose proof (resolveVarsLoop_keepsBaseDir fuel maxIterations e1) as H;
    destruct (resolveVarsLoop fuel maxIterations e1) as [e2 []|e2 err| |]
  end; try exact H; try exact I.
  cbn [runBind]. now destruct (mapOutcome _ _).
Qed.

Lemma processDocument_keepsBaseDir (w : World) (fuel : nat) (doc : Document)
    (e : TemplateEngine) :
  keepsBaseDir e (processDocument w fuel doc e).
Proof.
  destruct fuel as [|fuel]; [exact I|]. rewrite processDocument_S.
  apply keepsBaseDir_bind; [apply extractDirectives_keepsBaseDir|].
  intros e1 d. apply keepsBaseDir_bind; [apply loadIncludes_keepsBaseDir|].
  intros e2 docs. apply finishDocument_keepsBaseDir.
Qed.

(** X18. The base directory of the engine is the same after a template
    has been processed as before, whether the call returns a document or
    an error and however many files were loaded on the way: every load
    sets the directory of its file and puts the old one back when it
    returns.  So it is for [processDocument], for [ProcessTemplate] and
    for [ProcessTemplateFromReader]. *)
Theorem base_directory_is_restored (w : World) (fuel : nat) (e : TemplateEngine) :
  (forall doc, keepsBaseDir e (processDocument w fuel doc e))
  /\ (forall filename, keepsBaseDir e (ProcessTemplate w fuel filename e))
  /\ (forall r, keepsBaseDir e (ProcessTemplateFromReader w fuel r e)).
Proof.
  split; [|split].
  - intros doc. apply processDocument_keepsBaseDir.
  - intros filename. apply loadDocumentRaw_keepsBaseDir.
  - intros r. unfold ProcessTemplateFromReader.
    destruct (ParseDocument NewParser r) as [[[doc|] [err|]]|err|msg|]; try reflexivity.
    apply processDocument_keepsBaseDir.
Qed.

Lemma harvestVars_no_vars_node (d : Document) (vs : gmap string Value) :
  Forall (fun node => Key node <> "vars") (Nodes d) -> harvestVars d vs = vs.
Proof.
  unfold harvestVars. induction 1 as [|n ns Hn _ IH]; [reflexivity|].
  cbn [fold_left]. apply String.eqb_neq in Hn. now rewrite Hn.
Qed.

(** X19. A document without directives, without a [vars] node and
    without references is processed to itself, node for node, provided
    the variables the engine already holds have no reference either and
    are each equal to itself for [valuesEqual] (a string, or a Block or
    List of such; not an inline list, with which every document fails,
    X17); the engine is then left as it was.  No file is opened. *)
Theorem plain_document_is_processed_to_itself (w : World) (fuel : nat) (doc : Document)
    (e : TemplateEngine)
    (Hvars : forall k v, vars e !! k = Some v ->
               refFree v = true /\ depth v < fuel /\ valuesEqual v v = true)
    (Hplain : Forall (fun node => (Typ node ∉ templateAnnotations) /\ Key node <> "vars"
                                  /\ refFree (Val node) = true /\ depth (Val node) < fuel)
                     (Nodes doc)) :
  processDocument w (S fuel) doc e = Done e doc.
Proof.
  rewrite processDocument_S.
  rewrite extractDirectives_plain
    by (eapply Forall_impl; [exact Hplain | intros n Hn; apply Hn]).
  cbn [runBind noDirectives result baseDoc overlayNodes patchNodes includeFiles allDocs
       List.app loadIncludes].
  unfold finishDocument.
  cbn [result baseDoc overlayNodes patchNodes includeFiles List.app List.length fold_left
       Nat.ltb Nat.leb Nat.sub take drop].
  rewrite harvestVars_no_vars_node
    by (cbn [Nodes]; eapply Forall_impl; [exact Hplain | intros n Hn; apply Hn]).
  rewrite setVars_same.
  assert (Hmerged : (if (0 <? List.length (Nodes doc))%nat
                     then mergeDocuments (options e) (mkDocument []) (mkDocument (Nodes doc))
                     else mkDocument []) = doc).
  { destruct doc as [[|n ns]]; [reflexivity|]. cbn [Nodes List.length Nat.ltb Nat.leb].
    apply mergeDocuments_empty_base. }
  unfold Nat.ltb in Hmerged. cbn [Nat.leb] in Hmerged.
  rewrite Hmerged.
  apply resolveVariablesIteratively_refFree; [exact Hvars|].
  eapply Forall_impl; [exact Hplain | intros n Hn; split; apply Hn].
Qed.

Lemma plain_document_is_processed_to_itself_witness :
  processDocument (flatWorld []) 3
    (mkDocument [mkNode "name" EmptyString (VString "x");
                 mkNode "ports" "int" (VList [VString "80"])])
    NewTemplateEngine
  = Done NewTemplateEngine
         (mkDocument [mkNode "name" EmptyString (VString "x");
                      mkNode "ports" "int" (VList [VString "80"])]).
Proof.
  apply (plain_document_is_processed_to_itself (flatWorld []) 2).
  - intros k v H. cbn [vars NewTemplateEngine] in H. now rewrite lookup_empty in H.
  - repeat constructor; try discriminate; try (simpl; lia);
      unfold templateAnnotations; rewrite !not_elem_of_cons;
      repeat split; try discriminate; apply not_elem_of_nil.
Defined.

(** The variables harvested from a value are leaves. *)
Lemma extractVarsValue_leavesOnly (n : nat) :
  forall v prefix k vs,
    depth v < n -> leavesOnly vs -> leavesOnly (extractVarsValue prefix k v vs).
Proof.
  induction n as [|n IH]; intros v prefix k vs Hdepth Hvs; [lia|].
  assert (Hleaf : forall x, (forall b, x <> VBlock b) ->
            leavesOnly (<[(if negb (String.eqb prefix EmptyString)
                           then prefix +:+ "." +:+ k else k) := x]> vs)).
  { intros x Hx key b. destruct (decide ((if negb (String.eqb prefix EmptyString)
                                          then prefix +:+ "." +:+ k else k) = key)) as [<-|Hne].
    - rewrite lookup_insert_eq. intros [= ->]. now apply (Hx b).
    - rewrite lookup_insert_ne by exact Hne. apply Hvs. }
  destruct v as [s|b|l|l|m|u]; cbn [extractVarsValue]; try (apply Hleaf; discriminate).
  cbn [depth] in Hdepth. apply Nat.succ_lt_mono in Hdepth.
  clear Hleaf. revert vs Hvs. induction b as [|[k' v'] b IHb]; intros vs Hvs; [exact Hvs|].
  apply IHb; [lia|]. apply IH; [lia | exact Hvs].
Qed.

(** X20. [extractVars] stores leaves only: after it no variable holds a
    Block, if none did before.  A nested block is entered and its leaves
    are stored under their dotted paths; the block itself gets no entry,
    so a reference to the name of a block is a reference to no variable. *)
Theorem extractVars_stores_leaves_only (block : Block) (prefix : string)
    (vs : gmap string Value) (Hvs : leavesOnly vs) :
  leavesOnly (extractVars block prefix vs).
Proof.
  unfold extractVars. revert vs Hvs.
  induction block as [|[k v] block IH]; intros vs Hvs; [exact Hvs|].
  cbn [fold_left fst snd]. apply IH.
  now apply (extractVarsValue_leavesOnly (S (depth v))); [lia|].
Qed.

Lemma extractVars_stores_leaves_only_witness :
  leavesOnly (extractVars [("server", VBlock [("port", VString "80")])] EmptyString ∅).
Proof.
  apply extractVars_stores_leaves_only. intros k b H. now rewrite lookup_empty in H.
Defined.









(* ===================================================================== *)
(** * Which value a value part gives *)
(* ===================================================================== *)

(** X22. An opening brace alone on the line opens a Block whatever the
    annotation of the key, [table] included: the case of the table comes
    after the case of the block.  [parseValue] gives a table only for a
    key annotated [table] whose value part begins with the brace, goes on
    after it, and has no closing brace. *)
Theorem table_needs_text_after_the_brace (p : Parser) (fuel : nat)
    (pb : Scanner -> Outcome (Block * Scanner))
    (pl : Scanner -> Outcome (list Value * Scanner))
    (sc : Scanner) (node : Node) (valPart : string) (lineOriented : bool) :
  (valPart = "{" ->
   parseValue p fuel pb pl sc node valPart lineOriented
   = ('(block, scanner) ← pb sc; Ok (VBlock block, scanner)))
  /\ (forall table sc',
        parseValue p fuel pb pl sc node valPart lineOriented = Ok (VTable table, sc') ->
        Typ node = "table" /\ HasPrefix valPart "{" = true /\ valPart <> "{"
        /\ Contains valPart "}" = false)
  /\ (forall line,
        lineType line = "table" -> lineValPart line = "{" ->
        parseLine p fuel pb pl sc line
        = ('(block, scanner) ← pb sc;
           Ok (mkNode (lineKey line) "table" (VBlock block), scanner))).
Proof.
  split; [|split].
  - intros ->. reflexivity.
  - intros table sc'. unfold parseValue.
    destruct (HasPrefix valPart "```").
    { destruct (parseMultiline p fuel sc node valPart) as [[text s]|e|m|]; run; discriminate. }
    destruct (String.eqb valPart "{") eqn:Ebrace.
    { destruct (pb sc) as [[b s]|e|m|]; run; discriminate. }
    destruct (String.eqb valPart "[").
    { destruct (pl sc) as [[l s]|e|m|]; run; discriminate. }
    destruct (HasPrefix valPart "[" && HasSuffix valPart "]").
    { destruct (parseInlineList valPart) as [l|e|m|]; run; discriminate. }
    destruct (HasPrefix valPart "{") eqn:Eprefix; cbn [andb].
    + destruct (Contains valPart "}") eqn:Eclose.
      { destruct (parseInlineBlock valPart) as [b|e|m|]; run; discriminate. }
      destruct (String.eqb (Typ node) "table") eqn:Etable; cbn [andb]; [|discriminate].
      intros _. apply String.eqb_eq in Etable. apply String.eqb_neq in Ebrace.
      now repeat split.
    + rewrite andb_false_r. discriminate.
  - intros line Htype Hval. rewrite parseLine_eq, Htype, Hval. cbn [String.eqb Ascii.eqb Bool.eqb].
    unfold parseValue. cbn [HasPrefix Ascii.eqb Bool.eqb andb String.eqb].
    now destruct (pb sc) as [[b s]|e|m|].
Qed.

Lemma table_needs_text_after_the_brace_witness :
  parseLine NewParser 3 (parseBlock NewParser 3) (parseList NewParser 3)
            (mkScanner ["columns [a, b]"; "}"] 1 None) "servers!table {"
  = ('(block, scanner) ← parseBlock NewParser 3 (mkScanner ["columns [a, b]"; "}"] 1 None);
     Ok (mkNode (lineKey "servers!table {") "table" (VBlock block), scanner)).
Proof.
  exact (proj2 (proj2 (table_needs_text_after_the_brace NewParser 3
                         (parseBlock NewParser 3) (parseList NewParser 3)
                         (mkScanner ["columns [a, b]"; "}"] 1 None)
                         (mkNode EmptyString EmptyString (VString EmptyString))
                         EmptyString false))
               "servers!table {" eq_refl eq_refl).
Defined.

(* ===================================================================== *)
(** * Multiline text and flat documents, read back *)
(* ===================================================================== *)

(** The loop of [parseMultiline] up to the closing fence. *)
Lemma parseMultilineLoop_closed (content : list string) :
  forall fuel sc acc fence rest,
    pending sc = content ++ fence :: rest -> TrimSpace fence = "```" ->
    Forall (fun l => TrimSpace l <> "```") content ->
    List.length content < fuel ->
    parseMultilineLoop fuel sc acc
    = Ok (acc ++ content,
          mkScanner rest (lineNum sc + S (List.length content)) (readErr sc)).
Proof.
  induction content as [|l content IH]; intros fuel sc acc fence rest Hp Hf Hc Hlen;
    (destruct fuel as [|fuel]; [simpl in Hlen; lia|]); cbn [parseMultilineLoop].
  - rewrite (NextLine_cons sc fence rest Hp). run. rewrite Hf. cbn [String.eqb Ascii.eqb Bool.eqb].
    rewrite List.app_nil_r. do 2 f_equal. f_equal. simpl. lia.
  - inversion Hc as [|? ? Hl Hrest]; subst.
    rewrite (NextLine_cons sc l (content ++ fence :: rest) Hp). run.
    apply String.eqb_neq in Hl. rewrite Hl.
    rewrite (IH fuel (mkScanner (content ++ fence :: rest) (S (lineNum sc)) (readErr sc))
               (acc ++ [l]) fence rest eq_refl Hf Hrest) by (simpl in Hlen; lia).
    cbn [lineNum readErr List.length]. rewrite <- List.app_assoc.
    do 2 f_equal. f_equal. lia.
Qed.

(** X23. A multiline text comes back as it was written.  A document
    made of a line that opens a fence, the lines of a text, and a closing
    fence parses to one node whose value is the text, byte for byte, when
    the key has no integer annotation; with an annotation [n] that is not
    negative the value is the text with every line dedented by [n].  No
    line of the text may be a fence itself. *)
Theorem multiline_text_round_trip (hdr text : string) (err : option Error)
    (Hskip : skipped hdr = false) (Hdir : isDirectiveLine hdr = false)
    (Hquoted : lineType hdr <> "quoted")
    (Hfence : HasPrefix (lineValPart hdr) "```" = true)
    (Hsafe : dedentIsSafe (lineType hdr) = true)
    (Htext : Forall (fun l => TrimSpace l <> "```") (Split text (ascii_of_nat 10))) :
  ParseDocument NewParser (mkReader (hdr :: Split text (ascii_of_nat 10) ++ ["```"]) err)
  = Ok (Some (mkDocument
                [mkNode (lineKey hdr) (lineType hdr)
                   (VString match Atoi (lineType hdr) with
                            | Some n => Join (List.map (dedentOne n)
                                                       (Split text (ascii_of_nat 10))) newline
                            | None => text
                            end)]), err).
Proof.
  apply (ParseDocument_single_node hdr _ err _
           (mkScanner [] (1 + S (List.length (Split text (ascii_of_nat 10)))) err)
           Hskip Hdir); [|reflexivity|reflexivity].
  rewrite parseLine_eq. apply String.eqb_neq in Hquoted. rewrite Hquoted.
  unfold parseValue. rewrite Hfence. unfold parseMultiline.
  rewrite (parseMultilineLoop_closed (Split text (ascii_of_nat 10)) _
             (mkScanner (Split text (ascii_of_nat 10) ++ ["```"]) 1 err) [] "```" []
             eq_refl eq_refl Htext)
    by (rewrite List.length_app; simpl; lia).
  run. cbn [Typ List.app lineNum readErr].
  change (Join (Split text (ascii_of_nat 10)) newline)
    with (Join (Split text (ascii_of_nat 10)) (String (ascii_of_nat 10) EmptyString)).
  rewrite Join_Split.
  unfold dedentIsSafe in Hsafe.
  destruct (Atoi (lineType hdr)) as [n|] eqn:En.
  - destruct (String.eqb (lineType hdr) EmptyString) eqn:E0.
    { apply String.eqb_eq in E0. rewrite E0 in En. discriminate En. }
    cbn [negb dedentFunc NewParser].
    rewrite dedentLines_nonneg by (apply negb_true_iff, Z.ltb_ge in Hsafe; exact Hsafe).
    reflexivity.
  - now destruct (String.eqb (lineType hdr) EmptyString).
Qed.

Lemma multiline_text_round_trip_witness :
  ParseDocument NewParser
    (mkReader ("motd ```" :: Split ("  hello" +:+ newline +:+ " world") (ascii_of_nat 10)
                          ++ ["```"]) None)
  = Ok (Some (mkDocument
                [mkNode (lineKey "motd ```") (lineType "motd ```")
                   (VString match Atoi (lineType "motd ```") with
                            | Some n =>
                                Join (List.map (dedentOne n)
                                        (Split ("  hello" +:+ newline +:+ " world")
                                               (ascii_of_nat 10)))
                                     newline
                            | None => "  hello" +:+ newline +:+ " world"
                            end)]), None).
Proof.
  apply (multiline_text_round_trip "motd ```" ("  hello" +:+ newline +:+ " world") None);
    try reflexivity; [discriminate | repeat constructor; discriminate].
Defined.

Lemma parseNodesLoop_flat (lines : list string) :
  Forall (fun l => skipped l || scalarLine l = true) lines ->
  forall fuel sc nodes,
    pending sc = lines -> List.length lines < fuel ->
    parseNodesLoop NewParser fuel sc nodes
    = Ok (nodes ++ List.map scalarNode (List.filter (fun l => negb (skipped l)) lines),
          mkScanner [] (lineNum sc + List.length lines) (readErr sc)).
Proof.
  induction 1 as [|l lines Hl _ IH]; intros fuel sc nodes Hp Hlen;
    (destruct fuel as [|fuel]; [simpl in Hlen; lia|]); cbn [parseNodesLoop].
  { rewrite (NextLine_nil sc Hp). run. rewrite List.app_nil_r, Nat.add_0_r.
    destruct sc; cbn in *; now subst. }
  rewrite (NextLine_cons sc l lines Hp). run.
  change (skipEmptyLine NewParser l || skipComment NewParser l) with (skipped l).
  cbn [List.filter List.length].
  destruct (skipped l) eqn:Eskip; cbn [negb orb] in *.
  { rewrite (IH fuel (mkScanner lines (S (lineNum sc)) (readErr sc)) nodes eq_refl) by (simpl in Hlen; lia).
    cbn [lineNum readErr]. do 2 f_equal. f_equal. lia. }
  unfold scalarLine, scalarValuePart, isDirectiveLine in Hl.
  apply andb_true_iff in Hl as [Hl Hv]. apply andb_true_iff in Hl as [Hd Hq].
  apply andb_true_iff in Hv as [Hv H6]. apply andb_true_iff in Hv as [Hv H5].
  apply andb_true_iff in Hv as [Hv H4]. apply andb_true_iff in Hv as [Hv H3].
  apply andb_true_iff in Hv as [H1 H2].
  apply negb_true_iff in Hd, Hq, H1, H2, H3, H4, H5, H6.
  apply orb_false_iff in Hd as [Huse Hlint]. rewrite Huse, Hlint.
  rewrite parseLine_eq, Hq. unfold parseValue. cbn [Typ].
  rewrite H1, H2, H3, H4, H5, H6.
  run. change (mkNode (lineKey l) (lineType l) (VString (lineValPart l))) with (scalarNode l).
  rewrite (IH fuel (mkScanner lines (S (lineNum sc)) (readErr sc))
             (nodes ++ [scalarNode l]) eq_refl) by (simpl in Hlen; lia).
  cbn [lineNum readErr List.map]. rewrite <- List.app_assoc.
  do 2 f_equal. f_equal. lia.
Qed.

(** X24. A flat document is parsed line by line.  When every line is
    blank, a comment, or a line with a scalar value (no directive, no
    [quoted] annotation, a value part that opens no block, list, fence or
    table), the Document has one node for each line that is neither blank
    nor comment, in the order of the lines, with the key, the annotation
    and the value that the line splits into. *)
Theorem flat_document_parses_line_by_line (lines : list string) (err : option Error)
    (Hflat : Forall (fun l => skipped l || scalarLine l = true) lines) :
  ParseDocument NewParser (mkReader lines err)
  = Ok (Some (mkDocument
                (List.map scalarNode (List.filter (fun l => negb (skipped l)) lines))),
        err).
Proof.
  unfold ParseDocument, parseNodes. cbn [rdLines].
  rewrite (parseNodesLoop_flat lines Hflat (S (List.length lines))
             (NewScanner (mkReader lines err)) [] eq_refl (Nat.lt_succ_diag_r _)).
  reflexivity.
Qed.

Lemma flat_document_parses_line_by_line_witness :
  ParseDocument NewParser (mkReader ["# settings"; "name demo"; "port!int 80"] None)
  = Ok (Some (mkDocument
                (List.map scalarNode
                   (List.filter (fun l => negb (skipped l))
                                ["# settings"; "name demo"; "port!int 80"]))),
        None).
Proof.
  apply (flat_document_parses_line_by_line ["# settings"; "name demo"; "port!int 80"] None).
  repeat constructor.
Defined.

(* ===================================================================== *)
(** * The names of the variables *)
(* ===================================================================== *)

Lemma extractVarsValue_block (prefix k : string) (b : Block) (vs : gmap string Value) :
  extractVarsValue prefix k (VBlock b) vs
  = extractVars b (if negb (String.eqb prefix EmptyString) then prefix +:+ "." +:+ k else k) vs.
Proof.
  cbn [extractVarsValue]. unfold extractVars.
  generalize (if negb (String.eqb prefix EmptyString) then prefix +:+ "." +:+ k else k).
  intros path. revert vs. induction b as [|[k' v'] b IH]; intros vs; [reflexivity|].
  cbn [fold_left fst snd]. apply IH.
Qed.

Lemma Join_snoc (pp : list string) (k sep : string) :
  pp <> [] -> Join (pp ++ [k]) sep = Join pp sep +:+ sep +:+ k.
Proof.
  induction pp as [|a pp IH]; intros Hne; [congruence|].
  destruct pp as [|b pp]; [reflexivity|].
  change (Join ((a :: b :: pp) ++ [k]) sep) with (a +:+ sep +:+ Join ((b :: pp) ++ [k]) sep).
  rewrite IH by discriminate.
  change (Join (a :: b :: pp) sep) with (a +:+ sep +:+ Join (b :: pp) sep).
  now rewrite !append_assoc.
Qed.

Lemma Join_plain_nonempty (pp : list string) (sep : string) :
  pp <> [] -> Forall (fun k => plainKey k = true) pp -> Join pp sep <> EmptyString.
Proof.
  intros Hne Hpp. destruct pp as [|a pp]; [congruence|].
  inversion Hpp as [|? ? Ha _]; subst. unfold plainKey in Ha.
  apply andb_true_iff in Ha as [Ha _]. apply negb_true_iff, String.eqb_neq in Ha.
  destruct a as [|c a]; [congruence|]. now destruct pp.
Qed.

(** The path that [extractVars] builds from a prefix and a key. *)
Lemma qualify_Join (pp : list string) (k : string) :
  Forall (fun k => plainKey k = true) pp ->
  (if negb (String.eqb (Join pp ".") EmptyString) then Join pp "." +:+ "." +:+ k else k)
  = Join (pp ++ [k]) ".".
Proof.
  intros Hpp. destruct pp as [|a pp]; [reflexivity|].
  pose proof (Join_plain_nonempty (a :: pp) "." ltac:(discriminate) Hpp) as Hne.
  apply String.eqb_neq in Hne. rewrite Hne. cbn [negb].
  now rewrite Join_snoc by discriminate.
Qed.

Lemma Join_dot_inj (p q : list string) :
  p <> [] -> q <> [] ->
  Forall (fun k => plainKey k = true) p -> Forall (fun k => plainKey k = true) q ->
  Join p "." = Join q "." -> p = q.
Proof.
  intros Hp Hq Fp Fq H.
  assert (Hdot : forall l, Forall (fun k => plainKey k = true) l ->
                           Forall (fun k => byteIn "."%char k = false) l).
  { intros l Hl. eapply Forall_impl; [exact Hl|]. intros k Hk. unfold plainKey in Hk.
    apply andb_true_iff in Hk as [_ Hk]. now apply negb_true_iff in Hk. }
  rewrite <- (Split_Join p "." Hp (Hdot p Fp)), <- (Split_Join q "." Hq (Hdot q Fq)).
  now rewrite H.
Qed.

Lemma mapGet_In {A : Type} (m : list (string * A)) (k : string) (v : A) :
  mapGet m k = Some v -> In k (List.map fst m).
Proof.
  induction m as [|[k' v'] m IH]; simpl; [discriminate|].
  destruct (String.eqb k k') eqn:E; [apply String.eqb_eq in E; now left | right; now apply IH].
Qed.

Lemma existsb_eqb_false (k : string) (l : list string) :
  existsb (String.eqb k) l = false -> ~ In k l.
Proof.
  intros H Hin. apply not_true_iff_false in H. apply H, existsb_exists.
  exists k. split; [exact Hin | apply String.eqb_refl].
Qed.

(** What a well-formed block holds under a key. *)
Lemma wfVars_mapGet (b : Block) (k : string) (x : Value) :
  wfVars (VBlock b) = true -> mapGet b k = Some x ->
  plainKey k = true /\ wfVars x = true /\ depth x < depth (VBlock b).
Proof.
  induction b as [|[k' v'] b IH]; intros Hwf Hget; [discriminate|].
  cbn [wfVars] in Hwf. apply andb_true_iff in Hwf as [Hwf Hrest].
  apply andb_true_iff in Hwf as [Hwf Hv]. apply andb_true_iff in Hwf as [Hk _].
  cbn [mapGet] in Hget. destruct (String.eqb k k') eqn:E.
  - apply String.eqb_eq in E. injection Hget as <-. subst k'.
    repeat split; try assumption. cbn [depth]. lia.
  - destruct (IH Hrest Hget) as (H1 & H2 & H3). repeat split; try assumption.
    cbn [depth] in *. lia.
Qed.

Lemma blockGet_plain (n : nat) :
  forall b path leaf,
    depth (VBlock b) < n -> wfVars (VBlock b) = true -> blockGet b path = Some leaf ->
    Forall (fun k => plainKey k = true) path.
Proof.
  induction n as [|n IH]; intros b path leaf Hd Hwf Hget; [lia|].
  destruct path as [|k rest]; [constructor|]. cbn [blockGet] in Hget.
  destruct rest as [|k2 rest].
  - destruct (wfVars_mapGet b k leaf Hwf Hget) as (Hk & _ & _). now repeat constructor.
  - destruct (mapGet b k) as [[s|nested|l|l|m|u]|] eqn:E; try discriminate.
    destruct (wfVars_mapGet b k _ Hwf E) as (Hk & Hw & Hdep).
    constructor; [exact Hk|]. apply (IH nested (k2 :: rest) leaf); [lia | exact Hw | exact Hget].
Qed.

(** What [extractVars] writes for a well-formed block under a prefix:
    the leaves under their paths, and nothing outside the keys of the
    block. *)
Lemma extractVars_paths (n : nat) :
  forall block pp vs,
    depth (VBlock block) < n -> wfVars (VBlock block) = true ->
    Forall (fun k => plainKey k = true) pp ->
    (forall q, Forall (fun k => plainKey k = true) q -> q <> [] ->
       (forall k sub, In k (List.map fst block) -> q <> pp ++ k :: sub) ->
       extractVars block (Join pp ".") vs !! Join q "." = vs !! Join q ".")
    /\ (forall path leaf,
          blockGet block path = Some leaf -> (forall b, leaf <> VBlock b) ->
          extractVars block (Join pp ".") vs !! Join (pp ++ path) "." = Some leaf).
Proof.
  induction n as [|n IHn]; intros block; [intros ? ? H; lia|].
  induction block as [|[k0 v0] b' IHb]; intros pp vs Hd Hwf Hpp.
  { split; [reflexivity|]. intros [|k rest] leaf Hget; [discriminate|].
    cbn [blockGet mapGet] in Hget. now destruct rest. }
  pose proof Hwf as Hwf0.
  cbn [wfVars] in Hwf. apply andb_true_iff in Hwf as [Hwf Hrest].
  apply andb_true_iff in Hwf as [Hwf Hv0]. apply andb_true_iff in Hwf as [Hk0 Hfresh].
  apply negb_true_iff, existsb_eqb_false in Hfresh.
  assert (Hd' : depth (VBlock b') < S n) by (cbn [depth] in *; lia).
  assert (Hd0 : depth v0 < n) by (cbn [depth] in *; lia).
  assert (Hppk : Forall (fun k => plainKey k = true) (pp ++ [k0]))
    by (apply Forall_app; split; [exact Hpp | now repeat constructor]).
  change (extractVars ((k0, v0) :: b') (Join pp ".") vs)
    with (extractVars b' (Join pp ".") (extractVarsValue (Join pp ".") k0 v0 vs)).
  set (vs1 := extractVarsValue (Join pp ".") k0 v0 vs).
  destruct (IHb pp vs1 Hd' Hrest Hpp) as [Hframe' Hpos'].
  (* the entry of [k0] *)
  assert (Hone : (forall q, Forall (fun k => plainKey k = true) q -> q <> [] ->
                    (forall sub, q <> pp ++ k0 :: sub) ->
                    vs1 !! Join q "." = vs !! Join q ".")
                 /\ ((forall b, v0 <> VBlock b) -> vs1 !! Join (pp ++ [k0]) "." = Some v0)
                 /\ (forall b0 path leaf, v0 = VBlock b0 ->
                       blockGet b0 path = Some leaf -> (forall b, leaf <> VBlock b) ->
                       vs1 !! Join (pp ++ k0 :: path) "." = Some leaf)).
  { assert (Hleaf : (forall b, v0 <> VBlock b) ->
                    vs1 = <[Join (pp ++ [k0]) "." := v0]> vs).
    { intros Hnb. unfold vs1. rewrite <- (qualify_Join pp k0 Hpp).
      destruct v0; try reflexivity. now destruct (Hnb b). }
    destruct v0 as [s|b0|l|l|m|u];
      try (rewrite Hleaf by discriminate; split; [|split];
           [ intros q Hq Hne Hout; apply lookup_insert_ne; intros Heq;
             apply (Hout []); symmetry;
             apply (Join_dot_inj (pp ++ [k0]) q); try assumption; now destruct pp
           | intros _; apply lookup_insert_eq
           | intros b0 path leaf Hb; discriminate Hb ]).
    unfold vs1. rewrite extractVarsValue_block, (qualify_Join pp k0 Hpp).
    destruct (IHn b0 (pp ++ [k0]) vs Hd0 Hv0 Hppk) as [Hf0 Hp0].
    split; [|split].
    - intros q Hq Hne Hout. apply Hf0; try assumption.
      intros k sub _ Heq. apply (Hout (k :: sub)). now rewrite Heq, <- List.app_assoc.
    - intros Hnb. now destruct (Hnb b0).
    - intros b1 path leaf [= <-] Hget Hnb.
      specialize (Hp0 path leaf Hget Hnb). now rewrite <- List.app_assoc in Hp0. }
  destruct Hone as (Hf1 & Hleaf1 & Hblock1).
  split.
  - intros q Hq Hne Hout. rewrite Hframe'; try assumption.
    + apply Hf1; try assumption. intros sub. apply Hout. now left.
    + intros k sub Hin. apply Hout. now right.
  - intros path leaf Hget Hnb. destruct path as [|k1 rest]; [discriminate|].
    assert (Hpath : Forall (fun k => plainKey k = true) (pp ++ k1 :: rest)).
    { apply Forall_app. split; [exact Hpp|].
      apply (blockGet_plain (S n) ((k0, v0) :: b') (k1 :: rest) leaf Hd Hwf0 Hget). }
    destruct (String.eqb k1 k0) eqn:E.
    + apply String.eqb_eq in E. subst k1.
      rewrite Hframe'; try assumption; [|now destruct pp|].
      * cbn [blockGet mapGet] in Hget. rewrite String.eqb_refl in Hget.
        destruct rest as [|k2 rest].
        -- injection Hget as <-. now apply Hleaf1.
        -- destruct v0 as [s|b0|l|l|m|u]; try discriminate.
           now apply (Hblock1 b0).
      * intros k sub Hin Heq. apply List.app_inv_head in Heq. injection Heq as -> _.
        now apply Hfresh.
    + apply Hpos'; [|exact Hnb]. cbn [blockGet mapGet] in Hget. rewrite E in Hget.
      destruct rest; exact Hget.
Qed.

(** X25. A variable is named by the dotted path of its keys.  For a
    [vars] block in which the keys are not empty, have no dot, and occur
    once in their block, at every depth, [extractVars] stores every leaf
    (a value that is no Block) under the keys that lead to it joined by
    dots, whatever the engine held under that name before. *)
Theorem leaf_is_stored_under_its_dotted_path (block : Block) (vs : gmap string Value)
    (path : list string) (leaf : Value)
    (Hwf : wfVars (VBlock block) = true)
    (Hget : blockGet block path = Some leaf)
    (Hleaf : forall b, leaf <> VBlock b) :
  extractVars block EmptyString vs !! Join path "." = Some leaf.
Proof.
  destruct (extractVars_paths (S (depth (VBlock block))) block [] vs
              (Nat.lt_succ_diag_r _) Hwf (List.Forall_nil _)) as [_ Hpos].
  exact (Hpos path leaf Hget Hleaf).
Qed.

Lemma leaf_is_stored_under_its_dotted_path_witness :
  extractVars [("server", VBlock [("host", VString "a"); ("port", VString "80")])]
              EmptyString (<["server.port" := VString "1"]> ∅)
    !! Join ["server"; "port"] "."
  = Some (VString "80").
Proof.
  apply (leaf_is_stored_under_its_dotted_path
           [("server", VBlock [("host", VString "a"); ("port", VString "80")])]
           (<["server.port" := VString "1"]> ∅) ["server"; "port"] (VString "80"));
    [reflexivity | reflexivity | discriminate].
Defined.

(* ===================================================================== *)
(** * Lists and blocks of scalars, read back *)
(* ===================================================================== *)

Lemma skipped_TrimSpace (l : string) :
  skipEmptyLine NewParser (TrimSpace l) || skipComment NewParser (TrimSpace l) = skipped l.
Proof. unfold skipped. cbn [skipEmptyLine skipComment NewParser]. now rewrite TrimSpace_idempotent. Qed.

Lemma parseListLoop_closed (items : list string) :
  Forall (fun l => TrimSpace l <> "]" /\ skipped l || scalarItem l = true) items ->
  forall fuel sc acc close rest,
    pending sc = items ++ close :: rest -> TrimSpace close = "]" ->
    List.length items < fuel ->
    parseListLoop NewParser fuel sc acc
    = Ok (acc ++ List.map (fun l => VString (TrimSpace l))
                          (List.filter (fun l => negb (skipped l)) items),
          mkScanner rest (lineNum sc + S (List.length items)) (readErr sc)).
Proof.
  induction 1 as [|l items [Hopen Hl] _ IH]; intros fuel sc acc close rest Hp Hc Hlen;
    (destruct fuel as [|fuel]; [simpl in Hlen; lia|]); cbn [parseListLoop].
  - rewrite (NextLine_cons sc close rest Hp). run. rewrite Hc.
    cbn [String.eqb Ascii.eqb Bool.eqb]. rewrite List.app_nil_r.
    do 2 f_equal. f_equal. simpl. lia.
  - rewrite (NextLine_cons sc l (items ++ close :: rest) Hp). run.
    apply String.eqb_neq in Hopen. rewrite Hopen, skipped_TrimSpace.
    cbn [List.filter List.length].
    destruct (skipped l) eqn:Eskip; cbn [negb orb] in *.
    + rewrite (IH fuel (mkScanner (items ++ close :: rest) (S (lineNum sc)) (readErr sc))
                 acc close rest eq_refl Hc) by (simpl in Hlen; lia).
      cbn [lineNum readErr]. do 2 f_equal. f_equal. lia.
    + unfold scalarItem in Hl. apply andb_true_iff in Hl as [H1 H2].
      apply negb_true_iff in H1, H2. unfold parseListItem. rewrite H1, H2. run.
      rewrite (IH fuel (mkScanner (items ++ close :: rest) (S (lineNum sc)) (readErr sc))
                 (acc ++ [VString (TrimSpace l)]) close rest eq_refl Hc)
        by (simpl in Hlen; lia).
      cbn [lineNum readErr List.map]. rewrite <- List.app_assoc.
      do 2 f_equal. f_equal. lia.
Qed.

(** X26. A multiline list of scalars is read back item by item.  A
    document made of a line that opens a list, lines that are blank,
    comments or scalar items, and the closing bracket parses to one node
    whose value is the List of the lines that are neither blank nor
    comment, each trimmed, in their order. *)
Theorem list_of_scalars_round_trip (hdr : string) (items : list string) (err : option Error)
    (Hskip : skipped hdr = false) (Hdir : isDirectiveLine hdr = false)
    (Hquoted : lineType hdr <> "quoted")
    (Hopen : lineValPart hdr = "[")
    (Hitems : Forall (fun l => TrimSpace l <> "]" /\ skipped l || scalarItem l = true) items) :
  ParseDocument NewParser (mkReader (hdr :: items ++ ["]"]) err)
  = Ok (Some (mkDocument
                [mkNode (lineKey hdr) (lineType hdr)
                   (VList (List.map (fun l => VString (TrimSpace l))
                                    (List.filter (fun l => negb (skipped l)) items)))]),
        err).
Proof.
  apply (ParseDocument_single_node hdr _ err _
           (mkScanner [] (1 + S (List.length items)) err) Hskip Hdir);
    [|reflexivity|reflexivity].
  rewrite parseLine_eq. apply String.eqb_neq in Hquoted. rewrite Hquoted, Hopen.
  unfold parseValue. cbn [HasPrefix String.eqb Ascii.eqb Bool.eqb andb].
  unfold parseList.
  rewrite (parseListLoop_closed items Hitems _ (mkScanner (items ++ ["]"]) 1 err) [] "]" []
             eq_refl eq_refl)
    by (rewrite List.length_app; simpl; lia).
  reflexivity.
Qed.

Lemma list_of_scalars_round_trip_witness :
  ParseDocument NewParser (mkReader ("ports [" :: ["  80"; "# tls"; "  443"] ++ ["]"]) None)
  = Ok (Some (mkDocument
                [mkNode (lineKey "ports [") (lineType "ports [")
                   (VList (List.map (fun l => VString (TrimSpace l))
                             (List.filter (fun l => negb (skipped l))
                                          ["  80"; "# tls"; "  443"])))]),
        None).
Proof.
  apply (list_of_scalars_round_trip "ports [" ["  80"; "# tls"; "  443"] None);
    try reflexivity; [discriminate | repeat constructor; discriminate].
Defined.

Lemma lineParts_TrimSpace (l : string) :
  lineKey (TrimSpace l) = lineKey l /\ lineType (TrimSpace l) = lineType l
  /\ lineValPart (TrimSpace l) = lineValPart l
  /\ snd (splitKeyValue (TrimSpace l)) = snd (splitKeyValue l).
Proof.
  unfold lineKey, lineType, lineValPart. now rewrite splitKeyValue_TrimSpace.
Qed.

Lemma parseBlockLoop_closed (body : list string) :
  Forall (fun l => TrimSpace l <> "}" /\ skipped l || scalarEntry l = true) body ->
  forall fuel sc acc close rest,
    pending sc = body ++ close :: rest -> TrimSpace close = "}" ->
    List.length body < fuel ->
    parseBlockLoop NewParser fuel sc acc
    = Ok (entriesBlock (List.filter (fun l => negb (skipped l)) body) acc,
          mkScanner rest (lineNum sc + S (List.length body)) (readErr sc)).
Proof.
  induction 1 as [|l body [Hopen Hl] _ IH]; intros fuel sc acc close rest Hp Hc Hlen;
    (destruct fuel as [|fuel]; [simpl in Hlen; lia|]); cbn [parseBlockLoop].
  - rewrite (NextLine_cons sc close rest Hp). run. rewrite Hc.
    cbn [String.eqb Ascii.eqb Bool.eqb]. do 2 f_equal. f_equal. simpl. lia.
  - rewrite (NextLine_cons sc l (body ++ close :: rest) Hp). run.
    apply String.eqb_neq in Hopen. rewrite Hopen, skipped_TrimSpace.
    cbn [List.filter List.length].
    destruct (skipped l) eqn:Eskip; cbn [negb orb] in *.
    + rewrite (IH fuel (mkScanner (body ++ close :: rest) (S (lineNum sc)) (readErr sc))
                 acc close rest eq_refl Hc) by (simpl in Hlen; lia).
      cbn [lineNum readErr]. do 2 f_equal. f_equal. lia.
    + unfold scalarEntry, scalarValuePart in Hl.
      apply andb_true_iff in Hl as [Hq Hv].
      apply andb_true_iff in Hv as [Hv H6]. apply andb_true_iff in Hv as [Hv H5].
      apply andb_true_iff in Hv as [Hv H4]. apply andb_true_iff in Hv as [Hv H3].
      apply andb_true_iff in Hv as [H1 H2].
      apply negb_true_iff in Hq, H1, H2, H3, H4, H5, H6.
      destruct (lineParts_TrimSpace l) as (Ek & Et & Ev & Eo).
      rewrite parseLine_eq, Ek, Et, Ev, Eo, Hq. unfold parseValue. cbn [Typ].
      rewrite H1, H2, H3, H4, H5, H6. run. cbn [Key Val].
      rewrite (IH fuel (mkScanner (body ++ close :: rest) (S (lineNum sc)) (readErr sc))
                 _ close rest eq_refl Hc) by (simpl in Hlen; lia).
      cbn [lineNum readErr]. unfold entriesBlock. cbn [fold_left].
      do 2 f_equal. f_equal. lia.
Qed.

(** In a block built entry by entry a key holds what the last entry of
    that key gave it. *)
Lemma entriesBlock_last (lines : list string) (acc : Block) (k : string) :
  mapGet (entriesBlock lines acc) k
  = match List.find (fun l => String.eqb (lineKey l) k) (List.rev lines) with
    | Some l => Some (VString (lineValPart l))
    | None => mapGet acc k
    end.
Proof.
  unfold entriesBlock. induction lines as [|x lines IH] using List.rev_ind; [reflexivity|].
  rewrite List.fold_left_app, List.rev_app_distr. cbn [fold_left List.rev List.app List.find].
  destruct (String.eqb (lineKey x) k) eqn:E.
  - apply String.eqb_eq in E. subst k. apply mapGet_mapSet_eq.
  - rewrite mapGet_mapSet_ne by (apply String.eqb_neq in E; congruence). exact IH.
Qed.

(** X27. In a block the last entry of a key wins.  A document made of a
    line that opens a block, lines that are blank, comments or scalar
    entries, and the closing brace parses to one node whose value is a
    Block; under each key the Block holds the value of the last line of
    the body with that key, and it has no other keys. *)
Theorem block_keeps_the_last_entry_of_a_key (hdr : string) (body : list string)
    (err : option Error)
    (Hskip : skipped hdr = false) (Hdir : isDirectiveLine hdr = false)
    (Hquoted : lineType hdr <> "quoted")
    (Hopen : lineValPart hdr = "{")
    (Hbody : Forall (fun l => TrimSpace l <> "}" /\ skipped l || scalarEntry l = true) body) :
  exists block,
    ParseDocument NewParser (mkReader (hdr :: body ++ ["}"]) err)
    = Ok (Some (mkDocument [mkNode (lineKey hdr) (lineType hdr) (VBlock block)]), err)
    /\ forall k,
         mapGet block k
         = match List.find (fun l => String.eqb (lineKey l) k)
                           (List.rev (List.filter (fun l => negb (skipped l)) body)) with
           | Some l => Some (VString (lineValPart l))
           | None => None
           end.
Proof.
  exists (entriesBlock (List.filter (fun l => negb (skipped l)) body) []).
  split; [|intros k; apply entriesBlock_last].
  apply (ParseDocument_single_node hdr _ err _
           (mkScanner [] (1 + S (List.length body)) err) Hskip Hdir);
    [|reflexivity|reflexivity].
  rewrite parseLine_eq. apply String.eqb_neq in Hquoted. rewrite Hquoted, Hopen.
  unfold parseValue. cbn [HasPrefix String.eqb Ascii.eqb Bool.eqb andb].
  unfold parseBlock.
  rewrite (parseBlockLoop_closed body Hbody _ (mkScanner (body ++ ["}"]) 1 err) [] "}" []
             eq_refl eq_refl)
    by (rewrite List.length_app; simpl; lia).
  reflexivity.
Qed.

Lemma block_keeps_the_last_entry_of_a_key_witness :
  exists block,
    ParseDocument NewParser
      (mkReader ("server {" :: ["  port 80"; "  host a"; "  port 443"] ++ ["}"]) None)
    = Ok (Some (mkDocument
                  [mkNode (lineKey "server {") (lineType "server {") (VBlock block)]), None)
    /\ forall k,
         mapGet block k
         = match List.find (fun l => String.eqb (lineKey l) k)
                   (List.rev (List.filter (fun l => negb (skipped l))
                                          ["  port 80"; "  host a"; "  port 443"])) with
           | Some l => Some (VString (lineValPart l))
           | None => None
           end.
Proof.
  apply (block_keeps_the_last_entry_of_a_key "server {"
           ["  port 80"; "  host a"; "  port 443"] None);
    try reflexivity; [discriminate | repeat constructor; discriminate].
Defined.

(* ===================================================================== *)
(** * Overlays *)
(* ===================================================================== *)

Lemma mergeIntoTarget_missing (o : TemplateOptions) (ov : Node) (nodes : list Node) :
  Key ov ∉ List.map Key nodes -> mergeIntoTarget o ov nodes = (nodes, false).
Proof.
  induction nodes as [|t rest IH]; intros H; cbn [mergeIntoTarget]; [reflexivity|].
  cbn [List.map] in H. apply not_elem_of_cons in H as [Ht Hrest].
  assert (String.eqb (Key t) (Key ov) = false) as -> by (apply String.eqb_neq; congruence).
  now rewrite (IH Hrest).
Qed.

Lemma mergeIntoTarget_first (o : TemplateOptions) (ov : Node)
    (pre : list Node) (target : Node) (post : list Node) :
  Key target = Key ov -> Key ov ∉ List.map Key pre ->
  mergeIntoTarget o ov (pre ++ target :: post)
  = (pre ++ mkNode (Key target) (Typ target) (mergeValues o (Val target) (Val ov)) :: post,
     true).
Proof.
  intros Hkey. induction pre as [|t rest IH]; intros H; cbn [List.app mergeIntoTarget].
  - now rewrite Hkey, String.eqb_refl.
  - cbn [List.map] in H. apply not_elem_of_cons in H as [Ht Hrest].
    assert (String.eqb (Key t) (Key ov) = false) as -> by (apply String.eqb_neq; congruence).
    now rewrite (IH Hrest).
Qed.

(** X28. An overlay node is merged where its target stands.  The first
    node of the document with the overlay's key gets the merged value and
    keeps its place, its key and its own type annotation; the nodes before
    and after it are untouched, later nodes of the same key included.
    When no node has the key, the overlay is added at the end, without a
    type annotation. *)
Theorem overlay_merges_into_the_first_node_of_its_key (o : TemplateOptions)
    (doc : Document) (overlayNode : Node) :
  (forall pre target post,
     Nodes doc = pre ++ target :: post ->
     Key target = Key overlayNode -> Key overlayNode ∉ List.map Key pre ->
     Nodes (applyOverlay o doc overlayNode)
     = pre ++ mkNode (Key target) (Typ target)
                     (mergeValues o (Val target) (Val overlayNode)) :: post)
  /\ (Key overlayNode ∉ List.map Key (Nodes doc) ->
      Nodes (applyOverlay o doc overlayNode)
      = Nodes doc ++ [mkNode (Key overlayNode) EmptyString (Val overlayNode)]).
Proof.
  split.
  - intros pre target post Hdoc Hkey Hpre. unfold applyOverlay.
    now rewrite Hdoc, (mergeIntoTarget_first o overlayNode pre target post Hkey Hpre).
  - intros Hmissing. unfold applyOverlay.
    now rewrite (mergeIntoTarget_missing o overlayNode (Nodes doc) Hmissing).
Qed.

Lemma overlay_merges_into_the_first_node_of_its_key_witness :
  Nodes (applyOverlay (mkOptions "deep" "append" ".")
           (mkDocument [mkNode "name" EmptyString (VString "x");
                        mkNode "server" "cfg" (VBlock [("port", VString "80")])])
           (mkNode "server" "overlay" (VBlock [("host", VString "a")])))
  = [mkNode "name" EmptyString (VString "x")]
    ++ mkNode "server" "cfg"
         (mergeValues (mkOptions "deep" "append" ".")
            (VBlock [("port", VString "80")]) (VBlock [("host", VString "a")])) :: [].
Proof.
  refine (proj1 (overlay_merges_into_the_first_node_of_its_key
                   (mkOptions "deep" "append" ".")
                   (mkDocument [mkNode "name" EmptyString (VString "x");
                                mkNode "server" "cfg" (VBlock [("port", VString "80")])])
                   (mkNode "server" "overlay" (VBlock [("host", VString "a")])))
            [mkNode "name" EmptyString (VString "x")]
            (mkNode "server" "cfg" (VBlock [("port", VString "80")])) [] eq_refl eq_refl _).
  cbn. intros H. apply list_elem_of_In in H. destruct H as [H|[]]. discriminate H.
Defined.

(* ===================================================================== *)
(** * Directives with a value of another kind *)
(* ===================================================================== *)

(** X29. A directive node whose value is not of the kind its
    annotation asks for is dropped without an error: nothing is loaded,
    nothing is recorded, and the node does not reach the result.  An
    inline list is never of the kind that [include] asks for: the value
    part [[a, b]] on the line of the key gives a [[]any], not a List, so
    the files of an inline include list are not included. *)
Theorem directive_with_other_value_is_dropped (w : World)
    (pd : Document -> TemplateEngine -> Run Document)
    (d : Directives) (node : Node) (e : TemplateEngine)
    (Hdirective : Typ node ∈ templateAnnotations)
    (Hother : directiveValue (Typ node) (Val node) = false) :
  extractDirective w pd d node e = Done e d
  /\ forall p fuel pb pl sc n valPart lineOriented,
       HasPrefix valPart "[" && HasSuffix valPart "]" = true -> valPart <> "[" ->
       exists items,
         parseValue p fuel pb pl sc n valPart lineOriented = Ok (VSlice items, sc)
         /\ directiveValue "include" (VSlice items) = false.
Proof.
  split.
  - unfold templateAnnotations in Hdirective. unfold directiveValue in Hother.
    unfold extractDirective.
    destruct (String.eqb (Typ node) "base") eqn:Eb; [now destruct (Val node)|].
    destruct (String.eqb (Typ node) "overlay") eqn:Eo.
    { apply String.eqb_eq in Eo. rewrite Eo in Hother. cbn in Hother.
      now destruct (Val node). }
    destruct (String.eqb (Typ node) "include") eqn:Ei; [now destruct (Val node)|].
    destruct (String.eqb (Typ node) "patch") eqn:Ep; [now destruct (Val node)|].
    destruct (String.eqb (Typ node) "merge") eqn:Em; [now destruct (Val node)|].
    exfalso. rewrite !elem_of_cons, elem_of_nil in Hdirective.
    apply String.eqb_neq in Eb, Eo, Ei, Ep, Em. tauto.
  - intros p fuel pb pl sc n valPart lineOriented Hlist Hopen.
    exists (List.map VString (inlineItems valPart)). split; [|reflexivity].
    unfold parseValue. apply String.eqb_neq in Hopen.
    assert (Hfirst : HasPrefix valPart "```" = false /\ String.eqb valPart "{" = false).
    { apply andb_true_iff in Hlist as [Hp _]. destruct valPart as [|c r]; [discriminate|].
      cbn [HasPrefix] in Hp. apply andb_true_iff in Hp as [Hc _].
      apply Ascii.eqb_eq in Hc. subst c. split; reflexivity. }
    destruct Hfirst as [-> ->]. rewrite Hopen, Hlist, parseInlineList_ok. reflexivity.
Qed.

Lemma directive_with_other_value_is_dropped_witness :
  extractDirective (flatWorld []) (processDocument (flatWorld []) 1) noDirectives
    (mkNode "deps" "include" (VSlice [VString "a.up"])) NewTemplateEngine
  = Done NewTemplateEngine noDirectives.
Proof.
  refine (proj1 (directive_with_other_value_is_dropped (flatWorld [])
                   (processDocument (flatWorld []) 1) noDirectives
                   (mkNode "deps" "include" (VSlice [VString "a.up"])) NewTemplateEngine
                   _ eq_refl)).
  unfold templateAnnotations. cbn [Typ]. rewrite !elem_of_cons. right. right. now left.
Defined.

(* ===================================================================== *)
(** * Constructs that the input does not close, and the errors of a parse *)
(* ===================================================================== *)

(** The top-level loop over lines that are blank, comments or scalar
    lines, with more input after them. *)
Lemma parseNodesLoop_flat_prefix (pre : list string) :
  Forall (fun l => skipped l || scalarLine l = true) pre ->
  forall fuel sc nodes rest,
    pending sc = pre ++ rest ->
    parseNodesLoop NewParser (List.length pre + fuel) sc nodes
    = parseNodesLoop NewParser fuel
        (mkScanner rest (lineNum sc + List.length pre) (readErr sc))
        (nodes ++ List.map scalarNode (List.filter (fun l => negb (skipped l)) pre)).
Proof.
  induction 1 as [|l pre Hl _ IH]; intros fuel sc nodes rest Hp.
  { cbn [List.length Nat.add List.filter List.map]. rewrite List.app_nil_r, Nat.add_0_r.
    destruct sc; cbn in *; now subst. }
  cbn [List.length Nat.add parseNodesLoop].
  rewrite (NextLine_cons sc l (pre ++ rest) Hp). run.
  change (skipEmptyLine NewParser l || skipComment NewParser l) with (skipped l).
  cbn [List.filter].
  destruct (skipped l) eqn:Eskip; cbn [negb orb] in *.
  { rewrite (IH fuel (mkScanner (pre ++ rest) (S (lineNum sc)) (readErr sc)) nodes rest eq_refl).
    cbn [lineNum readErr]. do 2 f_equal. lia. }
  unfold scalarLine, scalarValuePart, isDirectiveLine in Hl.
  apply andb_true_iff in Hl as [Hl Hv]. apply andb_true_iff in Hl as [Hd Hq].
  apply andb_true_iff in Hv as [Hv H6]. apply andb_true_iff in Hv as [Hv H5].
  apply andb_true_iff in Hv as [Hv H4]. apply andb_true_iff in Hv as [Hv H3].
  apply andb_true_iff in Hv as [H1 H2].
  apply negb_true_iff in Hd, Hq, H1, H2, H3, H4, H5, H6.
  apply orb_false_iff in Hd as [Huse Hlint]. rewrite Huse, Hlint.
  rewrite parseLine_eq, Hq. unfold parseValue. cbn [Typ].
  rewrite H1, H2, H3, H4, H5, H6.
  run. change (mkNode (lineKey l) (lineType l) (VString (lineValPart l))) with (scalarNode l).
  rewrite (IH fuel (mkScanner (pre ++ rest) (S (lineNum sc)) (readErr sc))
             (nodes ++ [scalarNode l]) rest eq_refl).
  cbn [lineNum readErr List.map]. rewrite <- List.app_assoc.
  do 2 f_equal. lia.
Qed.

(** The top-level loop at a line whose value takes all the rest of the
    input. *)
Lemma parseNodesLoop_last (fuel : nat) (sc : Scanner) (nodes : list Node)
    (hdr : string) (body : list string) (node : Node) (sc2 : Scanner) :
  pending sc = hdr :: body -> skipped hdr = false -> isDirectiveLine hdr = false ->
  parseLine NewParser (S fuel) (parseBlock NewParser (S fuel)) (parseList NewParser (S fuel))
            (mkScanner body (S (lineNum sc)) (readErr sc)) hdr = Ok (node, sc2) ->
  pending sc2 = [] ->
  parseNodesLoop NewParser (S (S fuel)) sc nodes = Ok (nodes ++ [node], sc2).
Proof.
  intros Hp Hskip Hdir Hline Hend. cbn [parseNodesLoop].
  rewrite (NextLine_cons sc hdr body Hp). run.
  unfold skipped in Hskip. rewrite Hskip.
  unfold isDirectiveLine in Hdir. apply orb_false_iff in Hdir as [-> ->].
  rewrite Hline. run. now rewrite (NextLine_nil sc2 Hend).
Qed.

(** A document that ends in a line whose value takes all the rest of the
    input, after lines that are blank, comments or scalar lines. *)
Lemma ParseDocument_last_node (pre : list string) (hdr : string) (body : list string)
    (err : option Error) (node : Node) (sc2 : Scanner) :
  Forall (fun l => skipped l || scalarLine l = true) pre ->
  skipped hdr = false -> isDirectiveLine hdr = false ->
  parseLine NewParser (S (List.length body))
            (parseBlock NewParser (S (List.length body)))
            (parseList NewParser (S (List.length body)))
            (mkScanner body (S (List.length pre)) err) hdr = Ok (node, sc2) ->
  pending sc2 = [] -> readErr sc2 = err ->
  ParseDocument NewParser (mkReader (pre ++ hdr :: body) err)
  = Ok (Some (mkDocument
                (List.map scalarNode (List.filter (fun l => negb (skipped l)) pre)
                 ++ [node])), err).
Proof.
  intros Hpre Hskip Hdir Hline Hend Herr.
  unfold ParseDocument, parseNodes. cbn [rdLines].
  replace (S (List.length (pre ++ hdr :: body)))
    with (List.length pre + S (S (List.length body)))
    by (rewrite List.length_app; simpl; lia).
  rewrite (parseNodesLoop_flat_prefix pre Hpre _ (NewScanner (mkReader (pre ++ hdr :: body) err))
             [] (hdr :: body) eq_refl).
  cbn [NewScanner lineNum readErr rdErr Nat.add List.app].
  rewrite (parseNodesLoop_last (List.length body)
             (mkScanner (hdr :: body) (List.length pre) err) _ hdr body node sc2
             eq_refl Hskip Hdir Hline Hend).
  now rewrite Herr.
Qed.

(** The loops of a block and of a list over scalars, when the input ends
    before a closing line. *)
Lemma parseBlockLoop_open (body : list string) :
  Forall (fun l => TrimSpace l <> "}" /\ skipped l || scalarEntry l = true) body ->
  forall fuel sc acc,
    pending sc = body -> List.length body < fuel ->
    parseBlockLoop NewParser fuel sc acc
    = Ok (entriesBlock (List.filter (fun l => negb (skipped l)) body) acc,
          mkScanner [] (lineNum sc + List.length body) (readErr sc)).
Proof.
  induction 1 as [|l body [Hopen Hl] _ IH]; intros fuel sc acc Hp Hlen;
    (destruct fuel as [|fuel]; [simpl in Hlen; lia|]); cbn [parseBlockLoop].
  - rewrite (NextLine_nil sc Hp). run. rewrite Nat.add_0_r.
    destruct sc; cbn in *; now subst.
  - rewrite (NextLine_cons sc l body Hp). run.
    apply String.eqb_neq in Hopen. rewrite Hopen, skipped_TrimSpace.
    cbn [List.filter List.length].
    destruct (skipped l) eqn:Eskip; cbn [negb orb] in *.
    + rewrite (IH fuel (mkScanner body (S (lineNum sc)) (readErr sc)) acc eq_refl)
        by (simpl in Hlen; lia).
      cbn [lineNum readErr]. do 2 f_equal. f_equal. lia.
    + unfold scalarEntry, scalarValuePart in Hl.
      apply andb_true_iff in Hl as [Hq Hv].
      apply andb_true_iff in Hv as [Hv H6]. apply andb_true_iff in Hv as [Hv H5].
      apply andb_true_iff in Hv as [Hv H4]. apply andb_true_iff in Hv as [Hv H3].
      apply andb_true_iff in Hv as [H1 H2].
      apply negb_true_iff in Hq, H1, H2, H3, H4, H5, H6.
      destruct (lineParts_TrimSpace l) as (Ek & Et & Ev & Eo).
      rewrite parseLine_eq, Ek, Et, Ev, Eo, Hq. unfold parseValue. cbn [Typ].
      rewrite H1, H2, H3, H4, H5, H6. run. cbn [Key Val].
      rewrite (IH fuel (mkScanner body (S (lineNum sc)) (readErr sc)) _ eq_refl)
        by (simpl in Hlen; lia).
      cbn [lineNum readErr]. unfold entriesBlock. cbn [fold_left].
      do 2 f_equal. f_equal. lia.
Qed.

Lemma parseListLoop_open (items : list string) :
  Forall (fun l => TrimSpace l <> "]" /\ skipped l || scalarItem l = true) items ->
  forall fuel sc acc,
    pending sc = items -> List.length items < fuel ->
    parseListLoop NewParser fuel sc acc
    = Ok (acc ++ List.map (fun l => VString (TrimSpace l))
                          (List.filter (fun l => negb (skipped l)) items),
          mkScanner [] (lineNum sc + List.length items) (readErr sc)).
Proof.
  induction 1 as [|l items [Hopen Hl] _ IH]; intros fuel sc acc Hp Hlen;
    (destruct fuel as [|fuel]; [simpl in Hlen; lia|]); cbn [parseListLoop].
  - rewrite (NextLine_nil sc Hp). run. rewrite List.app_nil_r, Nat.add_0_r.
    destruct sc; cbn in *; now subst.
  - rewrite (NextLine_cons sc l items Hp). run.
    apply String.eqb_neq in Hopen. rewrite Hopen, skipped_TrimSpace.
    cbn [List.filter List.length].
    destruct (skipped l) eqn:Eskip; cbn [negb orb] in *.
    + rewrite (IH fuel (mkScanner items (S (lineNum sc)) (readErr sc)) acc eq_refl)
        by (simpl in Hlen; lia).
      cbn [lineNum readErr]. do 2 f_equal. f_equal. lia.
    + unfold scalarItem in Hl. apply andb_true_iff in Hl as [H1 H2].
      apply negb_true_iff in H1, H2. unfold parseListItem. rewrite H1, H2. run.
      rewrite (IH fuel (mkScanner items (S (lineNum sc)) (readErr sc))
                 (acc ++ [VString (TrimSpace l)]) eq_refl) by (simpl in Hlen; lia).
      cbn [lineNum readErr List.map]. rewrite <- List.app_assoc.
      do 2 f_equal. f_equal. lia.
Qed.

(** C1, as the code has it.  Of an input in which no multiline text is
    annotated with a negative integer (where the parse panics, C10):

    - [ParseDocument] returns the Document, with the reader's error if
      there is one, or no Document and a parse error; the parse error is
      always that of a malformed directive ([!use] without a list, [!lint]
      without a block) under the 1-based number of the directive's line.
      No other line, however malformed as a key and value, and no
      construct left open makes a parse fail; so an input without
      directive lines always parses to a Document.

    - When, after lines that are blank, comments or scalar lines, a line
      opens a block with a brace, a multiline list with a bracket or a
      multiline text with a fence, and no later line closes it, the
      construct is closed at the end of input: the Document is returned,
      the nodes of the lines before followed by the node of the opening
      line, which holds a Block, a List, or the text of all the remaining
      lines (dedented if the annotation asks).  For a body of scalar
      entries the Block is the one they build, entry by entry; for a body
      of scalar items the List is the items, trimmed, in their order. *)
Theorem unterminated_construct_closes_at_end_of_input
    (lines : list string) (err : option Error)
    (Hsafe : Forall (fun l => negativeDedent l = false) lines) :
  ((exists doc, ParseDocument NewParser (mkReader lines err) = Ok (Some doc, err))
   \/ (exists k line e,
          lines !! k = Some line /\ isDirectiveLine line = true
          /\ (e = EUseRequiresList \/ e = ELintRequiresBlock)
          /\ ParseDocument NewParser (mkReader lines err)
             = Ok (None, Some (EAtLine (S k) e))))
  /\ (Forall (fun l => isDirectiveLine l = false) lines ->
      exists doc, ParseDocument NewParser (mkReader lines err) = Ok (Some doc, err))
  /\ (forall pre hdr body,
        lines = pre ++ hdr :: body ->
        Forall (fun l => skipped l || scalarLine l = true) pre ->
        skipped hdr = false -> isDirectiveLine hdr = false -> lineType hdr <> "quoted" ->
        (lineValPart hdr = "{" -> Forall (fun l => TrimSpace l <> "}") body ->
         exists b,
           ParseDocument NewParser (mkReader lines err)
           = Ok (Some (mkDocument
                         (List.map scalarNode (List.filter (fun l => negb (skipped l)) pre)
                          ++ [mkNode (lineKey hdr) (lineType hdr) (VBlock b)])), err)
           /\ (Forall (fun l => skipped l || scalarEntry l = true) body ->
               b = entriesBlock (List.filter (fun l => negb (skipped l)) body) []))
        /\ (lineValPart hdr = "[" -> Forall (fun l => TrimSpace l <> "]") body ->
            exists items,
              ParseDocument NewParser (mkReader lines err)
              = Ok (Some (mkDocument
                            (List.map scalarNode
                                      (List.filter (fun l => negb (skipped l)) pre)
                             ++ [mkNode (lineKey hdr) (lineType hdr) (VList items)])), err)
              /\ (Forall (fun l => skipped l || scalarItem l = true) body ->
                  items = List.map (fun l => VString (TrimSpace l))
                                   (List.filter (fun l => negb (skipped l)) body)))
        /\ (HasPrefix (lineValPart hdr) "```" = true ->
            Forall (fun l => TrimSpace l <> "```") body ->
            ParseDocument NewParser (mkReader lines err)
            = Ok (Some (mkDocument
                          (List.map scalarNode
                                    (List.filter (fun l => negb (skipped l)) pre)
                           ++ [mkNode (lineKey hdr) (lineType hdr)
                                 (VString
                                    match Atoi (lineType hdr) with
                                    | Some n =>
                                        Join (List.map (dedentOne n)
                                                (Split (Join body newline) (ascii_of_nat 10)))
                                             newline
                                    | None => Join body newline
                                    end)])), err))).
Proof.
  split; [|split].
  - unfold ParseDocument, parseNodes. cbn [rdLines].
    destruct (parseNodesLoop_ends (S (List.length lines))
                (NewScanner (mkReader lines err)) [])
      as [(ns & sc' & Hr & [_ Herr] & _)|(k & line & e & Hk & Hd & He & Hr)];
      [simpl; lia | assumption | |].
    + left. rewrite Hr. exists (mkDocument ns). now rewrite Herr.
    + right. exists k, line, e. rewrite Hr. now repeat split.
  - intros Hdir. now apply ParseDocument_total.
  - intros pre hdr body -> Hpre Hskip Hdir Hquoted.
    apply Forall_app in Hsafe as [_ Hsafe].
    inversion Hsafe as [|? ? Hh Hbody]; subst.
    set (fuel := S (List.length body)).
    set (sc1 := mkScanner body (S (List.length pre)) err).
    assert (Hlen1 : List.length (pending sc1) < fuel) by (simpl; lia).
    apply String.eqb_neq in Hquoted.
    split; [|split].
    + intros Hval Hopen.
      destruct (parseBlockLoop_unclosed fuel sc1 [] Hlen1 Hbody Hopen)
        as (b & sc2 & Hb & [_ Herr] & Hend).
      exists b. split.
      * apply (ParseDocument_last_node pre hdr body err _ sc2 Hpre Hskip Hdir);
          [|exact Hend | exact Herr].
        rewrite parseLine_eq, Hquoted. unfold parseValue. rewrite Hval.
        cbn [HasPrefix Ascii.eqb Bool.eqb andb String.eqb].
        unfold parseBlock. fold fuel sc1. rewrite Hb. reflexivity.
      * intros Hscalar.
        rewrite (parseBlockLoop_open body) in Hb;
          [now injection Hb as <- _ | | reflexivity | exact Hlen1].
        apply Forall_forall. intros l Hl. split.
        -- exact (proj1 (Forall_forall _ _) Hopen l Hl).
        -- exact (proj1 (Forall_forall _ _) Hscalar l Hl).
    + intros Hval Hopen.
      destruct (parseListLoop_unclosed fuel sc1 [] Hlen1 Hbody Hopen)
        as (items & sc2 & Hb & [_ Herr] & Hend).
      exists items. split.
      * apply (ParseDocument_last_node pre hdr body err _ sc2 Hpre Hskip Hdir);
          [|exact Hend | exact Herr].
        rewrite parseLine_eq, Hquoted. unfold parseValue. rewrite Hval.
        cbn [HasPrefix Ascii.eqb Bool.eqb andb String.eqb].
        unfold parseList. fold fuel sc1. rewrite Hb. reflexivity.
      * intros Hscalar.
        rewrite (parseListLoop_open body) in Hb;
          [now injection Hb as <- _ | | reflexivity | exact Hlen1].
        apply Forall_forall. intros l Hl. split.
        -- exact (proj1 (Forall_forall _ _) Hopen l Hl).
        -- exact (proj1 (Forall_forall _ _) Hscalar l Hl).
    + intros Hval Hopen.
      destruct (parseMultilineLoop_unclosed fuel sc1 [] Hlen1 Hopen)
        as (sc2 & Hb & [_ Herr] & Hend).
      pose proof (negativeDedent_safe hdr Hh Hval) as Hs. unfold dedentIsSafe in Hs.
      apply (ParseDocument_last_node pre hdr body err _ sc2 Hpre Hskip Hdir);
        [|exact Hend | exact Herr].
      rewrite parseLine_eq, Hquoted. unfold parseValue. rewrite Hval.
      fold fuel sc1. unfold parseMultiline. rewrite Hb. run.
      cbn [Typ pending sc1 List.app].
      destruct (Atoi (lineType hdr)) as [n|] eqn:En.
      * destruct (String.eqb (lineType hdr) EmptyString) eqn:E0.
        { apply String.eqb_eq in E0. rewrite E0 in En. discriminate En. }
        cbn [negb dedentFunc NewParser].
        rewrite dedentLines_nonneg by (apply negb_true_iff, Z.ltb_ge in Hs; exact Hs).
        reflexivity.
      * now destruct (String.eqb (lineType hdr) EmptyString).
Qed.

Lemma unterminated_construct_closes_at_end_of_input_witness :
  exists b,
    ParseDocument NewParser
      (mkReader (["# settings"; "name demo"] ++ "server {" :: ["host localhost"; "port 80"])
                None)
    = Ok (Some (mkDocument
                  (List.map scalarNode
                            (List.filter (fun l => negb (skipped l))
                                         ["# settings"; "name demo"])
                   ++ [mkNode (lineKey "server {") (lineType "server {") (VBlock b)])), None)
    /\ b = entriesBlock (List.filter (fun l => negb (skipped l))
                                     ["host localhost"; "port 80"]) [].
Proof.
  destruct (proj1 (proj2 (proj2 (unterminated_construct_closes_at_end_of_input
                                   (["# settings"; "name demo"]
                                    ++ "server {" :: ["host localhost"; "port 80"]) None
                                   ltac:(repeat constructor)))
                     ["# settings"; "name demo"] "server {" ["host localhost"; "port 80"]
                     eq_refl ltac:(repeat constructor) eq_refl eq_refl ltac:(discriminate))
              eq_refl ltac:(repeat constructor; discriminate))
    as (b & Hparse & Hentries).
  exists b. split; [exact Hparse|]. apply Hentries. repeat constructor.
Defined.

(* ===================================================================== *)
(** * Cycles of loads *)
(* ===================================================================== *)

Lemma baseFilesOf_cons (node : Node) (nodes : list Node) :
  baseFilesOf (mkDocument (node :: nodes))
  = baseFilesOf (mkDocument [node]) ++ baseFilesOf (mkDocument nodes).
Proof. unfold baseFilesOf. cbn [Nodes flat_map]. now rewrite List.app_nil_r. Qed.

Lemma includeFilesOf_cons (node : Node) (nodes : list Node) :
  includeFilesOf (mkDocument (node :: nodes))
  = includeFilesOf (mkDocument [node]) ++ includeFilesOf (mkDocument nodes).
Proof. unfold includeFilesOf. cbn [Nodes flat_map]. now rewrite List.app_nil_r. Qed.

(** A node is a base with a file name, or loads nothing. *)
Lemma baseFilesOf_node (node : Node) :
  (exists f, Typ node = "base" /\ Val node = VString f
             /\ baseFilesOf (mkDocument [node]) = [f]
             /\ includeFilesOf (mkDocument [node]) = [])
  \/ baseFilesOf (mkDocument [node]) = [].
Proof.
  unfold baseFilesOf, includeFilesOf. cbn [Nodes flat_map].
  destruct (String.eqb_spec (Typ node) "base") as [Hb|Hb]; [|now right].
  destruct (Val node) as [f| | | | |] eqn:Ev; try (now right).
  left. exists f. rewrite Hb. repeat split.
Qed.

Section LoadsOfADocument.
Variable w : World.
Variable pd : Document -> TemplateEngine -> Run Document.
Hypothesis HpdV : forall doc e1, keepsVisited e1 (pd doc e1).

Lemma extractDirective_base (d : Directives) (node : Node) (e : TemplateEngine)
    (f : string) :
  Typ node = "base" -> Val node = VString f ->
  extractDirective w pd d node e
  = runBind (wrapRun (ELoadBase f)
               (loadDocumentRaw w pd (PathJoin w (BaseDir (options e)) f) e))
      (fun e loaded =>
         Done e (mkDirectives (result d) (Some loaded) (overlayNodes d) (patchNodes d)
                              (includeFiles d) (allDocs d ++ [loaded]))).
Proof. intros Ht Hv. unfold extractDirective. now rewrite Ht, Hv. Qed.

Lemma extractDirective_no_load (d : Directives) (node : Node) (e : TemplateEngine) :
  baseFilesOf (mkDocument [node]) = [] ->
  exists e1 d1,
    extractDirective w pd d node e = Done e1 d1
    /\ visited e1 = visited e /\ BaseDir (options e1) = BaseDir (options e)
    /\ includeFiles d1 = includeFiles d ++ includeFilesOf (mkDocument [node]).
Proof.
  unfold baseFilesOf, includeFilesOf, extractDirective. cbn [Nodes flat_map].
  destruct (String.eqb_spec (Typ node) "base") as [Hb|Hb].
  { rewrite Hb. cbn [String.eqb Ascii.eqb Bool.eqb].
    destruct (Val node); intros H; try discriminate H;
      eexists _, _; repeat split; now rewrite List.app_nil_r. }
  intros _.
  destruct (String.eqb (Typ node) "overlay") eqn:Eo.
  { assert (String.eqb (Typ node) "include" = false) as ->
      by (apply String.eqb_eq in Eo; now rewrite Eo).
    destruct (Val node); eexists _, _; repeat split; simpl; now rewrite ?List.app_nil_r. }
  destruct (String.eqb (Typ node) "include") eqn:Ei.
  { destruct (Val node); eexists _, _; repeat split; simpl; now rewrite ?List.app_nil_r. }
  destruct (String.eqb (Typ node) "patch").
  { destruct (Val node); eexists _, _; repeat split; simpl; now rewrite ?List.app_nil_r. }
  destruct (String.eqb (Typ node) "merge").
  { destruct (Val node); try (eexists _, _; repeat split; simpl; now rewrite ?List.app_nil_r).
    destruct (mapGet b "strategy") as [[]|]; destruct (mapGet b "list_strategy") as [[]|];
      eexists _, _; repeat split; simpl; now rewrite ?List.app_nil_r. }
  eexists _, _; repeat split; simpl; now rewrite ?List.app_nil_r.
Qed.

(** A document without a base file: the first loop loads nothing and
    gathers the include files in order. *)
Lemma extractDirectives_no_load (nodes : list Node) :
  baseFilesOf (mkDocument nodes) = [] ->
  forall d e, exists e' d',
    extractDirectives w pd nodes d e = Done e' d'
    /\ visited e' = visited e /\ BaseDir (options e') = BaseDir (options e)
    /\ includeFiles d' = includeFiles d ++ includeFilesOf (mkDocument nodes).
Proof.
  induction nodes as [|n ns IH]; intros Hb d e.
  { exists e, d. repeat split. unfold includeFilesOf. simpl. now rewrite List.app_nil_r. }
  rewrite (baseFilesOf_cons n ns) in Hb. apply List.app_eq_nil in Hb as [Hn Hns].
  cbn [extractDirectives].
  destruct (extractDirective_no_load d n e Hn) as (e1 & d1 & -> & Hv1 & Hb1 & Hi1).
  cbn [runBind].
  destruct (IH Hns d1 e1) as (e' & d' & -> & Hv & Hbd & Hi).
  exists e', d'. split; [reflexivity|]. split; [congruence|]. split; [congruence|].
  now rewrite Hi, Hi1, (includeFilesOf_cons n ns), <- List.app_assoc.
Qed.

(** The first loop fails where its first base fails to load. *)
Lemma extractDirectives_first_base_fails (n : nat) (nodes : list Node) :
  forall d e f rest,
    baseFilesOf (mkDocument nodes) = f :: rest ->
    (forall e0, visited e0 = visited e -> BaseDir (options e0) = BaseDir (options e) ->
       exists e1 err,
         loadDocumentRaw w pd (PathJoin w (BaseDir (options e)) f) e0 = Failed e1 err
         /\ circularDepth err = Some n) ->
    exists e1 err,
      extractDirectives w pd nodes d e = Failed e1 err
      /\ circularDepth err = Some (S n).
Proof.
  induction nodes as [|x ns IH]; intros d e f rest Hb Hfail; [discriminate Hb|].
  rewrite (baseFilesOf_cons x ns) in Hb. cbn [extractDirectives].
  destruct (baseFilesOf_node x) as [(g & Ht & Hv & Hg & _)|Hx].
  - rewrite Hg in Hb. injection Hb as -> _.
    rewrite (extractDirective_base d x e f Ht Hv).
    destruct (Hfail e eq_refl eq_refl) as (e1 & err & -> & Hc).
    cbn [wrapRun runBind]. exists e1, (ELoadBase f err). split; [reflexivity|].
    cbn [circularDepth]. now rewrite Hc.
  - rewrite Hx in Hb. cbn [List.app] in Hb.
    destruct (extractDirective_no_load d x e Hx) as (e1 & d1 & -> & Hv1 & Hb1 & _).
    cbn [runBind]. apply (IH d1 e1 f rest Hb).
    intros e0 Hv0 Hb0. rewrite Hb1. apply Hfail; congruence.
Qed.

(** What the first loop has done when it returns: every base file
    loaded, in an engine with the visited set and the base directory of
    the beginning. *)
Lemma extractDirectives_Done_loads (nodes : list Node) :
  forall d e e' d',
    extractDirectives w pd nodes d e = Done e' d' ->
    visited e' = visited e /\ BaseDir (options e') = BaseDir (options e)
    /\ includeFiles d' = includeFiles d ++ includeFilesOf (mkDocument nodes)
    /\ forall f, In f (baseFilesOf (mkDocument nodes)) ->
         exists e0 e1 doc1,
           visited e0 = visited e /\ BaseDir (options e0) = BaseDir (options e)
           /\ loadDocumentRaw w pd (PathJoin w (BaseDir (options e)) f) e0 = Done e1 doc1.
Proof.
  induction nodes as [|x ns IH]; intros d e e' d' Hdone.
  { cbn [extractDirectives] in Hdone. injection Hdone as <- <-.
    repeat split; [unfold includeFilesOf; simpl; now rewrite List.app_nil_r|].
    intros f []. }
  cbn [extractDirectives] in Hdone.
  pose proof (extractDirective_keepsVisited w pd HpdV d x e) as HkV.
  pose proof (extractDirective_keepsBaseDir w pd d x e) as HkB.
  destruct (extractDirective w pd d x e) as [e1 d1| | |] eqn:Ex; try discriminate Hdone.
  cbn [runBind] in Hdone. cbn [keepsVisited keepsBaseDir] in HkV, HkB.
  destruct (IH d1 e1 e' d' Hdone) as (Hv & Hb & Hi & Hloads).
  assert (Hnode : includeFiles d1 = includeFiles d ++ includeFilesOf (mkDocument [x])
                  /\ forall f, In f (baseFilesOf (mkDocument [x])) ->
                       exists e2 doc2,
                         loadDocumentRaw w pd (PathJoin w (BaseDir (options e)) f) e
                         = Done e2 doc2).
  { destruct (baseFilesOf_node x) as [(g & Ht & Hval & Hg & Hincl)|Hx].
    - rewrite (extractDirective_base d x e g Ht Hval) in Ex.
      destruct (loadDocumentRaw w pd (PathJoin w (BaseDir (options e)) g) e)
        as [e2 doc2| | |] eqn:El; try discriminate Ex.
      cbn [wrapRun runBind] in Ex. injection Ex as <- <-.
      split; [cbn [includeFiles]; now rewrite Hincl, List.app_nil_r|].
      rewrite Hg. intros f [<-|[]]. now exists e2, doc2.
    - destruct (extractDirective_no_load d x e Hx) as (e2 & d2 & Heq & _ & _ & Hi2).
      rewrite Heq in Ex. injection Ex as <- <-. split; [exact Hi2|].
      rewrite Hx. intros f []. }
  destruct Hnode as [Hi1 Hbase].
  split; [congruence|]. split; [congruence|]. split.
  { now rewrite Hi, Hi1, (includeFilesOf_cons x ns), <- List.app_assoc. }
  intros f Hf. rewrite (baseFilesOf_cons x ns) in Hf. apply List.in_app_or in Hf as [Hf|Hf].
  - destruct (Hbase f Hf) as (e2 & doc2 & Hl). now exists e, e2, doc2.
  - destruct (Hloads f Hf) as (e0 & e2 & doc2 & Hv0 & Hb0 & Hl).
    exists e0, e2, doc2. rewrite <- HkB. split; [congruence|]. split; [congruence|exact Hl].
Qed.

Lemma loadIncludes_Done_loads (files : list string) :
  forall docs e e' docs',
    loadIncludes w pd files docs e = Done e' docs' ->
    forall f, In f files ->
      exists e0 e1 doc1,
        visited e0 = visited e /\ BaseDir (options e0) = BaseDir (options e)
        /\ loadDocumentRaw w pd (PathJoin w (BaseDir (options e)) f) e0 = Done e1 doc1.
Proof.
  induction files as [|g fs IH]; intros docs e e' docs' Hdone f Hf; [destruct Hf|].
  cbn [loadIncludes] in Hdone.
  pose proof (loadDocumentRaw_keepsVisited w pd (PathJoin w (BaseDir (options e)) g) e HpdV)
    as HkV.
  pose proof (loadDocumentRaw_keepsBaseDir w pd (PathJoin w (BaseDir (options e)) g) e)
    as HkB.
  destruct (loadDocumentRaw w pd (PathJoin w (BaseDir (options e)) g) e)
    as [e1 doc1| | |] eqn:El; try discriminate Hdone.
  cbn [wrapRun runBind] in Hdone. cbn [keepsVisited keepsBaseDir] in HkV, HkB.
  destruct Hf as [<-|Hf]; [now exists e, e1, doc1|].
  destruct (IH _ e1 e' docs' Hdone f Hf) as (e0 & e2 & doc2 & Hv0 & Hb0 & Hl).
  exists e0, e2, doc2. rewrite <- HkB. split; [congruence|]. split; [congruence|exact Hl].
Qed.
End LoadsOfADocument.

(** A document is processed to a Document only if every load of it
    returned one. *)
Lemma processDocument_Done_loads (w : World) (fuel : nat) (doc : Document)
    (e e' : TemplateEngine) (r : Document) :
  processDocument w (S fuel) doc e = Done e' r ->
  forall f, anyLoad doc f ->
    exists e0 e1 doc1,
      visited e0 = visited e /\ BaseDir (options e0) = BaseDir (options e)
      /\ loadDocumentRaw w (processDocument w fuel) (PathJoin w (BaseDir (options e)) f) e0
         = Done e1 doc1.
Proof.
  rewrite processDocument_S. intros Hdone f Hf.
  destruct (extractDirectives w (processDocument w fuel) (Nodes doc) noDirectives e)
    as [e1 d1| | |] eqn:Ex; try discriminate Hdone.
  cbn [runBind] in Hdone.
  destruct (extractDirectives_Done_loads w (processDocument w fuel)
              (processDocument_keepsVisited w fuel) (Nodes doc) noDirectives e e1 d1 Ex)
    as (Hv & Hb & Hi & Hbase).
  unfold anyLoad, loadsOf in Hf. apply List.in_app_or in Hf as [Hf|Hf].
  - now apply Hbase.
  - destruct (loadIncludes w (processDocument w fuel) (includeFiles d1) (allDocs d1) e1)
      as [e2 docs| | |] eqn:El; try discriminate Hdone.
    destruct (loadIncludes_Done_loads w (processDocument w fuel)
                (processDocument_keepsVisited w fuel) (includeFiles d1) (allDocs d1)
                e1 e2 docs El f) as (e0 & e3 & doc3 & Hv0 & Hb0 & Hl).
    { rewrite Hi. exact Hf. }
    exists e0, e3, doc3. rewrite <- Hb. split; [congruence|]. split; [congruence|exact Hl].
Qed.

(** A document is processed to the error of its first load, under one
    wrapper more, when that load fails. *)
Lemma processDocument_first_load_fails (w : World) (fuel n : nat) (doc : Document)
    (e : TemplateEngine) (f : string) :
  firstLoad doc f ->
  (forall e0, visited e0 = visited e -> BaseDir (options e0) = BaseDir (options e) ->
     exists e1 err,
       loadDocumentRaw w (processDocument w fuel) (PathJoin w (BaseDir (options e)) f) e0
       = Failed e1 err
       /\ circularDepth err = Some n) ->
  exists e1 err,
    processDocument w (S fuel) doc e = Failed e1 err /\ circularDepth err = Some (S n).
Proof.
  unfold firstLoad, loadsOf. intros Hfirst Hfail. rewrite processDocument_S.
  destruct (baseFilesOf doc) as [|g rest] eqn:Eb.
  - destruct (extractDirectives_no_load w (processDocument w fuel) (Nodes doc) Eb
                noDirectives e) as (e1 & d1 & -> & Hv & Hb & Hi).
    cbn [runBind]. rewrite Hi. cbn [includeFiles noDirectives List.app] in *.
    change (includeFilesOf (mkDocument (Nodes doc))) with (includeFilesOf doc).
    destruct (includeFilesOf doc) as [|g rest]; [discriminate Hfirst|].
    injection Hfirst as ->. cbn [loadIncludes]. rewrite Hb.
    destruct (Hfail e1 Hv Hb) as (e2 & err & -> & Hc).
    cbn [wrapRun runBind]. exists e2, (EInclude f err). split; [reflexivity|].
    cbn [circularDepth]. now rewrite Hc.
  - cbn [List.app head] in Hfirst. injection Hfirst as ->.
    destruct (extractDirectives_first_base_fails w (processDocument w fuel) n (Nodes doc)
                noDirectives e f rest Eb Hfail) as (e1 & err & -> & Hc).
    cbn [runBind]. now exists e1, err.
Qed.

(** A load on a chain that comes back to a path of the active chain
    returns no Document. *)
Lemma load_on_a_cycle_returns_no_document (w : World) (n : nat) (p : string)
    (onChain : gset string) :
  loadChain w anyLoad n p onChain ->
  forall fuel f e e' d,
    visited e = onChain -> Abs w f = inr p ->
    loadDocumentRaw w (processDocument w fuel) f e <> Done e' d.
Proof.
  induction 1 as [p V Hin|n p V file doc name p' Hfresh Hopen Hparse Hnext Habs' _ IH];
    intros fuel f e e' d Hv Habs; subst V.
  - now rewrite (loadDocumentRaw_revisit w _ f p e Habs Hin).
  - rewrite (loadDocumentRaw_fresh w _ f p file doc e Habs Hfresh Hopen Hparse).
    set (e1 := setBaseDir (Dir w p) (setVisited ({[p]} ∪ visited e) e)).
    destruct (processDocument w fuel doc e1) as [e2 r| | |] eqn:Ep; try discriminate.
    destruct fuel as [|fuel]; [discriminate Ep|].
    destruct (processDocument_Done_loads w fuel doc e1 e2 r Ep name Hnext)
      as (e0 & e3 & doc3 & Hv0 & Hb0 & Hl).
    exfalso. apply (IH fuel (PathJoin w (BaseDir (options e1)) name) e0 e3 doc3);
      [exact Hv0 | exact Habs' | exact Hl].
Qed.

(** A load on a chain of first loads that comes back to a path of the
    active chain returns the circular-dependency error, under one wrapper
    for each load of the chain. *)
Lemma load_on_a_first_cycle_fails (w : World) (n : nat) (p : string)
    (onChain : gset string) :
  loadChain w firstLoad n p onChain ->
  forall fuel f e,
    visited e = onChain -> Abs w f = inr p -> n <= fuel ->
    exists e' err,
      loadDocumentRaw w (processDocument w fuel) f e = Failed e' err
      /\ circularDepth err = Some n.
Proof.
  induction 1 as [p V Hin|n p V file doc name p' Hfresh Hopen Hparse Hnext Habs' _ IH];
    intros fuel f e Hv Habs Hfuel; subst V.
  - rewrite (loadDocumentRaw_revisit w _ f p e Habs Hin). now eexists _, _.
  - rewrite (loadDocumentRaw_fresh w _ f p file doc e Habs Hfresh Hopen Hparse).
    set (e1 := setBaseDir (Dir w p) (setVisited ({[p]} ∪ visited e) e)).
    destruct fuel as [|fuel]; [lia|].
    destruct (processDocument_first_load_fails w fuel n doc e1 name Hnext)
      as (e2 & err & -> & Hc).
    { intros e0 Hv0 Hb0. apply IH; [exact Hv0 | exact Habs' | lia]. }
    cbn [deferred]. now eexists _, _.
Qed.

(** C5, as the code has it.  A load whose absolute path is on the
    active chain is refused with the circular-dependency error before the
    file is opened, and every load takes its mark away when it returns, on
    success and on error.  Hence:

    - a template on a cycle of loads never yields a Document, whatever
      the length of the cycle and whether a file names the next one as
      its base (the string of a node annotated [base]) or among its
      includes (an item of a node annotated [include] whose value is a
      List, that is, a multiline list), at any place among them;

    - when each file of the cycle names the next one as its first load,
      and the fuel is at least the length of the chain, [ProcessTemplate]
      returns: it fails with the circular-dependency error under one
      ["failed to load base"] or ["failed to include"] wrapper for each
      load of the chain, and leaves the visited set and the base directory
      as it found them;

    - a file that was loaded is not marked any more, so another load of
      it, from an independent branch, opens and processes it again: the
      diamond of four files processes to the merged Document, in which the
      shared file's node stands.

    An include whose value is an inline list is no load at all (X29, and
    the counterexample below). *)
Theorem load_cycle_is_a_circular_dependency (w : World) :
  (forall pd f p e,
      Abs w f = inr p -> p ∈ visited e ->
      loadDocumentRaw w pd f e = Failed e (ECircularFile f))
  /\ (forall n fuel f p e e' d,
         Abs w f = inr p -> loadChain w anyLoad n p (visited e) ->
         ProcessTemplate w fuel f e <> Done e' d)
  /\ (forall n fuel f p e,
         Abs w f = inr p -> loadChain w firstLoad n p (visited e) -> n <= fuel ->
         exists e' err,
           ProcessTemplate w fuel f e = Failed e' err
           /\ circularDepth err = Some n
           /\ visited e' = visited e
           /\ BaseDir (options e') = BaseDir (options e))
  /\ (forall fuel f e, keepsVisited e (ProcessTemplate w fuel f e))
  /\ (forall fuel f p e e1 d,
         Abs w f = inr p -> ProcessTemplate w fuel f e = Done e1 d ->
         (p ∉ visited e1)
         /\ forall pd file doc,
              Open w p = inr file -> ParseDocument NewParser file = Ok (Some doc, None) ->
              loadDocumentRaw w pd f e1
              = deferred (fun e' => setVisited (visited e' ∖ {[p]}) e')
                  (deferred (setBaseDir (BaseDir (options e1)))
                     (pd doc (setBaseDir (Dir w p)
                                         (setVisited ({[p]} ∪ visited e1) e1)))))
  /\ ProcessTemplate (flatWorld includeFiles_diamond) 5 "top.up" NewTemplateEngine
     = Done NewTemplateEngine
            (mkDocument [mkNode "name" EmptyString (VString "top");
                         mkNode "right" EmptyString (VString "1");
                         mkNode "shared" EmptyString (VString "1");
                         mkNode "left" EmptyString (VString "1")]).
Proof.
  split; [|split; [|split; [|split; [|split]]]].
  - intros pd f p e. apply loadDocumentRaw_revisit.
  - intros n fuel f p e e' d Habs Hchain.
    now apply (load_on_a_cycle_returns_no_document w n p (visited e) Hchain).
  - intros n fuel f p e Habs Hchain Hfuel.
    destruct (load_on_a_first_cycle_fails w n p (visited e) Hchain fuel f e
                eq_refl Habs Hfuel) as (e' & err & Hfail & Hc).
    exists e', err. unfold ProcessTemplate.
    pose proof (loadDocumentRaw_keepsVisited w (processDocument w fuel) f e
                  (processDocument_keepsVisited w fuel)) as HkV.
    pose proof (loadDocumentRaw_keepsBaseDir w (processDocument w fuel) f e) as HkB.
    rewrite Hfail in HkV, HkB |- *. now repeat split.
  - intros fuel f e. apply loadDocumentRaw_keepsVisited, processDocument_keepsVisited.
  - intros fuel f p e e1 d Habs Hdone.
    assert (Hfresh : p ∉ visited e1).
    { pose proof (loadDocumentRaw_keepsVisited w (processDocument w fuel) f e
                    (processDocument_keepsVisited w fuel)) as Hkeep.
      unfold ProcessTemplate in Hdone. rewrite Hdone in Hkeep.
      cbn [keepsVisited] in Hkeep. rewrite Hkeep.
      intros Hin. rewrite (loadDocumentRaw_revisit w _ f p e Habs Hin) in Hdone.
      discriminate. }
    split; [exact Hfresh|]. intros pd file doc Hopen Hparse.
    apply (loadDocumentRaw_fresh w pd f p file doc e1 Habs Hfresh Hopen Hparse).
  - vm_compute. reflexivity.
Qed.

Lemma load_cycle_is_a_circular_dependency_witness :
  exists e' err,
    ProcessTemplate (flatWorld includeFiles_ab) 2 "a.up" NewTemplateEngine = Failed e' err
    /\ circularDepth err = Some 2
    /\ visited e' = visited NewTemplateEngine
    /\ BaseDir (options e') = BaseDir (options NewTemplateEngine).
Proof.
  apply (proj1 (proj2 (proj2 (load_cycle_is_a_circular_dependency
                                (flatWorld includeFiles_ab))))
           2 2 "a.up" "a.up" NewTemplateEngine eq_refl); [|lia].
  apply (loadChain_load _ _ 1 "a.up" _
           (mkReader ["deps!include ["; "b.up"; "]"; "name a"] None)
           (mkDocument [mkNode "deps" "include" (VList [VString "b.up"]);
                        mkNode "name" EmptyString (VString "a")])
           "b.up" "b.up");
    [apply not_elem_of_empty | reflexivity | reflexivity | reflexivity | reflexivity |].
  apply (loadChain_load _ _ 0 "b.up" _
           (mkReader ["deps!include ["; "a.up"; "]"; "name b"] None)
           (mkDocument [mkNode "deps" "include" (VList [VString "a.up"]);
                        mkNode "name" EmptyString (VString "b")])
           "a.up" "a.up");
    [|reflexivity | reflexivity | reflexivity | reflexivity |].
  - cbn [visited NewTemplateEngine]. rewrite elem_of_union, elem_of_singleton.
    intros [H|H]; [discriminate H | now apply elem_of_empty in H].
  - apply loadChain_back. cbn [visited NewTemplateEngine].
    rewrite !elem_of_union, !elem_of_singleton. right. now left.
Defined.

(** C5 as the specification words it fails: two files that each declare
    the other in an inline [include] list.  The inline list is no List for
    the engine, nothing is loaded, and the first file is processed to its
    own node without any error. *)
Lemma inline_mutual_include_is_no_error :
  ProcessTemplate (flatWorld includeFiles_inline) 2 "a.up" NewTemplateEngine
  = Done NewTemplateEngine (mkDocument [mkNode "name" EmptyString (VString "a")])
  /\ ParseDocument NewParser (mkReader ["deps!include [b.up]"; "name a"] None)
     = Ok (Some (mkDocument [mkNode "deps" "include" (VSlice [VString "b.up"]);
                             mkNode "name" EmptyString (VString "a")]), None)
  /\ ~ (exists e err,
           ProcessTemplate (flatWorld includeFiles_inline) 2 "a.up" NewTemplateEngine
           = Failed e err).
Proof.
  split; [vm_compute; reflexivity|]. split; [reflexivity|].
  intros (e & err & H). vm_compute in H. discriminate H.
Qed.

(* ===================================================================== *)
(** * The repository's tests, on the model *)
(* ===================================================================== *)

Example TestParseDocument_Simple :
  parse (Join ["name John Doe"; "age!int 30"; "active!bool true"] newline)
  = Ok (Some (mkDocument [mkNode "name" EmptyString (VString "John Doe");
                          mkNode "age" "int" (VString "30");
                          mkNode "active" "bool" (VString "true")]), None).
Proof. reflexivity. Qed.

Example TestParseDocument_Multiline :
  parse (Join ["description!4 ```markdown"; "    # About this service";
               "    - Written by Robert"; "    - Runs on Postgres"; "```"; EmptyString]
              newline)
  = Ok (Some (mkDocument
                [mkNode "description" "4"
                        (VString (Join ["# About this service"; "- Written by Robert";
                                        "- Runs on Postgres"] newline))]), None).
Proof. reflexivity. Qed.

Example TestParseDocument_Block :
  parse (Join ["server {"; "host localhost"; "port!int 8080"; "}"] newline)
  = Ok (Some (mkDocument
                [mkNode "server" EmptyString
                        (VBlock [("host", VString "localhost"); ("port", VString "8080")])]),
        None).
Proof. reflexivity. Qed.

Example TestParseDocument_List :
  parse (Join ["items ["; "apple"; "banana"; "cherry"; "]"] newline)
  = Ok (Some (mkDocument
                [mkNode "items" EmptyString
                        (VList [VString "apple"; VString "banana"; VString "cherry"])]),
        None).
Proof. reflexivity. Qed.

Example TestParseDocument_EmptyLinesAndComments :
  parse (Join ["# This is a comment"; "name John"; EmptyString; "# Another comment";
               "age!int 30"; EmptyString; EmptyString] newline)
  = Ok (Some (mkDocument [mkNode "name" EmptyString (VString "John");
                          mkNode "age" "int" (VString "30")]), None).
Proof. reflexivity. Qed.

Example TestParseInlineList :
  parseInlineList "[apple, banana, cherry]"
  = Ok [VString "apple"; VString "banana"; VString "cherry"]
  /\ parseInlineList "[]" = Ok []
  /\ parseInlineList "[single]" = Ok [VString "single"]
  /\ parseInlineList "[item1,item2,item3]"
     = Ok [VString "item1"; VString "item2"; VString "item3"].
Proof. repeat split. Qed.

Example TestDedentLines :
  dedentLines (Join ["    line1"; "    line2"; "    line3"] newline) 4
  = Some (Join ["line1"; "line2"; "line3"] newline).
Proof. reflexivity. Qed.

Example TestParseDocument_LineOriented :
  parse "description: This is a complete sentence."
  = Ok (Some (mkDocument [mkNode "description" EmptyString
                                 (VString "This is a complete sentence.")]), None)
  /\ parse ("title: " +:+ dquote +:+ "Senior Engineer" +:+ dquote)
     = Ok (Some (mkDocument [mkNode "title" EmptyString (VString "Senior Engineer")]), None)
  /\ parse "message: Hello World  # this is a comment"
     = Ok (Some (mkDocument [mkNode "message" EmptyString (VString "Hello World")]), None).
Proof. repeat split. Qed.

Example TestParseDocument_LineOrientedWithType :
  parse (Join ["name!string: John Doe"; "count!int: 42"; "enabled!bool: true"] newline)
  = Ok (Some (mkDocument [mkNode "name" "string" (VString "John Doe");
                          mkNode "count" "int" (VString "42");
                          mkNode "enabled" "bool" (VString "true")]), None).
Proof. reflexivity. Qed.

Example TestParseDocument_QuotedAnnotation :
  parse ("title!quoted: " +:+ dquote +:+ "Senior Engineer" +:+ dquote)
  = Ok (Some (mkDocument [mkNode "title" "string"
                                 (VString (dquote +:+ "Senior Engineer" +:+ dquote))]), None)
  /\ parse "name!quoted: Alice"
     = Ok (Some (mkDocument [mkNode "name" "string"
                                    (VString (dquote +:+ "Alice" +:+ dquote))]), None).
Proof. repeat split. Qed.

Example TestParseDocument_InlineList :
  parse "colors [red, green, blue]"
  = Ok (Some (mkDocument
                [mkNode "colors" EmptyString
                        (VSlice [VString "red"; VString "green"; VString "blue"])]), None).
Proof. reflexivity. Qed.

Example TestParseDocument_UseDirective :
  parse "!use [time, id, faker, random]"
  = Ok (Some (mkDocument [mkNode "_use" "directive"
                                 (VUse ["time"; "id"; "faker"; "random"])]), None).
Proof. reflexivity. Qed.

Example TestParseDocument_LintDirective :
  parse (Join ["!lint {"; "  no-empty-values!level warning";
               "  require-type-annotations!level error"; "}"] newline)
  = Ok (Some (mkDocument
                [mkNode "_lint" "directive"
                        (VBlock [("no-empty-values", VString "warning");
                                 ("require-type-annotations", VString "error")])]), None).
Proof. reflexivity. Qed.

Example TestParseDocument_TraditionalQuotedValues :
  parse ("name " +:+ dquote +:+ "John Doe" +:+ dquote)
  = Ok (Some (mkDocument [mkNode "name" EmptyString (VString "John Doe")]), None)
  /\ parse "status active"
     = Ok (Some (mkDocument [mkNode "status" EmptyString (VString "active")]), None).
Proof. repeat split. Qed.

(** The examples of the specification for the engine. *)
Example deep_and_replace_merge :
  let base := VBlock [("a", VString "1"); ("b", VBlock [("x", VString "1")])] in
  let overlay := VBlock [("b", VBlock [("y", VString "2")]); ("c", VString "3")] in
  mergeValues (mkOptions "deep" "append" ".") base overlay
  = VBlock [("a", VString "1"); ("b", VBlock [("x", VString "1"); ("y", VString "2")]);
            ("c", VString "3")]
  /\ mergeValues (mkOptions "replace" "append" ".") base overlay = overlay.
Proof. repeat split. Qed.

Example list_strategies :
  let b := VList [VString "1"; VString "2"] in
  let ov := VList [VString "2"; VString "3"] in
  mergeValues (mkOptions "deep" "append" ".") b ov
  = VList [VString "1"; VString "2"; VString "2"; VString "3"]
  /\ mergeValues (mkOptions "deep" "unique" ".") b ov
     = VList [VString "1"; VString "2"; VString "3"]
  /\ mergeValues (mkOptions "deep" "replace" ".") b ov = ov.
Proof. repeat split. Qed.

Example variable_fixpoint :
  exists e,
    ProcessTemplateFromReader (flatWorld []) 8
      (mkReader ["vars {"; "a $vars.b"; "b 5"; "}"; "port $vars.a"] None) NewTemplateEngine
    = Done e (mkDocument [mkNode "vars" EmptyString
                                 (VBlock [("a", VString "5"); ("b", VString "5")]);
                          mkNode "port" EmptyString (VString "5")])
    /\ vars e !! "a" = Some (VString "5").
Proof. eexists. split; vm_compute; reflexivity. Qed.
